(** * Index range planning and execution of the LMDB datastore

    A shallow embedding of
    [packages/gatsby/src/datastore/lmdb/query/filter-using-index.ts]:
    the planner ([getQueriesThatCanUseIndex], [extractRanges],
    [findRangeEdge], [getIndexRanges]) and the executors
    ([performRangeScan], [performFullScan], [countUsingIndex],
    [filterUsingIndex]), the residual narrower ([narrowResultsIfPossible])
    and the helpers on keys ([getIdentifier], [compareByKeySuffix]), followed
    by the properties proved about them. *)

From stdpp Require Import base list strings sorting gmap.

Local Open Scope Z_scope.

(** ** JavaScript values

    Filter operands, index field values, range boundaries and index keys are
    all plain JavaScript values at run time, so one type carries them.  The
    planner never computes on a number, it only moves it around and compares
    it with [null]; numbers are carried as integers. *)

#[warnings="-register-all"]
Inductive JsValue : Type :=
  | JNull
  | JUndefined
  | JBool (b : bool)
  | JNum (n : Z)
  | JStr (s : string)
  | JSymbol (description : string)
  | JBuffer (bytes : list Z)
  | JRegExp (source : string)
  | JArray (items : list JsValue).

#[global] Instance JsValue_eq_dec : EqDecision JsValue.
Proof.
  unfold EqDecision. fix go 1. intros x y.
  destruct x as [| |a|a|a|a|a|a|a], y as [| |b|b|b|b|b|b|b];
    try (right; discriminate); try (left; reflexivity).
  - destruct (decide (a = b)); [left|right]; congruence.
  - destruct (decide (a = b)); [left|right]; congruence.
  - destruct (decide (a = b)); [left|right]; congruence.
  - destruct (decide (a = b)); [left|right]; congruence.
  - destruct (decide (a = b)); [left|right]; congruence.
  - destruct (decide (a = b)); [left|right]; congruence.
  - destruct (@list_eq_dec _ go a b); [left|right]; congruence.
Defined.

Inductive JsType := TObject | TUndefined | TBoolean | TNumber | TString | TSymbol.

Definition typeof (v : JsValue) : JsType :=
  match v with
  | JNull | JBuffer _ | JRegExp _ | JArray _ => TObject
  | JUndefined => TUndefined
  | JBool _ => TBoolean
  | JNum _ => TNumber
  | JStr _ => TString
  | JSymbol _ => TSymbol
  end.

Definition isArray (v : JsValue) : bool :=
  match v with JArray _ => true | _ => false end.

(** [typeof v === `object` && v !== null] *)
Definition isNonNullObject (v : JsValue) : bool :=
  match typeof v, v with
  | TObject, JNull => false
  | TObject, _ => true
  | _, _ => false
  end.

(** The left operand of [??] is kept unless it is [null] or [undefined]. *)
Definition isNullish (v : JsValue) : bool :=
  match v with JNull | JUndefined => true | _ => false end.

Definition nullishCoalesce (a b : JsValue) : JsValue :=
  if isNullish a then b else a.

(** ** Constants of the index encoding *)

(** [Buffer.from([0])] *)
Definition BinaryInfinityNegative : JsValue := JBuffer [0].

Definition char255 : Ascii.ascii := Ascii.ascii_of_nat 255.

(** [String.fromCharCode(255).repeat(4)] *)
Definition BinaryInfinityPositive : JsValue :=
  JStr (String char255 (String char255 (String char255 (String char255 EmptyString)))).

(** Modelled from the spec: [undefinedSymbol] of [./create-index], a module
    whose source is missing here; it is the "undefined marker", written
    [Symbol(`undef`)] in the ordering comment of [extractRanges]. *)
Definition undefinedSymbol : JsValue := JSymbol "undef".

Definition getValueEdgeAfter (value : JsValue) : JsValue :=
  JArray [value; BinaryInfinityPositive].

Definition getValueEdgeBefore (value : JsValue) : JsValue :=
  JArray [undefinedSymbol; value].

Inductive ValueEdges := BEFORE | NONE | AFTER.

Definition edgeNumber (e : ValueEdges) : Z :=
  match e with BEFORE => -1 | NONE => 0 | AFTER => 1 end.

(** ** Queries

    A clause is a comparator applied to an operand and addressed by a dotted
    field path.  The types and accessors of clauses belong to
    [../../common/query], a module whose source is missing here. *)

(** Modelled from the spec: the enumeration [DbComparator] of
    [../../common/query], with the comparators the spec lists. *)
Inductive DbComparator := EQ | NE | GT | GTE | LT | LTE | IN | NIN.

#[global] Instance DbComparator_eq_dec : EqDecision DbComparator.
Proof. solve_decision. Defined.

(** Modelled from the spec: the interface [IDbFilterStatement] of
    [../../common/query], a comparator and its operand. *)
Record IDbFilterStatement := {
  comparator : DbComparator;
  value : JsValue
}.

#[global] Instance IDbFilterStatement_eq_dec : EqDecision IDbFilterStatement.
Proof. solve_decision. Defined.

(** Modelled from the spec: the type [DbQuery] of [../../common/query], as far
    as this file reads it: the dotted field path and the filter statement of
    the clause.  [queryRef] stands for the identity of the clause object, which
    is what a JavaScript [Set] of clauses distinguishes. *)
Record DbQuery := {
  queryRef : nat;
  queryField : string;
  queryFilter : IDbFilterStatement
}.

#[global] Instance DbQuery_eq_dec : EqDecision DbQuery.
Proof. solve_decision. Defined.

(** Modelled from the spec: [dbQueryToDottedField] of [../../common/query], the
    dotted field path that the clause addresses. *)
Definition dbQueryToDottedField (q : DbQuery) : string := queryField q.

(** Modelled from the spec: [getFilterStatement] of [../../common/query], the
    comparator and operand of the clause. *)
Definition getFilterStatement (q : DbQuery) : IDbFilterStatement := queryFilter q.

(** A [Set<DbQuery>] in insertion order. *)
Definition QuerySet := list DbQuery.

Definition setHas (s : QuerySet) (q : DbQuery) : bool := bool_decide (q ∈ s).

Definition setAdd (s : QuerySet) (q : DbQuery) : QuerySet :=
  if setHas s q then s else s ++ [q].

(** ** Exceptions *)

Inductive Error :=
  | InArgumentNotArray
  | ValueMustNotBeArray (c : DbComparator)
  | UnsupportedComparator (c : DbComparator)
  | RangeFilterArrayValue (c : DbComparator)
  | RangeFilterObjectValue (c : DbComparator)
  | BadFilterValue (c : DbComparator)
  | UnexpectedComparatorPair (a b : DbComparator)
  | CannotCountUnresolved
  | CannotCountMultiKey
  | BadIdentifier (id : JsValue)
  | NotIterable.

Inductive Outcome (A : Type) :=
  | Returned (a : A)
  | Thrown (e : Error).
Arguments Returned {A} a.
Arguments Thrown {A} e.

#[global] Instance Outcome_ret : MRet Outcome := λ A a, Returned a.
#[global] Instance Outcome_bind : MBind Outcome := λ A B f m,
  match m with Returned a => f a | Thrown e => Thrown e end.
#[global] Instance Outcome_fmap : FMap Outcome := λ A B f m,
  match m with Returned a => Returned (f a) | Thrown e => Thrown e end.

(** ** The range extractor

    [extractRanges] fills two local arrays and a local set, and may throw
    half-way.  Its body is written in a state-and-exception monad whose result
    keeps the state reached at the point of the [throw]. *)

Record ExtractState := {
  rangeStarts : list JsValue;
  rangeEndings : list JsValue;
  used : QuerySet
}.

Definition emptyExtract : ExtractState :=
  {| rangeStarts := []; rangeEndings := []; used := [] |}.

Definition Extract (A : Type) : Type := ExtractState → Outcome A * ExtractState.

#[global] Instance Extract_ret : MRet Extract := λ A a st, (Returned a, st).
#[global] Instance Extract_bind : MBind Extract := λ A B f m st,
  match m st with
  | (Returned a, st') => f a st'
  | (Thrown e, st') => (Thrown e, st')
  end.

Definition throw {A} (e : Error) : Extract A := λ st, (Thrown e, st).

Definition liftOutcome {A} (o : Outcome A) : Extract A := λ st, (o, st).

Definition getState : Extract ExtractState := λ st, (Returned st, st).

Definition getUsed : Extract QuerySet := λ st, (Returned (used st), st).

Definition pushStart (v : JsValue) : Extract unit := λ st,
  (Returned (), {| rangeStarts := rangeStarts st ++ [v];
                   rangeEndings := rangeEndings st;
                   used := used st |}).

Definition pushEnding (v : JsValue) : Extract unit := λ st,
  (Returned (), {| rangeStarts := rangeStarts st;
                   rangeEndings := rangeEndings st ++ [v];
                   used := used st |}).

Definition usedAdd (q : DbQuery) : Extract unit := λ st,
  (Returned (), {| rangeStarts := rangeStarts st;
                   rangeEndings := rangeEndings st;
                   used := setAdd (used st) q |}).

Definition toIndexFieldValue (filterValue : JsValue) (statement : IDbFilterStatement)
  : Outcome JsValue :=
  if isNonNullObject filterValue
  then Thrown (BadFilterValue (comparator statement))
  else Returned filterValue.

Fixpoint findRangeEdge (queries : list DbQuery) (cmp : DbComparator)
    (edge : ValueEdges) : Extract JsValue :=
  match queries with
  | [] => mret JUndefined
  | dbQuery :: rest =>
      usedQueries ← getUsed;
      if setHas usedQueries dbQuery then findRangeEdge rest cmp edge else
      let filterStatement := getFilterStatement dbQuery in
      if negb (bool_decide (comparator filterStatement = cmp))
      then findRangeEdge rest cmp edge else
      usedAdd dbQuery;;
      let v := value filterStatement in
      if isArray v then throw (RangeFilterArrayValue cmp) else
      if isNonNullObject v then throw (RangeFilterObjectValue cmp) else
      if bool_decide (edgeNumber edge = 0) then mret v else
      mret (if bool_decide (edgeNumber edge < 0)
            then getValueEdgeBefore v else getValueEdgeAfter v)
  end.

(** The [for (const item of arr)] loop of the [EQ]/[IN] case; the result is the
    final [hasNull]. *)
Fixpoint pushValues (statement : IDbFilterStatement) (arr : list JsValue)
    (hasNull : bool) : Extract bool :=
  match arr with
  | [] => mret hasNull
  | item :: rest =>
      v ← liftOutcome (toIndexFieldValue item statement);
      let hasNull := if bool_decide (v = JNull) then true else hasNull in
      pushStart v;;
      pushEnding (getValueEdgeAfter v);;
      pushValues statement rest hasNull
  end.

(** The [EQ]/[IN] case of the [switch]. *)
Definition equalityCase (statement : IDbFilterStatement) : Extract unit :=
  let arr := match value statement with
             | JArray items => items
             | single => [single]
             end in
  hasNull ← pushValues statement arr false;
  if hasNull : bool
  then pushStart undefinedSymbol;;
       pushEnding (getValueEdgeAfter undefinedSymbol)
  else mret ().

(** The [LT]/[LTE] case of the [switch]. *)
Definition upperAnchorCase (fieldQueries : list DbQuery)
    (statement : IDbFilterStatement) : Extract unit :=
  if isArray (value statement)
  then throw (ValueMustNotBeArray (comparator statement)) else
  v ← liftOutcome (toIndexFieldValue (value statement) statement);
  let ending := if bool_decide (comparator statement = LT)
                then v else getValueEdgeAfter v in
  found ← findRangeEdge fieldQueries GTE NONE;
  start ← (if isNullish found
           then findRangeEdge fieldQueries GT AFTER
           else mret found);
  let rangeHead := if bool_decide (v = JNull)
                   then BinaryInfinityNegative
                   else getValueEdgeAfter undefinedSymbol in
  pushStart (nullishCoalesce start rangeHead);;
  pushEnding ending.

(** The [GT]/[GTE] case of the [switch]. *)
Definition lowerAnchorCase (fieldQueries : list DbQuery)
    (statement : IDbFilterStatement) : Extract unit :=
  if isArray (value statement)
  then throw (ValueMustNotBeArray (comparator statement)) else
  v ← liftOutcome (toIndexFieldValue (value statement) statement);
  let start := if bool_decide (comparator statement = GTE)
               then v else getValueEdgeAfter v in
  found ← findRangeEdge fieldQueries LTE AFTER;
  ending ← (if isNullish found
            then findRangeEdge fieldQueries LT NONE
            else mret found);
  let rangeTail := if bool_decide (v = JNull)
                   then getValueEdgeAfter JNull
                   else BinaryInfinityPositive in
  pushStart start;;
  pushEnding (nullishCoalesce ending rangeTail).

Definition extractRangesBody (queries : list DbQuery) (indexField : string)
  : Extract ExtractState :=
  let fieldQueries := filter (λ q, dbQueryToDottedField q = indexField) queries in
  match fieldQueries with
  | [] => getState
  | bestMatchingQuery :: _ =>
      usedAdd bestMatchingQuery;;
      let statement := getFilterStatement bestMatchingQuery in
      if bool_decide (comparator statement = IN) && negb (isArray (value statement))
      then throw InArgumentNotArray else
      match comparator statement with
      | EQ | IN => equalityCase statement
      | LT | LTE => upperAnchorCase fieldQueries statement
      | GT | GTE => lowerAnchorCase fieldQueries statement
      | NE | NIN => throw (UnsupportedComparator (comparator statement))
      end;;
      getState
  end.

(** A call of [extractRanges]: the body run on fresh arrays and a fresh set.
    The first component is what the caller receives, the second the locals as
    they were when the call ended. *)
Definition extractRanges (queries : list DbQuery) (indexField : string)
  : Outcome ExtractState * ExtractState :=
  extractRangesBody queries indexField emptyExtract.

(** ** The filter classifier *)

(** The members of the [canUseIndex] set, in insertion order. *)
Definition canUseIndex : list DbComparator := [EQ; IN; GTE; LTE; GT; LT].

Fixpoint firstOfPair (comparators : list DbComparator) (a b : DbComparator)
  : Outcome Z :=
  match comparators with
  | [] => Thrown (UnexpectedComparatorPair a b)
  | c :: rest =>
      if bool_decide (c = a) then Returned (-1) else
      if bool_decide (c = b) then Returned 1 else
      firstOfPair rest a b
  end.

Definition sortByFilterSpecificity (a b : DbQuery) : Outcome Z :=
  let aComparator := comparator (getFilterStatement a) in
  let bComparator := comparator (getFilterStatement b) in
  if bool_decide (aComparator = bComparator) then Returned 0
  else firstOfPair canUseIndex aComparator bComparator.

(** [Array.prototype.sort] is stable, and [sortByFilterSpecificity] ranks its
    arguments consistently, so the sorted array does not depend on the sorting
    algorithm; here each element is inserted before the first element that does
    not precede it, from the right end of the array to the left. *)
Fixpoint insertSorted {A} (compareFn : A → A → Outcome Z) (x : A) (sorted : list A)
  : Outcome (list A) :=
  match sorted with
  | [] => Returned [x]
  | y :: rest =>
      c ← compareFn x y;
      if bool_decide (c ≤ 0) then Returned (x :: y :: rest)
      else cons y <$> insertSorted compareFn x rest
  end.

Fixpoint arraySort {A} (compareFn : A → A → Outcome Z) (arr : list A)
  : Outcome (list A) :=
  match arr with
  | [] => Returned []
  | x :: rest => sorted ← arraySort compareFn rest; insertSorted compareFn x sorted
  end.

Definition getQueriesThatCanUseIndex (all : list DbQuery) : Outcome (list DbQuery) :=
  arraySort sortByFilterSpecificity
    (filter (λ q, comparator (getFilterStatement q) ∈ canUseIndex) all).

(** ** The range composer *)

(** Modelled from the spec: [cartesianProduct] of [./common], a module whose
    source is missing here.  The product of the per-field lists, one tuple per
    choice of one element in each list, the first field varying slowest; with
    no list at all the product is the single empty tuple. *)
Definition cartesianProduct {A} (arr : list (list A)) : list (list A) :=
  foldl (λ acc b, d ← acc; (λ e, d ++ [e]) <$> b) [[]] arr.

(** [rangeEnd] is [None] where the source would read past the end of
    [rangeEndingsProduct] and store [undefined]. *)
Record IIndexRange := {
  rangeStart : list JsValue;
  rangeEnd : option (list JsValue)
}.

Record Collected := {
  collectedUsed : QuerySet;
  collectedStarts : list (list JsValue);
  collectedEndings : list (list JsValue)
}.

Definition emptyCollected : Collected :=
  {| collectedUsed := []; collectedStarts := []; collectedEndings := [] |}.

(** The three statements that end an iteration of the loop of
    [getIndexRanges]: the clauses used for the field join [usedQueries], its
    starts and endings are appended to [rangeStarts] and [rangeEndings]. *)
Definition absorb (acc : Collected) (result : ExtractState) : Collected :=
  {| collectedUsed := foldl setAdd (collectedUsed acc) (used result);
     collectedStarts := collectedStarts acc ++ [rangeStarts result];
     collectedEndings := collectedEndings acc ++ [rangeEndings result] |}.

(** The [for (const indexField of indexFields.keys())] loop of
    [getIndexRanges], with its [break]. *)
Fixpoint collectRanges (queriesThatCanUseIndex : list DbQuery)
    (fields : list string) (acc : Collected) : Outcome Collected :=
  match fields with
  | [] => Returned acc
  | indexField :: rest =>
      result ← fst (extractRanges queriesThatCanUseIndex indexField);
      if bool_decide (length (rangeStarts result) = 0%nat) then Returned acc else
      collectRanges queriesThatCanUseIndex rest (absorb acc result)
  end.

(** [IndexFields] is a [Map] from field path to sort order; its keys are
    visited in insertion order. *)
Definition IndexFields := list (string * Z).

Definition keys (indexFields : IndexFields) : list string := indexFields.*1.

Record Plan := {
  usedQueries : QuerySet;
  ranges : list IIndexRange
}.

(** What [getIndexRanges] does once its loop is over. *)
Definition composeRanges (collected : Collected) : Plan :=
  if bool_decide (length (collectedStarts collected) = 0%nat)
  then {| usedQueries := collectedUsed collected; ranges := [] |}
  else
    let rangeStartsProduct := cartesianProduct (collectedStarts collected) in
    let rangeEndingsProduct := cartesianProduct (collectedEndings collected) in
    {| usedQueries := collectedUsed collected;
       ranges := imap (λ i start,
                         {| rangeStart := start;
                            rangeEnd := rangeEndingsProduct !! i |})
                      rangeStartsProduct |}.

Definition getIndexRanges (dbQueries : list DbQuery) (indexFields : IndexFields)
  : Outcome Plan :=
  queriesThatCanUseIndex ← getQueriesThatCanUseIndex dbQueries;
  collected ← collectRanges queriesThatCanUseIndex (keys indexFields) emptyCollected;
  Returned (composeRanges collected).

(** ** Numbers that are computed

    [limit] and [maxKeysPerItem] are counts, carried as integers.  The one
    number that the code computes is their product, a product of doubles: the
    exact product rounded to 53 significant bits, ties to even, and infinite
    beyond the largest double. *)

Inductive JsNumber :=
  | Finite (n : Z)
  | PositiveInfinity
  | NegativeInfinity.

(** The double nearest to the integer [n]. *)
Definition roundToDouble (n : Z) : JsNumber :=
  let a := Z.abs n in
  if bool_decide (a < 2 ^ 53) then Finite n else
  let e := Z.log2 a - 52 in
  let q := a / 2 ^ e in
  let r := a mod 2 ^ e in
  let half := 2 ^ (e - 1) in
  let rounded := if bool_decide (r < half) then q
                 else if bool_decide (half < r) then q + 1
                 else if Z.even q then q else q + 1 in
  let v := rounded * 2 ^ e in
  if bool_decide (2 ^ 1024 ≤ v)
  then (if bool_decide (0 < n) then PositiveInfinity else NegativeInfinity)
  else Finite (Z.sgn n * v).

(** [a * b] on two doubles that hold integers. *)
Definition multiply (a b : Z) : JsNumber := roundToDouble (a * b).

(** ** The index engine

    [databases.indexes] is the key-value engine: [getRange] scans a range of
    keys, [getKeysCount] counts the keys of a range.  A scan is described by a
    range object; a property that is absent from the object literal is [None]
    ([false] for [reverse]). *)

Record IIndexEntry := {
  key : list JsValue;
  entryValue : string
}.

Record RangeOptions := {
  optStart : list JsValue;
  optEnd : list JsValue;
  optLimit : option JsNumber;
  optOffset : option Z;
  optReverse : bool;
  optSnapshot : bool
}.

Record Engine := {
  getRange : RangeOptions → list IIndexEntry;
  getKeysCount : RangeOptions → Z
}.

Record IIndexMetadata := {
  keyPrefix : JsValue;
  maxKeysPerItem : Z
}.

Record IFilterContext := {
  indexes : Engine;
  dbQueries : list DbQuery;
  indexFields : IndexFields;
  indexMetadata : IIndexMetadata;
  limit : option Z;
  offset : option Z;
  reverse : bool
}.

(** ** Iterables

    A [GatsbyIterable] is embedded as the list of entries a consumer obtains by
    draining it, or the exception that draining it raises. *)

Definition getIdentifier (entry : IIndexEntry) : Outcome JsValue :=
  let id := default JUndefined (last (key entry)) in
  match typeof id with
  | TNumber | TString => Returned id
  | _ => Thrown (BadIdentifier id)
  end.

(** Modelled from the spec: [deduplicate] of the [GatsbyIterable] of
    [../../common/iterable], a module whose source is missing here.
    [deduplicate keyFn] keeps the first entry of each key and drops the later
    ones; [registered] holds the keys met so far. *)
Fixpoint deduplicateSeq {A} (keyFn : A → Outcome JsValue) (registered : list JsValue)
    (source : list A) : Outcome (list A) :=
  match source with
  | [] => Returned []
  | current :: rest =>
      k ← keyFn current;
      if bool_decide (k ∈ registered) then deduplicateSeq keyFn registered rest
      else cons current <$> deduplicateSeq keyFn (k :: registered) rest
  end.

Definition deduplicate {A} (keyFn : A → Outcome JsValue) (source : list A)
  : Outcome (list A) :=
  deduplicateSeq keyFn [] source.

(** ** The range executor *)

Record IFilterResult := {
  entries : Outcome (list IIndexEntry);
  usedLimit : option JsNumber;
  usedOffset : Z;
  resultUsedQueries : QuerySet
}.

(** [if (limit)]: a limit that is present and not zero. *)
Definition truthy (n : option Z) : bool :=
  match n with
  | Some l => negb (bool_decide (l = 0))
  | None => false
  end.

(** The limit and offset that [performRangeScan] settles on before it scans. *)
Definition scanLimitOffset (context : IFilterContext) (rangeCount : nat)
  : option JsNumber * Z :=
  let limit0 := limit context in
  let offset0 := default 0 (offset context) in
  if truthy limit0 then
    let offset1 := if bool_decide (1 < rangeCount)%nat then 0 else offset0 in
    let limit1 := if bool_decide (1 < maxKeysPerItem (indexMetadata context))
                  then (λ l, multiply l (maxKeysPerItem (indexMetadata context)))
                         <$> limit0
                  else Finite <$> limit0 in
    (limit1, offset1)
  else (Finite <$> limit0, offset0).

(** The range object of one scan: forward from [start] to [ending], or, for a
    reverse scan, backward from [ending] to [start]. *)
Definition scanRequest (context : IFilterContext) (limit1 : option JsNumber)
    (offset1 : Z)
    (start ending : list JsValue) : RangeOptions :=
  if negb (reverse context)
  then {| optStart := start; optEnd := ending; optLimit := limit1;
          optOffset := Some offset1; optReverse := false; optSnapshot := false |}
  else {| optStart := ending; optEnd := start; optLimit := limit1;
          optOffset := Some offset1; optReverse := reverse context;
          optSnapshot := false |}.

(** The [for (let { start, end } of ranges)] loop.  [calls] is the list of
    range objects handed to [getRange] so far, oldest first.  Spreading the
    [undefined] end of a range raises a [TypeError]. *)
Fixpoint scanRanges (context : IFilterContext) (limit1 : option JsNumber)
    (offset1 : Z)
    (todo : list IIndexRange) (found : list IIndexEntry) (calls : list RangeOptions)
  : Outcome (list IIndexEntry) * list RangeOptions :=
  match todo with
  | [] => (Returned found, calls)
  | r :: rest =>
      let start := keyPrefix (indexMetadata context) :: rangeStart r in
      match rangeEnd r with
      | None => (Thrown NotIterable, calls)
      | Some e =>
          let ending := keyPrefix (indexMetadata context) :: e in
          let range := scanRequest context limit1 offset1 start ending in
          let matches := getRange (indexes context) range in
          scanRanges context limit1 offset1 rest (found ++ matches) (calls ++ [range])
      end
  end.

Definition performRangeScan (context : IFilterContext) (ranges : list IIndexRange)
    (usedQueries : QuerySet) : Outcome IFilterResult * list RangeOptions :=
  let '(limit1, offset1) := scanLimitOffset context (length ranges) in
  match scanRanges context limit1 offset1 ranges [] [] with
  | (Thrown e, calls) => (Thrown e, calls)
  | (Returned found, calls) =>
      let deduplicated :=
        if bool_decide (1 < maxKeysPerItem (indexMetadata context))
        then deduplicate getIdentifier found
        else Returned found in
      (Returned {| entries := deduplicated;
                   usedLimit := limit1;
                   usedOffset := offset1;
                   resultUsedQueries := usedQueries |}, calls)
  end.

(** The object literal [{ start, end, snapshot: false }]. *)
Definition plainRange (start ending : list JsValue) : RangeOptions :=
  {| optStart := start; optEnd := ending; optLimit := None; optOffset := None;
     optReverse := false; optSnapshot := false |}.

(** [engine] is the [databases.indexes] of the context that is passed;
    [reverseArg] is [None] when the caller leaves the third argument out. *)
Definition performFullScan (engine : Engine) (indexName : JsValue)
    (reverseArg : option bool) : Outcome (list IIndexEntry) * list RangeOptions :=
  let reverse := default false reverseArg in
  let start := [indexName; getValueEdgeAfter undefinedSymbol] in
  let ending := [getValueEdgeAfter indexName] in
  let range1 :=
    if negb reverse
    then plainRange start ending
    else {| optStart := ending; optEnd := start; optLimit := None;
            optOffset := None; optReverse := reverse; optSnapshot := false |} in
  let undefinedToEnd := getRange engine range1 in
  let ending := start in
  let start := [indexName; JNull] in
  let range2 :=
    if negb reverse
    then plainRange start ending
    else {| optStart := ending; optEnd := start; optLimit := None;
            optOffset := None; optReverse := reverse; optSnapshot := false |} in
  let topToUndefined := getRange engine range2 in
  let result := if negb reverse
                then undefinedToEnd ++ topToUndefined
                else topToUndefined ++ undefinedToEnd in
  (deduplicate getIdentifier result, [range1; range2]).

(** What [filterUsingIndex] binds to [result]: the result of a range scan or
    the entries of a full scan. *)
Inductive ScanResult :=
  | RangeScanResult (r : IFilterResult)
  | FullScanResult (r : Outcome (list IIndexEntry)).

(** The first statement of [filterUsingIndex] after planning.  The call
    [performFullScan(context)] passes the context alone, so [indexName] is
    [undefined] and [reverse] takes its default. *)
Definition selectScan (context : IFilterContext) (plan : Plan)
  : Outcome ScanResult * list RangeOptions :=
  if bool_decide (0 < length (ranges plan))%nat
  then
    match performRangeScan context (ranges plan) (usedQueries plan) with
    | (Returned r, calls) => (Returned (RangeScanResult r), calls)
    | (Thrown e, calls) => (Thrown e, calls)
    end
  else
    let '(r, calls) := performFullScan (indexes context) JUndefined None in
    (Returned (FullScanResult r), calls).

(** The call of [narrowResultsIfPossible] passes other arguments than the
    function declares; [filterUsingIndex] takes the call as [narrow], applied
    where the source calls it. *)
Definition filterUsingIndex
    (narrow : IFilterContext → ScanResult → QuerySet → Outcome (QuerySet * ScanResult))
    (context : IFilterContext)
  : Outcome (QuerySet * ScanResult) * list RangeOptions :=
  match getIndexRanges (dbQueries context) (indexFields context) with
  | Thrown e => (Thrown e, [])
  | Returned plan =>
      match selectScan context plan with
      | (Thrown e, calls) => (Thrown e, calls)
      | (Returned result, calls) =>
          if bool_decide (length (usedQueries plan) = length (dbQueries context))
          then (Returned (usedQueries plan, result), calls)
          else (narrow context result (usedQueries plan), calls)
      end
  end.

(** ** The counter *)

Fixpoint countRanges (context : IFilterContext) (todo : list IIndexRange) (count : Z)
  : Outcome Z :=
  match todo with
  | [] => Returned count
  | r :: rest =>
      let start := keyPrefix (indexMetadata context) :: rangeStart r in
      match rangeEnd r with
      | None => Thrown NotIterable
      | Some e =>
          let ending := keyPrefix (indexMetadata context) :: e in
          countRanges context rest
            (count + getKeysCount (indexes context) (plainRange start ending))
      end
  end.

Definition countUsingIndex (context : IFilterContext) : Outcome Z :=
  plan ← getIndexRanges (dbQueries context) (indexFields context);
  if negb (bool_decide (length (usedQueries plan) = length (dbQueries context)))
  then Thrown CannotCountUnresolved else
  if bool_decide (1 < maxKeysPerItem (indexMetadata context))
  then Thrown CannotCountMultiKey else
  if bool_decide (length (ranges plan) = 0%nat)
  then Returned (getKeysCount (indexes context)
                   (plainRange [keyPrefix (indexMetadata context)]
                               [getValueEdgeAfter (keyPrefix (indexMetadata context))]))
  else countRanges context (ranges plan) 0.

(** ** The keys of an object

    [Object.keys] lists the keys that are array indices first, in ascending
    numeric order, and the other keys after them, in the order in which they
    were added to the object. *)

Definition digitValue (c : Ascii.ascii) : option N :=
  let n := Ascii.N_of_ascii c in
  if bool_decide (48 ≤ n ∧ n ≤ 57)%N then Some (n - 48)%N else None.

Fixpoint digitsValue (s : string) (acc : N) : option N :=
  match s with
  | EmptyString => Some acc
  | String c rest => d ← digitValue c; digitsValue rest (10 * acc + d)%N
  end.

(** An array index is the canonical decimal string of an integer from 0 to
    2^32 - 2: no sign, and no leading zero but for the string of 0. *)
Definition arrayIndex (s : string) : option N :=
  match s with
  | EmptyString => None
  | String c rest =>
      if bool_decide (c = Ascii.ascii_of_nat 48)
      then (if bool_decide (rest = EmptyString) then Some 0%N else None)
      else n ← digitsValue s 0; if bool_decide (n ≤ 4294967294)%N then Some n else None
  end.

(** The ascending numeric order of the keys that are array indices. *)
Definition byIndex (a b : N * string) : Prop := (a.1 ≤ b.1)%N.

#[global] Instance byIndex_dec : RelDecision byIndex.
Proof. intros a b. unfold byIndex. apply _. Defined.

(** [Object.keys(o)] for the object whose properties were added in the order
    of the list. *)
Definition objectKeys {V} (o : list (string * V)) : list string :=
  let names := o.*1 in
  let indices := omap (λ name, (λ n, (n, name)) <$> arrayIndex name) names in
  (merge_sort byIndex indices).*2
  ++ filter (λ name, arrayIndex name = None) names.

(** ** The residual narrower

    [narrowResultsIfPossible], as it is declared, filters scanned entries with
    the clauses that the plan left unused, reading the values off the index
    keys. *)

(** [firstFieldOffset]: the very first item of an index key is the index id. *)
Definition firstFieldOffset : nat := 1.

(** The [forEach] that fills the [indexFieldPositions] map: [position] is the
    position of the first of [fieldNames] among the keys of the index. *)
Fixpoint setPositions (fieldNames : list string) (position : nat)
    (indexFieldPositions : gmap string nat) : gmap string nat :=
  match fieldNames with
  | [] => indexFieldPositions
  | fieldName :: rest =>
      setPositions rest (S position)
        (<[fieldName := (firstFieldOffset + position)%nat]> indexFieldPositions)
  end.

(** The [for (const query of dbQueries)] loop of [narrowResultsIfPossible]:
    the used set and [filtersToApply] as they grow. *)
Fixpoint collectFilters (indexFieldPositions : gmap string nat)
    (dbQueries : list DbQuery) (usedQueries : QuerySet)
    (filtersToApply : list (IDbFilterStatement * nat))
  : QuerySet * list (IDbFilterStatement * nat) :=
  match dbQueries with
  | [] => (usedQueries, filtersToApply)
  | query :: rest =>
      if setHas usedQueries query
      then collectFilters indexFieldPositions rest usedQueries filtersToApply else
      let fieldName := dbQueryToDottedField query in
      match indexFieldPositions !! fieldName with
      | None => collectFilters indexFieldPositions rest usedQueries filtersToApply
      | Some fieldPositionInIndex =>
          collectFilters indexFieldPositions rest (setAdd usedQueries query)
            (filtersToApply ++ [(getFilterStatement query, fieldPositionInIndex)])
      end
  end.

(** [key[fieldPositionInIndex] === undefinedSymbol ? undefined :
    key[fieldPositionInIndex]]; reading past the end of the key gives
    [undefined]. *)
Definition keyValue (key : list JsValue) (fieldPositionInIndex : nat) : JsValue :=
  let v := default JUndefined (key !! fieldPositionInIndex) in
  if bool_decide (v = undefinedSymbol) then JUndefined else v.

(** The [for (const [filter, fieldPositionInIndex] of filtersToApply)] loop of
    the filter callback: [false] at the first filter that rejects its value. *)
Fixpoint passesFilters (shouldFilter : IDbFilterStatement → JsValue → bool)
    (filtersToApply : list (IDbFilterStatement * nat)) (key : list JsValue) : bool :=
  match filtersToApply with
  | [] => true
  | (statement, fieldPositionInIndex) :: rest =>
      if negb (shouldFilter statement (keyValue key fieldPositionInIndex))
      then false
      else passesFilters shouldFilter rest key
  end.

(** The variables that the filter callback closes over: [items], [shown], and
    the diagnostic messages written so far, each recorded by the index name it
    mentions (the time it also mentions is left out). *)
Record NarrowState := {
  items : Z;
  shown : bool;
  messages : list JsValue
}.

(** [if (!shown && items++ > 5000) { shown = true; console.log(...) }] *)
Definition countItem (indexName : JsValue) (st : NarrowState) : NarrowState :=
  if shown st then st else
  if bool_decide (5000 < items st)
  then {| items := items st + 1; shown := true;
          messages := messages st ++ [indexName] |}
  else {| items := items st + 1; shown := false; messages := messages st |}.

(** Modelled from the spec: [filter] of the [GatsbyIterable] of
    [../../common/iterable], a module whose source is missing here: it calls
    the callback on every entry in turn and keeps the entries it accepts.
    The callback is the one of [narrowResultsIfPossible]. *)
Fixpoint narrowEntries (shouldFilter : IDbFilterStatement → JsValue → bool)
    (indexName : JsValue) (filtersToApply : list (IDbFilterStatement * nat))
    (result : list IIndexEntry) (st : NarrowState)
  : list IIndexEntry * NarrowState :=
  match result with
  | [] => ([], st)
  | entry :: rest =>
      let st1 := countItem indexName st in
      let '(kept, st2) := narrowEntries shouldFilter indexName filtersToApply rest st1 in
      (if passesFilters shouldFilter filtersToApply (key entry)
       then entry :: kept else kept, st2)
  end.

Record NarrowResult := {
  narrowedUsed : QuerySet;
  narrowedEntries : list IIndexEntry;
  narrowedMessages : list JsValue
}.

(** [shouldFilter] belongs to [./common], a module whose source is missing
    here, and is taken as it comes.  [result] is what the iterable passed in
    drains to.  [indexFields] is the object whose properties are the fields
    of the index, added in the order of the list. *)
Definition narrowResultsIfPossible
    (shouldFilter : IDbFilterStatement → JsValue → bool)
    (result : list IIndexEntry) (indexName : JsValue) (indexFields : IndexFields)
    (dbQueries : list DbQuery) (usedQueries : QuerySet) : NarrowResult :=
  let indexFieldPositions := setPositions (objectKeys indexFields) 0 ∅ in
  let '(usedQueries, filtersToApply) :=
    collectFilters indexFieldPositions dbQueries usedQueries [] in
  if bool_decide (length filtersToApply = 0%nat)
  then {| narrowedUsed := usedQueries; narrowedEntries := result;
          narrowedMessages := [] |}
  else
    let '(kept, st) :=
      narrowEntries shouldFilter indexName filtersToApply result
        {| items := 0; shown := false; messages := [] |} in
    {| narrowedUsed := usedQueries; narrowedEntries := kept;
       narrowedMessages := messages st |}.

(** ** Ordering entries by the end of their keys *)

(** [arr.slice(start)]: a negative [start] counts from the end of the array. *)
Definition arraySlice {A} (arr : list A) (start : Z) : list A :=
  let len := Z.of_nat (length arr) in
  let from := if bool_decide (start < 0) then Z.max (len + start) 0
              else Z.min start len in
  drop (Z.to_nat from) arr.

(** [compareKey] belongs to the engine and is taken as it comes. *)
Definition compareByKeySuffix (compareKey : list JsValue → list JsValue → Z)
    (prefixLength : Z) (a b : IIndexEntry) : Z :=
  let aSuffix := arraySlice (key a) (prefixLength - 1) in
  let bSuffix := arraySlice (key b) (prefixLength - 1) in
  compareKey aSuffix bSuffix.

(** * Vocabulary of the properties *)

(** The operand of an [EQ] or [IN] clause as the list of its values: the
    elements of an array, or the operand alone ([arr] in [extractRanges]). *)
Definition operandValues (statement : IDbFilterStatement) : list JsValue :=
  match value statement with
  | JArray items => items
  | single => [single]
  end.

(** A value that [toIndexFieldValue] lets through: [null] or not an object. *)
Definition scalar (v : JsValue) : Prop := isNonNullObject v = false.

(** The starts pushed for a list of operand values: the values, then the
    undefined marker if one of them is [null]. *)
Definition matchedValues (values : list JsValue) : list JsValue :=
  values ++ (if bool_decide (JNull ∈ values) then [undefinedSymbol] else []).

(** A range with both its boundaries. *)
Definition boundedRange (bounds : list JsValue * list JsValue) : IIndexRange :=
  {| rangeStart := bounds.1; rangeEnd := Some bounds.2 |}.

(** [stable I m]: running [m] from a state that satisfies [I] ends, whether by
    a return or by a throw, in a state that satisfies [I]. *)
Definition stable {A} (I : ExtractState → Prop) (m : Extract A) : Prop :=
  ∀ st, I st → I (m st).2.

(** A start and its ending are pushed together. *)
Definition inStep (st : ExtractState) : Prop :=
  length (rangeStarts st) = length (rangeEndings st).

(** The used clauses are distinct clauses of [fieldQueries]. *)
Definition usedWithin (fieldQueries : list DbQuery) (st : ExtractState) : Prop :=
  NoDup (used st) ∧ used st ⊆ fieldQueries.

(** What [m] returns, when it returns, is the state it ends in. *)
Definition returnsState (m : Extract ExtractState) : Prop :=
  ∀ st r st', m st = (Returned r, st') → r = st'.

(** The clauses that [getQueriesThatCanUseIndex] keeps. *)
Definition usable (q : DbQuery) : Prop :=
  comparator (getFilterStatement q) ∈ canUseIndex.

(** One step of [cartesianProduct]: every tuple extended by every element. *)
Definition extendTuples {A} (acc : list (list A)) (b : list A) : list (list A) :=
  d ← acc; (λ e, d ++ [e]) <$> b.

(** The product of the lengths of the lists. *)
Definition lengthsProduct {A} (lists : list (list A)) : nat :=
  foldr (λ l n, (length l * n)%nat) 1%nat lists.

(** Two lists of lists of pairwise equal lengths. *)
Definition sameLengths {A} (xs ys : list (list A)) : Prop :=
  Forall2 (λ s e, length s = length e) xs ys.

(** [extractRanges] returns at least one range start for the field. *)
Definition constrains (queries : list DbQuery) (field : string) : Prop :=
  ∃ r, (extractRanges queries field).1 = Returned r ∧ rangeStarts r ≠ [].

(** The first clause of a list with a given comparator. *)
Definition firstWith (cmp : DbComparator) (queries : list DbQuery) : option DbQuery :=
  head (filter (λ q, comparator (getFilterStatement q) = cmp) queries).

(** The value [findRangeEdge] hands back for [v], by the edge asked for. *)
Definition edgeOf (edge : ValueEdges) (v : JsValue) : JsValue :=
  match edge with
  | NONE => v
  | BEFORE => getValueEdgeBefore v
  | AFTER => getValueEdgeAfter v
  end.

(** The state with one more used clause. *)
Definition markUsed (st : ExtractState) (q : DbQuery) : ExtractState :=
  {| rangeStarts := rangeStarts st; rangeEndings := rangeEndings st;
     used := used st ++ [q] |}.

(** The ending a [GT]/[GTE] anchor on the value [v] takes from the other
    clauses on its field, with the clause it marks used. *)
Definition upperBound (v : JsValue) (others : list DbQuery) : JsValue * list DbQuery :=
  let rangeTail := if bool_decide (v = JNull)
                   then getValueEdgeAfter JNull else BinaryInfinityPositive in
  match firstWith LTE others with
  | Some lte => (getValueEdgeAfter (value (getFilterStatement lte)), [lte])
  | None =>
      match firstWith LT others with
      | Some lt => (nullishCoalesce (value (getFilterStatement lt)) rangeTail, [lt])
      | None => (rangeTail, [])
      end
  end.

(** The start an [LT]/[LTE] anchor on the value [v] takes from the other
    clauses on its field, with the clauses it marks used. *)
Definition lowerBound (v : JsValue) (others : list DbQuery) : JsValue * list DbQuery :=
  let rangeHead := if bool_decide (v = JNull)
                   then BinaryInfinityNegative
                   else getValueEdgeAfter undefinedSymbol in
  match firstWith GTE others, firstWith GT others with
  | Some gte, after =>
      if isNullish (value (getFilterStatement gte))
      then match after with
           | Some gt => (getValueEdgeAfter (value (getFilterStatement gt)), [gte; gt])
           | None => (rangeHead, [gte])
           end
      else (value (getFilterStatement gte), [gte])
  | None, Some gt => (getValueEdgeAfter (value (getFilterStatement gt)), [gt])
  | None, None => (rangeHead, [])
  end.

(** Every clause of the list has a scalar operand. *)
Definition scalarOperands (queries : list DbQuery) : Prop :=
  Forall (λ q, scalar (value (getFilterStatement q))) queries.

(** [kept] holds, in the order of [source], exactly the entries of [source]
    that no earlier entry shares its key with. *)
Definition keepsFirst {A} (keyFn : A → Outcome JsValue) (source kept : list A)
  : Prop :=
  sublist kept source
  ∧ NoDup (keyFn <$> kept)
  ∧ ∀ i e, source !! i = Some e →
      (∀ j e', (j < i)%nat → source !! j = Some e' → keyFn e' ≠ keyFn e) →
      e ∈ kept.

(** The sum of a list of counts. *)
Definition sumZ (l : list Z) : Z := foldr Z.add 0 l.

(** The position of a comparator in [canUseIndex]. *)
Definition specificity (c : DbComparator) : nat :=
  match c with
  | EQ => 0 | IN => 1 | GTE => 2 | LTE => 3 | GT => 4 | LT => 5
  | NE | NIN => 6
  end.

(** [a] does not come after [b] in the order of [canUseIndex]. *)
Definition bySpecificity (a b : DbQuery) : Prop :=
  (specificity (comparator (getFilterStatement a))
   ≤ specificity (comparator (getFilterStatement b)))%nat.

(** An [EQ] or [IN] clause whose operand is the empty array. *)
Definition emptyOperand (q : DbQuery) : Prop :=
  (comparator (getFilterStatement q) = EQ ∨ comparator (getFilterStatement q) = IN)
  ∧ value (getFilterStatement q) = JArray [].

(** [m] does not return without a range start in [rangeStarts]. *)
Definition pushes {A} (m : Extract A) : Prop :=
  ∀ st a st', m st = (Returned a, st') → rangeStarts st' ≠ [].

(** The locals of [extractRanges] when only the first clause on the field has
    been marked used. *)
Definition anchorOnly (anchor : DbQuery) : ExtractState :=
  {| rangeStarts := []; rangeEndings := []; used := [anchor] |}.

(** The range object that scans one planned range under the key prefix of the
    index: backward, from the upper boundary, when the context asks for a
    reverse scan. *)
Definition prefixedRequest (context : IFilterContext) (limit1 : option JsNumber)
    (offset1 : Z) (bounds : list JsValue * list JsValue) : RangeOptions :=
  let lower := keyPrefix (indexMetadata context) :: bounds.1 in
  let upper := keyPrefix (indexMetadata context) :: bounds.2 in
  {| optStart := if reverse context then upper else lower;
     optEnd := if reverse context then lower else upper;
     optLimit := limit1;
     optOffset := Some offset1;
     optReverse := reverse context;
     optSnapshot := false |}.

(** How [filterUsingIndex] ends once it has scanned: with the scan result if
    the plan uses as many clauses as the query has, with what the narrowing
    call gives otherwise. *)
Definition settle
    (narrow : IFilterContext → ScanResult → QuerySet → Outcome (QuerySet * ScanResult))
    (context : IFilterContext) (plan : Plan) (result : ScanResult)
  : Outcome (QuerySet * ScanResult) :=
  if bool_decide (length (usedQueries plan) = length (dbQueries context))
  then Returned (usedQueries plan, result)
  else narrow context result (usedQueries plan).

(** The clause is left over by the plan and addresses a field of the index:
    [narrowResultsIfPossible] turns it into a filter. *)
Definition narrowable (indexFields : IndexFields) (usedQueries : QuerySet)
    (q : DbQuery) : Prop :=
  dbQueryToDottedField q ∈ keys indexFields ∧ q ∉ usedQueries.

(** An operand that the extractor accepts: scalars for [EQ], an array of
    scalars for [EQ] and [IN], one scalar for the range comparators. *)
Definition wellFormed (q : DbQuery) : Prop :=
  match comparator (getFilterStatement q) with
  | EQ => Forall scalar (operandValues (getFilterStatement q))
  | IN => isArray (value (getFilterStatement q)) = true
          ∧ Forall scalar (operandValues (getFilterStatement q))
  | _ => scalar (value (getFilterStatement q))
  end.

(** The key of the entry ends with a document identifier: a number or a
    string. *)
Definition identified (entry : IIndexEntry) : Prop :=
  ∃ front id, key entry = front ++ [id]
              ∧ (typeof id = TNumber ∨ typeof id = TString).

(** [kept] holds, in the order of [source], exactly the entries of [source]
    that no earlier entry shares the last component of its key with. *)
Definition firstOfEachIdentifier (source kept : list IIndexEntry) : Prop :=
  sublist kept source
  ∧ NoDup ((λ entry, last (key entry)) <$> kept)
  ∧ ∀ i entry, source !! i = Some entry →
      (∀ j earlier, (j < i)%nat → source !! j = Some earlier →
                    last (key earlier) ≠ last (key entry)) →
      entry ∈ kept.

(** * Sample queries *)

(** [clause ref field c v] is the clause object [ref], applying [c] with the
    operand [v] to [field]. *)
Definition clause (ref : nat) (field : string) (c : DbComparator) (v : JsValue) : DbQuery :=
  {| queryRef := ref; queryField := field;
     queryFilter := {| comparator := c; value := v |} |}.

(** [{age: {gte: 18}}] and [{age: {lt: 65}}] on an index of [age]. *)
Definition ageQueries : list DbQuery :=
  [clause 0 "age" GTE (JNum 18); clause 1 "age" LT (JNum 65)].

Definition ageIndex : IndexFields := [("age", 1)].

(** Clauses on [a] and [c] for an index of [a], [b], [c]. *)
Definition gapQueries : list DbQuery :=
  [clause 0 "a" EQ (JStr "x"); clause 1 "c" EQ (JNum 3)].

Definition gapIndex : IndexFields := [("a", 1); ("b", 1); ("c", 1)].

(** [{a: {gte: 1}}] and [{a: {lt: null}}] on an index of [a]. *)
Definition nullBoundQueries : list DbQuery :=
  [clause 0 "a" GTE (JNum 1); clause 1 "a" LT JNull].

(** [{a: {in: [1, 2]}}] and [{b: {eq: null}}] for an index of [a], [b],
    [c]. *)
Definition productQueries : list DbQuery :=
  [clause 0 "a" IN (JArray [JNum 1; JNum 2]); clause 1 "b" EQ JNull].

(** [{a: {in: [1, 2]}}] on an index of [a]. *)
Definition twoValueQueries : list DbQuery :=
  [clause 0 "a" IN (JArray [JNum 1; JNum 2])].

Definition aIndex : IndexFields := [("a", 1)].

Definition sampleMetadata : IIndexMetadata :=
  {| keyPrefix := JStr "idx"; maxKeysPerItem := 1 |}.

(** A scan with an offset of 5 and no limit. *)
Definition offsetContext (engine : Engine) : IFilterContext :=
  {| indexes := engine; dbQueries := twoValueQueries; indexFields := aIndex;
     indexMetadata := sampleMetadata;
     limit := None; offset := Some 5; reverse := false |}.

(** The two ranges of [{a: {in: [1, 2]}}]. *)
Definition twoValueRanges : list IIndexRange :=
  [boundedRange ([JNum 1], [getValueEdgeAfter (JNum 1)]);
   boundedRange ([JNum 2], [getValueEdgeAfter (JNum 2)])].

(** An engine whose scans find three entries, the first and the last of one
    document, and whose counts are all 2. *)
Definition sampleEngine : Engine :=
  {| getRange := λ range,
       [ {| key := optStart range ++ [JStr "n1"]; entryValue := "n1" |};
         {| key := optStart range ++ [JStr "n2"]; entryValue := "n2" |};
         {| key := optEnd range ++ [JStr "n1"]; entryValue := "n1" |} ];
     getKeysCount := λ _, 2 |}.

(** A multi-key index scanned with a limit of 10. *)
Definition multiKeyContext : IFilterContext :=
  {| indexes := sampleEngine; dbQueries := twoValueQueries; indexFields := aIndex;
     indexMetadata := {| keyPrefix := JStr "idx"; maxKeysPerItem := 3 |};
     limit := Some 10; offset := None; reverse := false |}.

(** A query without clauses, to be scanned in reverse. *)
Definition reverseContext (engine : Engine) : IFilterContext :=
  {| indexes := engine; dbQueries := []; indexFields := aIndex;
     indexMetadata := sampleMetadata;
     limit := None; offset := None; reverse := true |}.

(** The count of [{age: {gte: 18}}] and [{age: {lt: 65}}]. *)
Definition countContext : IFilterContext :=
  {| indexes := sampleEngine; dbQueries := ageQueries; indexFields := ageIndex;
     indexMetadata := sampleMetadata;
     limit := None; offset := None; reverse := false |}.

(** An engine with two documents in each part of a partition: a scan finds
    the documents 1 and 2 below the undefined marker and the documents 3 and 4
    above it, and a reverse scan finds them in the opposite order. *)
Definition orderedEngine : Engine :=
  {| getRange := λ range,
       let lower := if optReverse range then optEnd range else optStart range in
       let first := if bool_decide (lower !! 1%nat = Some JNull) then 1 else 3 in
       let found :=
         [ {| key := lower ++ [JNum first]; entryValue := "first" |};
           {| key := lower ++ [JNum (first + 1)]; entryValue := "second" |} ] in
       if optReverse range then list.reverse found else found;
     getKeysCount := λ _, 2 |}.

(** The index of [foo] and [bar] with the clause [{bar: {eq: "test"}}], which
    no range can use. *)
Definition fooBarIndex : IndexFields := [("foo", 1); ("bar", 1)].

Definition barQueries : list DbQuery := [clause 0 "bar" EQ (JStr "test")].

(** Two scanned entries of that index, and one of a shorter key. *)
Definition fooBarEntries : list IIndexEntry :=
  [ {| key := [JStr "idx"; JNum 1; JStr "test"; JStr "n1"]; entryValue := "n1" |};
    {| key := [JStr "idx"; JNum 2; JStr "other"; JStr "n2"]; entryValue := "n2" |};
    {| key := [JStr "idx"; JNum 3]; entryValue := "n3" |} ].

(** The index fields [{b: 1, "1": 1}] with the clause [{"1": {eq: "x"}}]. *)
Definition oneBIndex : IndexFields := [("b", 1); ("1", 1)].

Definition oneQueries : list DbQuery := [clause 0 "1" EQ (JStr "x")].

(** Two entries of that index: the operand of the clause is the third key
    component of the first one and the second key component of the other. *)
Definition oneBEntries : list IIndexEntry :=
  [ {| key := [JStr "idx"; JStr "y"; JStr "x"; JStr "n1"]; entryValue := "n1" |};
    {| key := [JStr "idx"; JStr "x"; JStr "y"; JStr "n2"]; entryValue := "n2" |} ].

(** A stand-in for [shouldFilter] that accepts the values equal to the
    operand. *)
Definition acceptEqual (statement : IDbFilterStatement) (v : JsValue) : bool :=
  bool_decide (value statement = v).

(** * Properties *)

(** ** Running the extractor monad *)

Lemma Extract_bind_run {A B} (m : Extract A) (f : A → Extract B) st :
  (m ≫= f) st =
  match m st with
  | (Returned a, st') => f a st'
  | (Thrown e, st') => (Thrown e, st')
  end.
Proof. reflexivity. Qed.

(** ** Invariants of the extractor's state *)

Section Stable.
Context (I : ExtractState → Prop).

Lemma stable_ret {A} (a : A) : stable I (mret a).
Proof. intros st H. exact H. Qed.

Lemma stable_throw {A} e : stable I (@throw A e).
Proof. intros st H. exact H. Qed.

Lemma stable_lift {A} (o : Outcome A) : stable I (liftOutcome o).
Proof. intros st H. exact H. Qed.

Lemma stable_getState : stable I getState.
Proof. intros st H. exact H. Qed.

Lemma stable_getUsed : stable I getUsed.
Proof. intros st H. exact H. Qed.

Lemma stable_bind {A B} (m : Extract A) (f : A → Extract B) :
  stable I m → (∀ a, stable I (f a)) → stable I (m ≫= f).
Proof.
  intros Hm Hf st H. rewrite Extract_bind_run.
  specialize (Hm st H). destruct (m st) as [[a|e] st']; simpl in *.
  - apply Hf, Hm.
  - exact Hm.
Qed.

Lemma stable_if {A} (b : bool) (m1 m2 : Extract A) :
  stable I m1 → stable I m2 → stable I (if b then m1 else m2).
Proof. destruct b; auto. Qed.

End Stable.

Create HintDb stable discriminated.

#[local] Hint Resolve stable_ret stable_throw stable_lift stable_getState
  stable_getUsed : stable.

(** Walks through the binds and branches of a body; the steps that touch the
    state are left to [leaf] and to the hints. *)
Ltac stable_walk_with leaf :=
  repeat first
    [ leaf
    | solve [auto with stable]
    | apply stable_if
    | apply stable_bind; [|intros ?] ].

Ltac stable_walk := stable_walk_with fail.

(** *** Starts and endings are pushed together *)

Lemma stable_push_pair {A} (s e : JsValue) (k : Extract A) :
  stable inStep k → stable inStep (pushStart s;; pushEnding e;; k).
Proof.
  intros Hk st H. apply Hk. unfold inStep in *. simpl.
  rewrite !length_app, H. reflexivity.
Qed.

Lemma stable_push_both (s e : JsValue) :
  stable inStep (pushStart s;; pushEnding e).
Proof.
  intros st H. unfold inStep in *. simpl. rewrite !length_app, H. reflexivity.
Qed.

Lemma stable_inStep_usedAdd q : stable inStep (usedAdd q).
Proof. intros st H. exact H. Qed.

#[local] Hint Resolve stable_push_both stable_inStep_usedAdd : stable.

Lemma stable_inStep_findRangeEdge queries cmp edge :
  stable inStep (findRangeEdge queries cmp edge).
Proof. induction queries as [|dbQuery rest IH]; simpl; stable_walk. Qed.

Lemma stable_inStep_pushValues statement arr hasNull :
  stable inStep (pushValues statement arr hasNull).
Proof.
  revert hasNull. induction arr as [|item rest IH]; intros hasNull; simpl.
  - apply stable_ret.
  - apply stable_bind; [apply stable_lift|]. intros v.
    apply stable_push_pair, IH.
Qed.

#[local] Hint Resolve stable_inStep_findRangeEdge stable_inStep_pushValues : stable.

Lemma stable_inStep_equalityCase statement : stable inStep (equalityCase statement).
Proof. unfold equalityCase. stable_walk. Qed.

Lemma stable_inStep_upperAnchorCase fieldQueries statement :
  stable inStep (upperAnchorCase fieldQueries statement).
Proof. unfold upperAnchorCase. stable_walk. Qed.

Lemma stable_inStep_lowerAnchorCase fieldQueries statement :
  stable inStep (lowerAnchorCase fieldQueries statement).
Proof. unfold lowerAnchorCase. stable_walk. Qed.

#[local] Hint Resolve stable_inStep_equalityCase stable_inStep_upperAnchorCase
  stable_inStep_lowerAnchorCase : stable.

Lemma stable_inStep_extractRangesBody queries indexField :
  stable inStep (extractRangesBody queries indexField).
Proof.
  unfold extractRangesBody.
  destruct (filter _ queries) as [|best fieldQueries]; [apply stable_getState|].
  apply stable_bind; [apply stable_inStep_usedAdd|intros _].
  apply stable_if; [apply stable_throw|].
  apply stable_bind; [|intros _; apply stable_getState].
  destruct (comparator (getFilterStatement best)); auto with stable.
Qed.

(** *** The clauses an extraction marks used *)

Lemma setAdd_NoDup s q : NoDup s → NoDup (setAdd s q).
Proof.
  intros H. unfold setAdd, setHas. case_bool_decide; [exact H|].
  apply NoDup_app. split; [exact H|]. split.
  - intros x Hx Hq. apply list_elem_of_singleton in Hq. subst. contradiction.
  - apply NoDup_singleton.
Qed.

Lemma elem_of_setAdd s q x : x ∈ setAdd s q ↔ x ∈ s ∨ x = q.
Proof.
  unfold setAdd, setHas. case_bool_decide.
  - split; [auto|]. intros [?| ->]; assumption.
  - rewrite elem_of_app, list_elem_of_singleton. reflexivity.
Qed.

Lemma stable_usedWithin_usedAdd fq q : q ∈ fq → stable (usedWithin fq) (usedAdd q).
Proof.
  intros Hq st [Hnd Hsub]. split; simpl.
  - apply setAdd_NoDup, Hnd.
  - intros x Hx. apply elem_of_setAdd in Hx as [Hx| ->]; auto.
Qed.

Lemma stable_usedWithin_pushStart fq v : stable (usedWithin fq) (pushStart v).
Proof. intros st H. exact H. Qed.

Lemma stable_usedWithin_pushEnding fq v : stable (usedWithin fq) (pushEnding v).
Proof. intros st H. exact H. Qed.

#[local] Hint Resolve stable_usedWithin_usedAdd stable_usedWithin_pushStart
  stable_usedWithin_pushEnding : stable.

Lemma stable_usedWithin_findRangeEdge fq queries cmp edge :
  queries ⊆ fq → stable (usedWithin fq) (findRangeEdge queries cmp edge).
Proof.
  induction queries as [|dbQuery rest IH]; intros Hsub; simpl.
  - apply stable_ret.
  - assert (rest ⊆ fq) by (intros x Hx; apply Hsub; right; exact Hx).
    assert (dbQuery ∈ fq) by (apply Hsub; left).
    stable_walk.
Qed.

Lemma stable_usedWithin_pushValues fq statement arr hasNull :
  stable (usedWithin fq) (pushValues statement arr hasNull).
Proof.
  revert hasNull. induction arr as [|item rest IH]; intros hasNull; simpl;
    stable_walk.
Qed.

Lemma stable_usedWithin_extractRangesBody queries indexField :
  stable (usedWithin (filter (λ q, dbQueryToDottedField q = indexField) queries))
         (extractRangesBody queries indexField).
Proof.
  unfold extractRangesBody, equalityCase, upperAnchorCase, lowerAnchorCase.
  destruct (filter _ queries) as [|best fieldQueries] eqn:E; [apply stable_getState|].
  assert (best ∈ best :: fieldQueries) by left.
  destruct (comparator (getFilterStatement best));
    stable_walk_with
      ltac:(first [ apply stable_usedWithin_findRangeEdge; reflexivity
                  | apply stable_usedWithin_pushValues ]).
Qed.

(** *** What a returning extraction hands back *)

Lemma returnsState_getState : returnsState getState.
Proof. intros st r st' [= <- <-]. reflexivity. Qed.

Lemma returnsState_throw e : returnsState (throw e).
Proof. intros st r st' [=]. Qed.

Lemma returnsState_bind {A} (m : Extract A) f :
  (∀ a, returnsState (f a)) → returnsState (m ≫= f).
Proof.
  intros Hf st r st'. rewrite Extract_bind_run.
  destruct (m st) as [[a|e] st1]; [apply Hf|intros [=]].
Qed.

Lemma returnsState_if (b : bool) m1 m2 :
  returnsState m1 → returnsState m2 → returnsState (if b then m1 else m2).
Proof. destruct b; auto. Qed.

Lemma returnsState_extractRangesBody queries indexField :
  returnsState (extractRangesBody queries indexField).
Proof.
  unfold extractRangesBody.
  destruct (filter _ queries) as [|best fieldQueries]; [apply returnsState_getState|].
  apply returnsState_bind; intros _.
  apply returnsState_if; [apply returnsState_throw|].
  apply returnsState_bind; intros _. apply returnsState_getState.
Qed.

(** *** The three facts, for a call of [extractRanges] *)

Lemma extractRanges_inStep queries indexField :
  inStep (extractRanges queries indexField).2.
Proof. apply stable_inStep_extractRangesBody. reflexivity. Qed.

Lemma extractRanges_usedWithin queries indexField :
  usedWithin (filter (λ q, dbQueryToDottedField q = indexField) queries)
             (extractRanges queries indexField).2.
Proof.
  apply stable_usedWithin_extractRangesBody. split; simpl.
  - apply NoDup_nil_2.
  - intros x Hx. inversion Hx.
Qed.

Lemma extractRanges_returned queries indexField r :
  (extractRanges queries indexField).1 = Returned r →
  r = (extractRanges queries indexField).2.
Proof.
  unfold extractRanges. intros H.
  destruct (extractRangesBody queries indexField emptyExtract) as [o st] eqn:E.
  simpl in *. subst o. eapply returnsState_extractRangesBody, E.
Qed.

(** ** The classifier always answers *)

Lemma firstOfPair_returns comparators a b :
  a ∈ comparators → ∃ z, firstOfPair comparators a b = Returned z.
Proof.
  induction comparators as [|c rest IH]; intros Ha; [inversion Ha|].
  simpl. case_bool_decide; [eauto|]. case_bool_decide; [eauto|].
  apply IH. apply elem_of_cons in Ha as [->|Ha]; [contradiction|exact Ha].
Qed.

Lemma sortByFilterSpecificity_returns a b :
  usable a → ∃ z, sortByFilterSpecificity a b = Returned z.
Proof.
  intros Ha. unfold sortByFilterSpecificity. case_bool_decide; [eauto|].
  apply firstOfPair_returns, Ha.
Qed.

Lemma insertSorted_returns x sorted :
  usable x →
  ∃ l, insertSorted sortByFilterSpecificity x sorted = Returned l ∧ l ≡ₚ x :: sorted.
Proof.
  intros Hx. induction sorted as [|y rest IH]; simpl; [eauto|].
  destruct (sortByFilterSpecificity_returns x y Hx) as [z ->]. simpl.
  case_bool_decide; [eauto|].
  destruct IH as (l & -> & Hl). simpl. eexists; split; [reflexivity|].
  rewrite Hl. apply Permutation_swap.
Qed.

Lemma arraySort_returns arr :
  Forall usable arr →
  ∃ l, arraySort sortByFilterSpecificity arr = Returned l ∧ l ≡ₚ arr.
Proof.
  induction 1 as [|x rest Hx _ IH]; simpl; [eauto|].
  destruct IH as (sorted & -> & Hs). simpl.
  destruct (insertSorted_returns x sorted Hx) as (l & -> & Hl).
  eexists; split; [reflexivity|]. rewrite Hl, Hs. reflexivity.
Qed.

Lemma getQueriesThatCanUseIndex_returns all :
  ∃ queries, getQueriesThatCanUseIndex all = Returned queries
             ∧ queries ≡ₚ filter usable all.
Proof.
  unfold getQueriesThatCanUseIndex. apply arraySort_returns.
  apply Forall_forall. intros x Hx. apply list_elem_of_filter in Hx. tauto.
Qed.

Lemma getQueriesThatCanUseIndex_subset all queries :
  getQueriesThatCanUseIndex all = Returned queries → queries ⊆ all.
Proof.
  intros H. destruct (getQueriesThatCanUseIndex_returns all) as (l & Hl & Hp).
  rewrite H in Hl. injection Hl as <-. intros x Hx. rewrite Hp in Hx.
  apply list_elem_of_filter in Hx. tauto.
Qed.

(** *** The order of the classified clauses *)

Lemma sortByFilterSpecificity_sign a b :
  usable a → usable b →
  ∃ z, sortByFilterSpecificity a b = Returned z
       ∧ (z ≤ 0 ↔ bySpecificity a b)
       ∧ (0 < z → bySpecificity b a).
Proof.
  unfold usable, sortByFilterSpecificity, bySpecificity.
  intros Ha Hb.
  apply (bool_decide_eq_true_2 _) in Ha. apply (bool_decide_eq_true_2 _) in Hb.
  revert Ha Hb.
  destruct (comparator (getFilterStatement a)), (comparator (getFilterStatement b));
    try discriminate; intros _ _;
    simpl; eexists; (split; [reflexivity|]); simpl; (split; [split|]); lia.
Qed.

Lemma insertSorted_sorted x sorted l :
  usable x → Forall usable sorted →
  Sorted bySpecificity sorted →
  insertSorted sortByFilterSpecificity x sorted = Returned l →
  Sorted bySpecificity l.
Proof.
  intros Hx Hall Hsorted. revert l.
  induction Hsorted as [|y rest Hrest IH Hhd]; intros l; simpl.
  - intros [= <-]. repeat constructor.
  - apply Forall_cons in Hall as [Hy Hall].
    destruct (sortByFilterSpecificity_sign x y Hx Hy) as (z & -> & Hle & Hgt).
    simpl. case_bool_decide as Hz.
    + intros [= <-]. constructor; [constructor; assumption|].
      constructor. apply Hle, Hz.
    + destruct (insertSorted sortByFilterSpecificity x rest) as [l'|] eqn:El';
        simpl; [|discriminate].
      intros [= <-]. constructor; [apply IH; auto|].
      assert (bySpecificity y x) as Hyx by (apply Hgt; lia).
      destruct rest as [|w rest'].
      * simpl in El'. injection El' as <-. constructor. exact Hyx.
      * simpl in El'.
        destruct (sortByFilterSpecificity x w) as [c|]; simpl in El'; [|discriminate].
        case_bool_decide.
        -- injection El' as <-. constructor. exact Hyx.
        -- destruct (insertSorted sortByFilterSpecificity x rest');
             simpl in El'; [|discriminate].
           injection El' as <-. constructor. inversion Hhd. assumption.
Qed.

Lemma arraySort_sorted arr l :
  Forall usable arr →
  arraySort sortByFilterSpecificity arr = Returned l →
  Sorted bySpecificity l ∧ Forall usable l.
Proof.
  intros Hall. revert l. induction Hall as [|x rest Hx Hrest IH]; simpl.
  - intros l [= <-]. split; constructor.
  - intros l. destruct (arraySort sortByFilterSpecificity rest) as [sorted|];
      simpl; [|discriminate].
    destruct (IH sorted eq_refl) as [Hs Hu]. intros Hl. split.
    + eapply insertSorted_sorted; eauto.
    + destruct (insertSorted_returns x sorted Hx) as (l' & Hl' & Hp).
      rewrite Hl in Hl'. injection Hl' as <-. rewrite Hp. constructor; assumption.
Qed.

(** [getQueriesThatCanUseIndex] returns, whatever the clauses, the clauses
    whose comparator is in [canUseIndex], each as often as it is given, in the
    order of [canUseIndex]: equality before membership before the range
    comparators. *)
Theorem classified_by_specificity (all : list DbQuery) :
  ∃ queries,
    getQueriesThatCanUseIndex all = Returned queries
    ∧ queries ≡ₚ filter usable all
    ∧ Sorted bySpecificity queries.
Proof.
  destruct (getQueriesThatCanUseIndex_returns all) as (queries & Hq & Hperm).
  exists queries. split; [exact Hq|]. split; [exact Hperm|].
  eapply (arraySort_sorted (filter usable all)); [|exact Hq].
  apply Forall_forall. intros y Hy. apply list_elem_of_filter in Hy. tauto.
Qed.

(** ** The cartesian product *)

Lemma length_extendTuples {A} (acc : list (list A)) b :
  length (extendTuples acc b) = (length acc * length b)%nat.
Proof.
  unfold extendTuples. induction acc as [|d acc IH]; [reflexivity|].
  change (length (((λ e, d ++ [e]) <$> b) ++ extendTuples acc b)
          = (length (d :: acc) * length b)%nat).
  rewrite length_app, length_fmap. unfold extendTuples. rewrite IH. simpl. lia.
Qed.

Lemma length_foldl_extendTuples {A} (lists : list (list A)) acc :
  length (foldl extendTuples acc lists) = (length acc * lengthsProduct lists)%nat.
Proof.
  revert acc. induction lists as [|b lists IH]; intros acc; simpl; [lia|].
  rewrite IH, length_extendTuples. lia.
Qed.

Lemma cartesianProduct_foldl {A} (lists : list (list A)) :
  cartesianProduct lists = foldl extendTuples [[]] lists.
Proof. reflexivity. Qed.

Lemma length_cartesianProduct {A} (lists : list (list A)) :
  length (cartesianProduct lists) = lengthsProduct lists.
Proof.
  rewrite cartesianProduct_foldl, length_foldl_extendTuples. simpl. lia.
Qed.

Lemma elem_of_extendTuples {A} (acc : list (list A)) b t :
  t ∈ extendTuples acc b ↔ ∃ d e, d ∈ acc ∧ e ∈ b ∧ t = d ++ [e].
Proof.
  unfold extendTuples. rewrite list_elem_of_bind. split.
  - intros (d & Ht & Hd). apply list_elem_of_fmap in Ht as (e & -> & He). eauto.
  - intros (d & e & Hd & He & ->). exists d. split; [|exact Hd].
    apply list_elem_of_fmap. eauto.
Qed.

Lemma elem_of_foldl_extendTuples {A} (lists : list (list A)) acc t :
  t ∈ foldl extendTuples acc lists ↔
  ∃ d rest, d ∈ acc ∧ t = d ++ rest ∧ Forall2 (λ x l, x ∈ l) rest lists.
Proof.
  revert acc. induction lists as [|b lists IH]; intros acc; simpl.
  - split.
    + intros Ht. exists t, []. rewrite app_nil_r. auto.
    + intros (d & rest & Hd & -> & Hr). inversion Hr. rewrite app_nil_r. exact Hd.
  - rewrite IH. split.
    + intros (d' & rest & Hd' & -> & Hr).
      apply elem_of_extendTuples in Hd' as (d & e & Hd & He & ->).
      exists d, (e :: rest). rewrite <- app_assoc. auto.
    + intros (d & rest & Hd & -> & Hr).
      inversion Hr as [|e b' rest' lists' He Hr']; subst.
      exists (d ++ [e]), rest'. rewrite <- app_assoc. split; [|auto].
      apply elem_of_extendTuples. eauto.
Qed.

(** A tuple belongs to the product exactly when it takes its [j]-th component
    in the [j]-th list. *)
Lemma elem_of_cartesianProduct {A} (lists : list (list A)) t :
  t ∈ cartesianProduct lists ↔ Forall2 (λ x l, x ∈ l) t lists.
Proof.
  rewrite cartesianProduct_foldl, elem_of_foldl_extendTuples. split.
  - intros (d & rest & Hd & -> & Hr).
    apply list_elem_of_singleton in Hd as ->. exact Hr.
  - intros Hr. exists [], t. split; [left|auto].
Qed.

Lemma cartesianProduct_tuple_length {A} (lists : list (list A)) t :
  t ∈ cartesianProduct lists → length t = length lists.
Proof.
  intros Ht. apply elem_of_cartesianProduct in Ht.
  eapply Forall2_length, Ht.
Qed.

Lemma lengthsProduct_sameLengths {A} (xs ys : list (list A)) :
  sameLengths xs ys → lengthsProduct xs = lengthsProduct ys.
Proof. induction 1 as [|s e xs ys H _ IH]; simpl; congruence. Qed.

(** ** The loop of the composer *)

Lemma foldl_setAdd_NoDup s l : NoDup s → NoDup (foldl setAdd s l).
Proof.
  revert s. induction l as [|x l IH]; intros s H; simpl; [exact H|].
  apply IH, setAdd_NoDup, H.
Qed.

Lemma elem_of_foldl_setAdd s l x : x ∈ foldl setAdd s l ↔ x ∈ s ∨ x ∈ l.
Proof.
  revert s. induction l as [|y l IH]; intros s; simpl.
  - split; [auto|]. intros [H|H]; [exact H|inversion H].
  - rewrite IH, elem_of_setAdd, elem_of_cons. tauto.
Qed.

(** An invariant of the accumulators that every completed iteration keeps
    holds of what the loop returns. *)
Lemma collectRanges_invariant (I : Collected → Prop) queries fields :
  (∀ acc field r,
      I acc → field ∈ fields →
      (extractRanges queries field).1 = Returned r →
      rangeStarts r ≠ [] → I (absorb acc r)) →
  ∀ acc c, I acc → collectRanges queries fields acc = Returned c → I c.
Proof.
  induction fields as [|field rest IH]; intros Hstep acc c Hacc; simpl.
  - intros [= <-]. exact Hacc.
  - destruct (extractRanges queries field).1 as [r|e] eqn:E; simpl; [|discriminate].
    case_bool_decide as Hlen.
    + intros [= <-]. exact Hacc.
    + apply IH.
      * intros acc' f r' Ha Hf. apply Hstep; [exact Ha|right; exact Hf].
      * apply (Hstep acc field r); [exact Hacc|left|exact E|].
        intros Hnil. apply Hlen. rewrite Hnil. reflexivity.
Qed.

Lemma collectRanges_sameLengths queries fields c :
  collectRanges queries fields emptyCollected = Returned c →
  sameLengths (collectedStarts c) (collectedEndings c).
Proof.
  apply (collectRanges_invariant
           (λ c, sameLengths (collectedStarts c) (collectedEndings c))).
  - intros acc field r Hacc _ Hr _. simpl. apply Forall2_app; [exact Hacc|].
    constructor; [|constructor].
    rewrite (extractRanges_returned _ _ _ Hr). apply extractRanges_inStep.
  - constructor.
Qed.

Lemma collectRanges_used queries fields c :
  collectRanges queries fields emptyCollected = Returned c →
  NoDup (collectedUsed c) ∧
  ∀ x, x ∈ collectedUsed c → x ∈ queries ∧ dbQueryToDottedField x ∈ fields.
Proof.
  apply (collectRanges_invariant
           (λ c, NoDup (collectedUsed c) ∧
                 ∀ x, x ∈ collectedUsed c →
                      x ∈ queries ∧ dbQueryToDottedField x ∈ fields)).
  - intros acc field r [Hnd Hin] Hf Hr _. simpl. split.
    + apply foldl_setAdd_NoDup, Hnd.
    + intros x Hx. apply elem_of_foldl_setAdd in Hx as [Hx|Hx]; [auto|].
      rewrite (extractRanges_returned _ _ _ Hr) in Hx.
      destruct (extractRanges_usedWithin queries field) as [_ Hsub].
      apply Hsub, list_elem_of_filter in Hx as [Hfield Hq].
      rewrite Hfield. auto.
  - split; [apply NoDup_nil_2|]. intros x Hx. inversion Hx.
Qed.

Lemma collectRanges_nothing queries fields c :
  collectRanges queries fields emptyCollected = Returned c →
  collectedStarts c = [] → c = emptyCollected.
Proof.
  intros H. cut (collectedStarts c ≠ [] ∨ c = emptyCollected).
  { intros [Hne| ->] Hs; [contradiction|reflexivity]. }
  revert H.
  apply (collectRanges_invariant (λ c, collectedStarts c ≠ [] ∨ c = emptyCollected)).
  - intros acc field r _ _ _ _. left. simpl.
    intros Happ. apply app_eq_nil in Happ as [_ [=]].
  - right. reflexivity.
Qed.

(** The loop breaks at a field without constraint: what follows it in the
    index is not looked at. *)
Lemma collectRanges_break queries before field after r acc :
  (extractRanges queries field).1 = Returned r →
  rangeStarts r = [] →
  collectRanges queries (before ++ field :: after) acc
  = collectRanges queries before acc.
Proof.
  intros Hr Hnil. revert acc.
  induction before as [|f before IH]; intros acc; simpl.
  - rewrite Hr. simpl. rewrite Hnil. simpl. reflexivity.
  - destruct (extractRanges queries f).1 as [r'|e]; simpl; [|reflexivity].
    case_bool_decide; [reflexivity|apply IH].
Qed.

Lemma collectRanges_constrained queries fields acc :
  Forall (constrains queries) fields →
  ∃ c, collectRanges queries fields acc = Returned c ∧
       length (collectedStarts c) = (length (collectedStarts acc) + length fields)%nat.
Proof.
  intros H. revert acc. induction H as [|f fields (r & Hr & Hne) _ IH]; intros acc.
  - exists acc. simpl. split; [reflexivity|lia].
  - simpl. rewrite Hr. simpl. case_bool_decide as Hlen.
    + destruct (rangeStarts r); [contradiction|discriminate].
    + destruct (IH (absorb acc r)) as (c & -> & Hc). exists c.
      split; [reflexivity|]. rewrite Hc. simpl. rewrite length_app. simpl. lia.
Qed.

Lemma getIndexRanges_eq dbQueries indexFields queries :
  getQueriesThatCanUseIndex dbQueries = Returned queries →
  getIndexRanges dbQueries indexFields =
  composeRanges <$> collectRanges queries (keys indexFields) emptyCollected.
Proof.
  intros H. unfold getIndexRanges. rewrite H. simpl.
  destruct (collectRanges _ _ _); reflexivity.
Qed.

(** ** The composed ranges *)

Lemma composeRanges_nothing c :
  collectedStarts c = [] →
  composeRanges c = {| usedQueries := collectedUsed c; ranges := [] |}.
Proof. intros H. unfold composeRanges. rewrite H. reflexivity. Qed.

Lemma composeRanges_lookup c i :
  collectedStarts c ≠ [] →
  ranges (composeRanges c) !! i =
  (λ start, {| rangeStart := start;
               rangeEnd := cartesianProduct (collectedEndings c) !! i |})
    <$> cartesianProduct (collectedStarts c) !! i.
Proof.
  intros H. unfold composeRanges. case_bool_decide as Hlen.
  - destruct (collectedStarts c); [contradiction|discriminate].
  - simpl. apply list_lookup_imap.
Qed.

Lemma composeRanges_length c :
  length (ranges (composeRanges c)) =
  if bool_decide (collectedStarts c = []) then 0%nat
  else lengthsProduct (collectedStarts c).
Proof.
  unfold composeRanges. destruct (decide (collectedStarts c = [])) as [E|E].
  - rewrite E. reflexivity.
  - rewrite (bool_decide_eq_false_2 _ E). case_bool_decide as Hlen.
    + destruct (collectedStarts c); [contradiction|discriminate].
    + simpl. rewrite length_imap. apply length_cartesianProduct.
Qed.

Lemma composeRanges_paired c i r :
  sameLengths (collectedStarts c) (collectedEndings c) →
  ranges (composeRanges c) !! i = Some r →
  ∃ ending,
    cartesianProduct (collectedStarts c) !! i = Some (rangeStart r) ∧
    cartesianProduct (collectedEndings c) !! i = Some ending ∧
    rangeEnd r = Some ending.
Proof.
  intros Hsame Hr.
  destruct (decide (collectedStarts c = [])) as [Hnil|Hne].
  { rewrite composeRanges_nothing in Hr by exact Hnil. inversion Hr. }
  rewrite composeRanges_lookup in Hr by exact Hne.
  destruct (cartesianProduct (collectedStarts c) !! i) as [start|] eqn:Es;
    [|discriminate].
  injection Hr as <-. simpl.
  assert (i < length (cartesianProduct (collectedEndings c)))%nat as Hi.
  { rewrite length_cartesianProduct, <- (lengthsProduct_sameLengths _ _ Hsame),
      <- length_cartesianProduct. eapply lookup_lt_Some, Es. }
  apply lookup_lt_is_Some in Hi as [ending He]. exists ending. auto.
Qed.

(** ** Lock-step pairing of starts and endings *)

(** C10: whatever the clauses and the field, [extractRanges] ends with as many
    range starts as range endings, and what it returns is that final state;
    so the per-field lists collected by [getIndexRanges] have pairwise equal
    lengths, the two cartesian products have the same number of tuples, and
    every composed range holds the start and the ending found at one and the
    same position of the two products: no ending is read out of bounds. *)
Theorem lockstep_pairing (dbQueries : list DbQuery) (indexFields : IndexFields)
    (queries : list DbQuery) (collected : Collected) :
  getQueriesThatCanUseIndex dbQueries = Returned queries →
  collectRanges queries (keys indexFields) emptyCollected = Returned collected →
  (∀ anyQueries field,
      length (rangeStarts (extractRanges anyQueries field).2)
      = length (rangeEndings (extractRanges anyQueries field).2)
      ∧ ((extractRanges anyQueries field).1
           = Returned (extractRanges anyQueries field).2
         ∨ ∃ e, (extractRanges anyQueries field).1 = Thrown e))
  ∧ sameLengths (collectedStarts collected) (collectedEndings collected)
  ∧ length (cartesianProduct (collectedStarts collected))
    = length (cartesianProduct (collectedEndings collected))
  ∧ ∃ plan,
      getIndexRanges dbQueries indexFields = Returned plan
      ∧ ∀ i r, ranges plan !! i = Some r →
          ∃ ending,
            cartesianProduct (collectedStarts collected) !! i = Some (rangeStart r)
            ∧ cartesianProduct (collectedEndings collected) !! i = Some ending
            ∧ rangeEnd r = Some ending.
Proof.
  intros Hq Hc.
  pose proof (collectRanges_sameLengths _ _ _ Hc) as Hsame.
  split; [|split; [exact Hsame|split]].
  - intros anyQueries field. split; [apply extractRanges_inStep|].
    destruct (extractRanges anyQueries field).1 as [r|e] eqn:E; [left|right; eauto].
    f_equal. apply extractRanges_returned, E.
  - rewrite !length_cartesianProduct. apply lengthsProduct_sameLengths, Hsame.
  - exists (composeRanges collected). split.
    + rewrite (getIndexRanges_eq _ _ _ Hq), Hc. reflexivity.
    + intros i r. apply composeRanges_paired, Hsame.
Qed.

Lemma lockstep_pairing_witness :
  sameLengths [[JNum 18]] [[JNum 65]]
  ∧ ∃ plan,
      getIndexRanges ageQueries ageIndex = Returned plan
      ∧ ∀ i r, ranges plan !! i = Some r →
          ∃ ending,
            cartesianProduct [[JNum 18]] !! i = Some (rangeStart r)
            ∧ cartesianProduct [[JNum 65]] !! i = Some ending
            ∧ rangeEnd r = Some ending.
Proof.
  destruct (lockstep_pairing ageQueries ageIndex ageQueries
              {| collectedUsed := ageQueries;
                 collectedStarts := [[JNum 18]];
                 collectedEndings := [[JNum 65]] |})
    as (_ & Hsame & _ & Hplan).
  - vm_compute. reflexivity.
  - vm_compute. reflexivity.
  - split; [exact Hsame|exact Hplan].
Defined.

(** ** The product of the per-field lists *)

Lemma collectRanges_results queries (fields : list string) results rest acc :
  Forall2 (λ field r, (extractRanges queries field).1 = Returned r
                      ∧ rangeStarts r ≠ []) fields results →
  match rest with
  | [] => True
  | field :: _ => ∃ r, (extractRanges queries field).1 = Returned r
                       ∧ rangeStarts r = []
  end →
  collectRanges queries (fields ++ rest) acc = Returned (foldl absorb acc results).
Proof.
  intros Hfields Hrest. revert acc.
  induction Hfields as [|field r fields results [Hr Hne] _ IH]; intros acc; simpl.
  - destruct rest as [|field rest]; [reflexivity|]. simpl.
    destruct Hrest as (r & -> & Hnil). simpl. rewrite Hnil. reflexivity.
  - rewrite Hr. simpl.
    rewrite bool_decide_eq_false_2
      by (destruct (rangeStarts r); [contradiction|discriminate]).
    apply IH.
Qed.

Lemma foldl_absorb_lists acc results :
  collectedStarts (foldl absorb acc results)
  = collectedStarts acc ++ (rangeStarts <$> results)
  ∧ collectedEndings (foldl absorb acc results)
    = collectedEndings acc ++ (rangeEndings <$> results).
Proof.
  revert acc. induction results as [|r results IH]; intros acc; simpl.
  - rewrite !app_nil_r. auto.
  - destruct (IH (absorb acc r)) as [-> ->]. simpl.
    rewrite <- !app_assoc. auto.
Qed.

Lemma foldl_absorb_used acc results x :
  x ∈ collectedUsed (foldl absorb acc results)
  ↔ x ∈ collectedUsed acc ∨ ∃ r, r ∈ results ∧ x ∈ used r.
Proof.
  revert acc. induction results as [|r results IH]; intros acc; simpl.
  - split; [auto|]. intros [H|(r & Hr & _)]; [exact H|inversion Hr].
  - rewrite IH. simpl. rewrite elem_of_foldl_setAdd. split.
    + intros [[H|H]|(r' & Hr' & H)]; [auto| |].
      * right. exists r. split; [left|exact H].
      * right. exists r'. split; [right; exact Hr'|exact H].
    + intros [H|(r' & Hr' & H)]; [auto|].
      apply elem_of_cons in Hr' as [->|Hr']; [auto|]. right. eauto.
Qed.

(** C4: let the fields of the index be the fields [constrained], for each of
    which [extractRanges] returns the record paired with it in [results], with
    at least one range start, followed by the fields [rest], for the first of
    which, if there is one, [extractRanges] returns no range start.  Then
    [getIndexRanges] returns a plan whose used clauses are those of the records
    of [results].  If [constrained] is not empty, the plan has as many ranges
    as the product of the numbers of starts of the records, and the range at
    position [i] has for start the tuple at position [i] of the product of
    their start lists and for ending the tuple at position [i] of the product
    of their ending lists, both products having as many tuples as there are
    ranges.  If [constrained] is empty, the plan has no range and no used
    clause. *)
Theorem ranges_are_lockstep_product (dbQueries queries : list DbQuery)
    (constrained : IndexFields) (results : list ExtractState) (rest : IndexFields) :
  getQueriesThatCanUseIndex dbQueries = Returned queries →
  Forall2 (λ field r, (extractRanges queries field.1).1 = Returned r
                      ∧ rangeStarts r ≠ []) constrained results →
  match rest with
  | [] => True
  | field :: _ => ∃ r, (extractRanges queries field.1).1 = Returned r
                       ∧ rangeStarts r = []
  end →
  let starts := cartesianProduct (rangeStarts <$> results) in
  let endings := cartesianProduct (rangeEndings <$> results) in
  ∃ plan,
    getIndexRanges dbQueries (constrained ++ rest) = Returned plan
    ∧ (∀ x, x ∈ usedQueries plan ↔ ∃ r, r ∈ results ∧ x ∈ used r)
    ∧ (constrained ≠ [] →
         length (ranges plan) = lengthsProduct (rangeStarts <$> results)
         ∧ length starts = length (ranges plan)
         ∧ length endings = length (ranges plan)
         ∧ ∀ i start ending,
             starts !! i = Some start → endings !! i = Some ending →
             ranges plan !! i
             = Some {| rangeStart := start; rangeEnd := Some ending |})
    ∧ (constrained = [] → ranges plan = [] ∧ usedQueries plan = []).
Proof.
  intros Hq Hconstrained Hrest starts endings. subst starts endings.
  assert (collectRanges queries (keys (constrained ++ rest)) emptyCollected
          = Returned (foldl absorb emptyCollected results)) as Hc.
  { unfold keys. rewrite fmap_app. apply collectRanges_results.
    - apply Forall2_fmap_l. exact Hconstrained.
    - destruct rest as [|field rest]; [exact I|exact Hrest]. }
  destruct (foldl_absorb_lists emptyCollected results) as [Hstarts Hendings].
  simpl in Hstarts, Hendings.
  pose proof (collectRanges_sameLengths _ _ _ Hc) as Hsame.
  rewrite Hstarts, Hendings in Hsame.
  exists (composeRanges (foldl absorb emptyCollected results)).
  split; [|split; [|split]].
  - rewrite (getIndexRanges_eq _ _ _ Hq), Hc. reflexivity.
  - intros x.
    assert (usedQueries (composeRanges (foldl absorb emptyCollected results))
            = collectedUsed (foldl absorb emptyCollected results)) as ->
      by (unfold composeRanges; case_bool_decide; reflexivity).
    rewrite foldl_absorb_used. simpl. split; [|auto].
    intros [H|H]; [inversion H|exact H].
  - intros Hne.
    assert (collectedStarts (foldl absorb emptyCollected results) ≠ []) as Hne'.
    { rewrite Hstarts. inversion Hconstrained; subst; [contradiction|discriminate]. }
    assert (length (ranges (composeRanges (foldl absorb emptyCollected results)))
            = lengthsProduct (rangeStarts <$> results)) as Hlen.
    { rewrite composeRanges_length, bool_decide_eq_false_2 by exact Hne'.
      rewrite Hstarts. reflexivity. }
    split; [exact Hlen|]. split; [|split].
    + rewrite Hlen. apply length_cartesianProduct.
    + rewrite Hlen, (lengthsProduct_sameLengths _ _ Hsame).
      apply length_cartesianProduct.
    + intros i start ending Hs He.
      rewrite composeRanges_lookup by exact Hne'.
      rewrite Hstarts, Hendings, Hs, He. reflexivity.
  - intros ->. inversion Hconstrained; subst. split; reflexivity.
Qed.

Lemma ranges_are_lockstep_product_witness :
  let one := {| rangeStarts := [JNum 1; JNum 2];
                rangeEndings := [getValueEdgeAfter (JNum 1); getValueEdgeAfter (JNum 2)];
                used := [clause 0 "a" IN (JArray [JNum 1; JNum 2])] |} in
  let two := {| rangeStarts := [JNull; undefinedSymbol];
                rangeEndings := [getValueEdgeAfter JNull;
                                 getValueEdgeAfter undefinedSymbol];
                used := [clause 1 "b" EQ JNull] |} in
  ∃ plan,
    getIndexRanges productQueries ([("a", 1); ("b", 1)] ++ [("c", 1)]) = Returned plan
    ∧ (∀ x, x ∈ usedQueries plan ↔ ∃ r, r ∈ [one; two] ∧ x ∈ used r)
    ∧ length (ranges plan) = 4%nat
    ∧ ranges plan !! 1%nat
      = Some {| rangeStart := [JNum 1; undefinedSymbol];
                rangeEnd := Some [getValueEdgeAfter (JNum 1);
                                  getValueEdgeAfter undefinedSymbol] |}
    ∧ ranges plan !! 2%nat
      = Some {| rangeStart := [JNum 2; JNull];
                rangeEnd := Some [getValueEdgeAfter (JNum 2);
                                  getValueEdgeAfter JNull] |}.
Proof.
  intros one two.
  destruct (ranges_are_lockstep_product productQueries
              [clause 1 "b" EQ JNull; clause 0 "a" IN (JArray [JNum 1; JNum 2])]
              [("a", 1); ("b", 1)] [one; two] [("c", 1)])
    as (plan & Hplan & Hused & Hranges & _).
  - vm_compute. reflexivity.
  - repeat constructor; vm_compute; discriminate.
  - exists emptyExtract. split; [vm_compute; reflexivity|reflexivity].
  - destruct Hranges as (Hlen & _ & _ & Hlookup); [discriminate|].
    exists plan. split; [exact Hplan|]. split; [exact Hused|].
    split; [exact Hlen|]. split; apply Hlookup; reflexivity.
Defined.

(** ** Only a prefix of the index is used *)

(** C3: let [field] be the first field of the index for which [extractRanges]
    returns no range start.  Then [getIndexRanges] returns a plan, the very
    plan of the index cut before [field]: every clause it marks used addresses
    a field before [field], and every range boundary has one component per
    field before [field] and none for [field] or what follows it. *)
Theorem prefix_only_extension (dbQueries : list DbQuery)
    (before : IndexFields) (field : string) (order : Z) (after : IndexFields)
    (queries : list DbQuery) (r : ExtractState) :
  getQueriesThatCanUseIndex dbQueries = Returned queries →
  Forall (constrains queries) (keys before) →
  (extractRanges queries field).1 = Returned r →
  rangeStarts r = [] →
  ∃ plan,
    getIndexRanges dbQueries (before ++ (field, order) :: after) = Returned plan
    ∧ getIndexRanges dbQueries before = Returned plan
    ∧ (∀ x, x ∈ usedQueries plan →
            x ∈ dbQueries ∧ dbQueryToDottedField x ∈ keys before)
    ∧ (∀ range, range ∈ ranges plan →
            length (rangeStart range) = length before
            ∧ ∃ ending, rangeEnd range = Some ending
                        ∧ length ending = length before).
Proof.
  intros Hq Hbefore Hr Hnil.
  destruct (collectRanges_constrained queries (keys before) emptyCollected Hbefore)
    as (c & Hc & Hlen).
  simpl in Hlen. unfold keys in Hlen. rewrite length_fmap in Hlen.
  pose proof (collectRanges_sameLengths _ _ _ Hc) as Hsame.
  exists (composeRanges c). split; [|split; [|split]].
  - rewrite (getIndexRanges_eq _ _ _ Hq). unfold keys. rewrite fmap_app. simpl.
    rewrite (collectRanges_break _ _ _ _ r) by assumption.
    fold (keys before). rewrite Hc. reflexivity.
  - rewrite (getIndexRanges_eq _ _ _ Hq), Hc. reflexivity.
  - intros x Hx.
    assert (x ∈ collectedUsed c) as Hx'.
    { revert Hx. unfold composeRanges. case_bool_decide; auto. }
    apply (collectRanges_used _ _ _ Hc) in Hx' as [Hin Hf]. split; [|exact Hf].
    eapply getQueriesThatCanUseIndex_subset; eassumption.
  - intros range Hrange. apply list_elem_of_lookup in Hrange as [i Hi].
    destruct (composeRanges_paired _ _ _ Hsame Hi) as (ending & Hs & He & Hre).
    split.
    + rewrite <- Hlen. apply cartesianProduct_tuple_length.
      eapply list_elem_of_lookup_2, Hs.
    + exists ending. split; [exact Hre|].
      rewrite <- Hlen, (Forall2_length _ _ _ Hsame).
      apply cartesianProduct_tuple_length. eapply list_elem_of_lookup_2, He.
Qed.

Lemma prefix_only_extension_witness :
  ∃ plan,
    getIndexRanges gapQueries ([("a", 1)] ++ ("b", 1) :: [("c", 1)]) = Returned plan
    ∧ getIndexRanges gapQueries [("a", 1)] = Returned plan
    ∧ (∀ x, x ∈ usedQueries plan →
            x ∈ gapQueries ∧ dbQueryToDottedField x ∈ keys [("a", 1)])
    ∧ (∀ range, range ∈ ranges plan →
            length (rangeStart range) = length [("a", 1)]
            ∧ ∃ ending, rangeEnd range = Some ending
                        ∧ length ending = length [("a", 1)]).
Proof.
  apply (prefix_only_extension gapQueries [("a", 1)] "b" 1 [("c", 1)]
           gapQueries emptyExtract).
  - vm_compute. reflexivity.
  - constructor; [|constructor]. eexists. split.
    + vm_compute. reflexivity.
    + simpl. discriminate.
  - vm_compute. reflexivity.
  - reflexivity.
Defined.

(** The plan of the sample: one range, constrained on [a] alone, and the
    clause on [c] left unused. *)
Example gap_plan :
  getIndexRanges gapQueries gapIndex =
  Returned {| usedQueries := [clause 0 "a" EQ (JStr "x")];
              ranges := [{| rangeStart := [JStr "x"];
                            rangeEnd := Some [getValueEdgeAfter (JStr "x")] |}] |}.
Proof. vm_compute. reflexivity. Qed.

(** ** Equality and membership anchors *)

Lemma pushValues_scalars statement arr hasNull st :
  Forall scalar arr →
  pushValues statement arr hasNull st =
  (Returned (hasNull || bool_decide (JNull ∈ arr)),
   {| rangeStarts := rangeStarts st ++ arr;
      rangeEndings := rangeEndings st ++ (getValueEdgeAfter <$> arr);
      used := used st |}).
Proof.
  intros H. revert hasNull st.
  induction H as [|v rest Hv _ IH]; intros hasNull st.
  - simpl. rewrite !app_nil_r, orb_false_r. destruct st; reflexivity.
  - simpl. rewrite Extract_bind_run. unfold liftOutcome, toIndexFieldValue.
    rewrite Hv. repeat (rewrite Extract_bind_run; simpl). rewrite IH. simpl.
    rewrite <- !app_assoc. simpl. f_equal. f_equal.
    destruct (decide (v = JNull)) as [->|Hne].
    + rewrite bool_decide_eq_true_2 by reflexivity.
      rewrite (bool_decide_eq_true_2 (JNull ∈ JNull :: rest)) by left.
      rewrite orb_true_r. reflexivity.
    + rewrite (bool_decide_eq_false_2 (v = JNull)) by exact Hne.
      f_equal. apply bool_decide_ext. rewrite elem_of_cons.
      split; [auto|]. intros [Heq|Hin]; [congruence|exact Hin].
Qed.

Lemma equalityCase_scalars statement st :
  Forall scalar (operandValues statement) →
  equalityCase statement st =
  (Returned (),
   {| rangeStarts := rangeStarts st ++ matchedValues (operandValues statement);
      rangeEndings := rangeEndings st
                      ++ (getValueEdgeAfter <$> matchedValues (operandValues statement));
      used := used st |}).
Proof.
  intros Hscalar. unfold equalityCase. fold (operandValues statement).
  rewrite Extract_bind_run, pushValues_scalars by exact Hscalar.
  unfold matchedValues. simpl.
  destruct (bool_decide (JNull ∈ operandValues statement)).
  - rewrite Extract_bind_run. unfold pushStart, pushEnding. simpl.
    rewrite fmap_app, <- !app_assoc. reflexivity.
  - simpl. rewrite !app_nil_r. reflexivity.
Qed.

(** C1: let the first clause on [indexField] be an [EQ] or [IN] clause.  If it
    is an [IN] clause whose operand is not an array, [extractRanges] throws
    with nothing pushed.  Otherwise, when the operand values are scalars,
    [extractRanges] returns, for each operand value [v] in turn, the start [v]
    with the ending [getValueEdgeAfter v], followed, if some operand value is
    [null], by the start [undefinedSymbol] with the ending
    [getValueEdgeAfter undefinedSymbol]. *)
Theorem eq_in_anchor (queries : list DbQuery) (indexField : string)
    (anchor : DbQuery) (others : list DbQuery) :
  filter (λ q, dbQueryToDottedField q = indexField) queries = anchor :: others →
  comparator (getFilterStatement anchor) = EQ
  ∨ comparator (getFilterStatement anchor) = IN →
  (comparator (getFilterStatement anchor) = IN →
   isArray (value (getFilterStatement anchor)) = false →
   extractRanges queries indexField =
   (Thrown InArgumentNotArray,
    {| rangeStarts := []; rangeEndings := []; used := [anchor] |}))
  ∧ (comparator (getFilterStatement anchor) = EQ
     ∨ isArray (value (getFilterStatement anchor)) = true →
     Forall scalar (operandValues (getFilterStatement anchor)) →
     extractRanges queries indexField =
     (Returned
        {| rangeStarts := matchedValues (operandValues (getFilterStatement anchor));
           rangeEndings := getValueEdgeAfter
                             <$> matchedValues (operandValues (getFilterStatement anchor));
           used := [anchor] |},
      {| rangeStarts := matchedValues (operandValues (getFilterStatement anchor));
         rangeEndings := getValueEdgeAfter
                           <$> matchedValues (operandValues (getFilterStatement anchor));
         used := [anchor] |})).
Proof.
  intros Hfilter Hcmp. unfold extractRanges, extractRangesBody. rewrite Hfilter.
  split.
  - intros Hin Harr. rewrite Extract_bind_run. simpl.
    rewrite Hin, Harr. reflexivity.
  - intros Hshape Hscalar. rewrite Extract_bind_run. simpl.
    assert (bool_decide (comparator (getFilterStatement anchor) = IN)
            && negb (isArray (value (getFilterStatement anchor))) = false) as ->.
    { destruct Hshape as [Heq|Harr].
      - rewrite Heq. reflexivity.
      - rewrite Harr. apply andb_false_r. }
    rewrite Extract_bind_run.
    assert (match comparator (getFilterStatement anchor) with
            | EQ | IN => equalityCase (getFilterStatement anchor)
            | LT | LTE => upperAnchorCase (anchor :: others) (getFilterStatement anchor)
            | GT | GTE => lowerAnchorCase (anchor :: others) (getFilterStatement anchor)
            | NE | NIN => throw (UnsupportedComparator
                                   (comparator (getFilterStatement anchor)))
            end = equalityCase (getFilterStatement anchor)) as ->.
    { destruct Hcmp as [-> | ->]; reflexivity. }
    rewrite equalityCase_scalars by exact Hscalar. reflexivity.
Qed.

Lemma eq_in_anchor_witness :
  extractRanges [clause 0 "a" IN (JNum 1)] "a" =
  (Thrown InArgumentNotArray,
   {| rangeStarts := []; rangeEndings := []; used := [clause 0 "a" IN (JNum 1)] |})
  ∧ extractRanges [clause 0 "a" IN (JArray [JNum 1; JNull])] "a" =
    (Returned
       {| rangeStarts := [JNum 1; JNull; undefinedSymbol];
          rangeEndings := [getValueEdgeAfter (JNum 1); getValueEdgeAfter JNull;
                           getValueEdgeAfter undefinedSymbol];
          used := [clause 0 "a" IN (JArray [JNum 1; JNull])] |},
     {| rangeStarts := [JNum 1; JNull; undefinedSymbol];
        rangeEndings := [getValueEdgeAfter (JNum 1); getValueEdgeAfter JNull;
                         getValueEdgeAfter undefinedSymbol];
        used := [clause 0 "a" IN (JArray [JNum 1; JNull])] |}).
Proof.
  split.
  - apply (eq_in_anchor [clause 0 "a" IN (JNum 1)] "a" (clause 0 "a" IN (JNum 1)) []).
    + reflexivity.
    + right. reflexivity.
    + reflexivity.
    + reflexivity.
  - apply (eq_in_anchor [clause 0 "a" IN (JArray [JNum 1; JNull])] "a"
             (clause 0 "a" IN (JArray [JNum 1; JNull])) []).
    + reflexivity.
    + right. reflexivity.
    + right. reflexivity.
    + repeat constructor.
Defined.

(** ** Range anchors *)

(** When no clause with the comparator looked for is used yet, [findRangeEdge]
    takes the first such clause of the list. *)
Lemma findRangeEdge_run queries cmp edge st :
  (∀ q, q ∈ queries → comparator (getFilterStatement q) = cmp → q ∉ used st) →
  findRangeEdge queries cmp edge st =
  match firstWith cmp queries with
  | None => (Returned JUndefined, st)
  | Some q =>
      let v := value (getFilterStatement q) in
      if isArray v then (Thrown (RangeFilterArrayValue cmp), markUsed st q)
      else if isNonNullObject v
           then (Thrown (RangeFilterObjectValue cmp), markUsed st q)
           else (Returned (edgeOf edge v), markUsed st q)
  end.
Proof.
  induction queries as [|q rest IH]; intros Hfresh; [reflexivity|].
  assert (∀ x, x ∈ rest → comparator (getFilterStatement x) = cmp → x ∉ used st)
    as Hrest by (intros x Hx; apply Hfresh; right; exact Hx).
  simpl. rewrite Extract_bind_run. simpl. unfold firstWith.
  destruct (decide (comparator (getFilterStatement q) = cmp)) as [Hc|Hc].
  - rewrite filter_cons_True by exact Hc. simpl.
    assert (q ∉ used st) as Hq by (apply Hfresh; [left|exact Hc]).
    unfold setHas. rewrite (bool_decide_eq_false_2 _ Hq).
    rewrite (bool_decide_eq_true_2 _ Hc). simpl. rewrite Extract_bind_run. simpl.
    assert (setAdd (used st) q = used st ++ [q]) as ->.
    { unfold setAdd, setHas. rewrite (bool_decide_eq_false_2 _ Hq). reflexivity. }
    fold (markUsed st q).
    destruct (isArray _); [reflexivity|]. destruct (isNonNullObject _); [reflexivity|].
    destruct edge; reflexivity.
  - rewrite filter_cons_False by exact Hc. fold (firstWith cmp rest).
    rewrite (bool_decide_eq_false_2 _ Hc). simpl.
    destruct (setHas (used st) q); apply IH, Hrest.
Qed.

Lemma firstWith_elem cmp queries q :
  firstWith cmp queries = Some q →
  q ∈ queries ∧ comparator (getFilterStatement q) = cmp.
Proof.
  unfold firstWith. intros H. apply head_Some_elem_of, list_elem_of_filter in H.
  tauto.
Qed.

Lemma firstWith_skip cmp q rest :
  comparator (getFilterStatement q) ≠ cmp →
  firstWith cmp (q :: rest) = firstWith cmp rest.
Proof. intros H. unfold firstWith. rewrite filter_cons_False by exact H. reflexivity. Qed.

Lemma scalar_not_array v : scalar v → isArray v = false.
Proof. destruct v; simpl; intros H; try reflexivity. discriminate. Qed.

Lemma firstWith_scalar cmp others q :
  Forall (λ q, scalar (value (getFilterStatement q))) others →
  firstWith cmp others = Some q →
  isArray (value (getFilterStatement q)) = false
  ∧ isNonNullObject (value (getFilterStatement q)) = false.
Proof.
  intros Hall Hq. apply firstWith_elem in Hq as [Hin _].
  rewrite Forall_forall in Hall. specialize (Hall q Hin).
  split; [apply scalar_not_array, Hall|exact Hall].
Qed.

Lemma lowerAnchorCase_run fieldQueries statement st :
  scalar (value statement) →
  scalarOperands fieldQueries →
  (∀ q, q ∈ fieldQueries →
        comparator (getFilterStatement q) = LTE
        ∨ comparator (getFilterStatement q) = LT → q ∉ used st) →
  lowerAnchorCase fieldQueries statement st =
  (Returned (),
   {| rangeStarts := rangeStarts st
                     ++ [if bool_decide (comparator statement = GTE)
                         then value statement
                         else getValueEdgeAfter (value statement)];
      rangeEndings := rangeEndings st ++ [(upperBound (value statement) fieldQueries).1];
      used := used st ++ (upperBound (value statement) fieldQueries).2 |}).
Proof.
  intros Hv Hall Hfresh. unfold lowerAnchorCase, upperBound.
  rewrite (scalar_not_array _ Hv), Extract_bind_run.
  unfold liftOutcome at 1, toIndexFieldValue. rewrite Hv.
  rewrite Extract_bind_run, findRangeEdge_run by (intros; apply Hfresh; auto).
  destruct (firstWith LTE fieldQueries) as [lte|] eqn:Elte; cbv zeta.
  - destruct (firstWith_scalar _ _ _ Hall Elte) as [-> ->]. reflexivity.
  - rewrite Extract_bind_run. change (isNullish JUndefined) with true. cbv iota.
    rewrite findRangeEdge_run by (intros; apply Hfresh; auto).
    destruct (firstWith LT fieldQueries) as [lt|] eqn:Elt; cbv zeta.
    + destruct (firstWith_scalar _ _ _ Hall Elt) as [-> ->]. reflexivity.
    + simpl. rewrite app_nil_r. reflexivity.
Qed.

Lemma upperAnchorCase_run fieldQueries statement st :
  scalar (value statement) →
  scalarOperands fieldQueries →
  (∀ q, q ∈ fieldQueries →
        comparator (getFilterStatement q) = GTE
        ∨ comparator (getFilterStatement q) = GT → q ∉ used st) →
  upperAnchorCase fieldQueries statement st =
  (Returned (),
   {| rangeStarts := rangeStarts st ++ [(lowerBound (value statement) fieldQueries).1];
      rangeEndings := rangeEndings st
                      ++ [if bool_decide (comparator statement = LT)
                          then value statement
                          else getValueEdgeAfter (value statement)];
      used := used st ++ (lowerBound (value statement) fieldQueries).2 |}).
Proof.
  intros Hv Hall Hfresh. unfold upperAnchorCase, lowerBound.
  rewrite (scalar_not_array _ Hv), Extract_bind_run.
  unfold liftOutcome at 1, toIndexFieldValue. rewrite Hv.
  rewrite Extract_bind_run, findRangeEdge_run by (intros; apply Hfresh; auto).
  destruct (firstWith GTE fieldQueries) as [gte|] eqn:Egte; cbv zeta.
  - destruct (firstWith_scalar _ _ _ Hall Egte) as [-> ->].
    rewrite Extract_bind_run. unfold edgeOf at 1.
    destruct (isNullish (value (getFilterStatement gte))) eqn:Enull.
    + rewrite findRangeEdge_run.
      2: { intros x Hx Hc. simpl. rewrite elem_of_app, list_elem_of_singleton.
           intros [Hin| ->].
           - revert Hin. apply Hfresh; auto.
           - apply firstWith_elem in Egte as [_ Hg]. congruence. }
      destruct (firstWith GT fieldQueries) as [gt|] eqn:Egt; cbv zeta.
      * destruct (firstWith_scalar _ _ _ Hall Egt) as [-> ->].
        unfold markUsed, pushStart, pushEnding. simpl.
        rewrite <- app_assoc. reflexivity.
      * reflexivity.
    + simpl. unfold nullishCoalesce. rewrite Enull. reflexivity.
  - rewrite Extract_bind_run. change (isNullish JUndefined) with true. cbv iota.
    rewrite findRangeEdge_run by (intros; apply Hfresh; auto).
    destruct (firstWith GT fieldQueries) as [gt|] eqn:Egt; cbv zeta.
    + destruct (firstWith_scalar _ _ _ Hall Egt) as [-> ->]. reflexivity.
    + simpl. rewrite app_nil_r. reflexivity.
Qed.

Lemma extractRangesBody_anchor queries indexField anchor others :
  filter (λ q, dbQueryToDottedField q = indexField) queries = anchor :: others →
  comparator (getFilterStatement anchor) ≠ IN →
  extractRanges queries indexField =
  (match comparator (getFilterStatement anchor) with
   | EQ | IN => equalityCase (getFilterStatement anchor)
   | LT | LTE => upperAnchorCase (anchor :: others) (getFilterStatement anchor)
   | GT | GTE => lowerAnchorCase (anchor :: others) (getFilterStatement anchor)
   | NE | NIN => throw (UnsupportedComparator (comparator (getFilterStatement anchor)))
   end;; getState)
    {| rangeStarts := []; rangeEndings := []; used := [anchor] |}.
Proof.
  intros Hfilter Hcmp. unfold extractRanges, extractRangesBody. rewrite Hfilter.
  rewrite Extract_bind_run. simpl.
  rewrite (bool_decide_eq_false_2 _ Hcmp). reflexivity.
Qed.

(** What [extractRanges] returns for a [GT] or [GTE] anchor: one range, from
    the anchor's value, or the edge after it, to the bound that the other
    clauses on the field give. *)
Theorem lower_anchor_range (queries : list DbQuery) (indexField : string)
    (anchor : DbQuery) (others : list DbQuery) :
  filter (λ q, dbQueryToDottedField q = indexField) queries = anchor :: others →
  comparator (getFilterStatement anchor) = GTE
  ∨ comparator (getFilterStatement anchor) = GT →
  scalarOperands (anchor :: others) →
  extractRanges queries indexField =
  (Returned
     {| rangeStarts :=
          [if bool_decide (comparator (getFilterStatement anchor) = GTE)
           then value (getFilterStatement anchor)
           else getValueEdgeAfter (value (getFilterStatement anchor))];
        rangeEndings := [(upperBound (value (getFilterStatement anchor)) others).1];
        used := anchor :: (upperBound (value (getFilterStatement anchor)) others).2 |},
   {| rangeStarts :=
        [if bool_decide (comparator (getFilterStatement anchor) = GTE)
         then value (getFilterStatement anchor)
         else getValueEdgeAfter (value (getFilterStatement anchor))];
      rangeEndings := [(upperBound (value (getFilterStatement anchor)) others).1];
      used := anchor :: (upperBound (value (getFilterStatement anchor)) others).2 |}).
Proof.
  intros Hfilter Hcmp Hall.
  rewrite (extractRangesBody_anchor _ _ _ _ Hfilter)
    by (destruct Hcmp as [-> | ->]; discriminate).
  assert (comparator (getFilterStatement anchor) ≠ LTE
          ∧ comparator (getFilterStatement anchor) ≠ LT) as [Hlte Hlt]
    by (destruct Hcmp as [-> | ->]; split; discriminate).
  assert (upperBound (value (getFilterStatement anchor)) (anchor :: others)
          = upperBound (value (getFilterStatement anchor)) others) as Hbound.
  { unfold upperBound. rewrite !firstWith_skip by assumption. reflexivity. }
  rewrite Extract_bind_run.
  assert (match comparator (getFilterStatement anchor) with
          | EQ | IN => equalityCase (getFilterStatement anchor)
          | LT | LTE => upperAnchorCase (anchor :: others) (getFilterStatement anchor)
          | GT | GTE => lowerAnchorCase (anchor :: others) (getFilterStatement anchor)
          | NE | NIN => throw (UnsupportedComparator
                                 (comparator (getFilterStatement anchor)))
          end = lowerAnchorCase (anchor :: others) (getFilterStatement anchor)) as ->.
  { destruct Hcmp as [-> | ->]; reflexivity. }
  rewrite lowerAnchorCase_run, Hbound; [reflexivity| |exact Hall|].
  - apply Forall_cons in Hall. tauto.
  - intros x _ Hx [->|Hin]%elem_of_cons; [|inversion Hin].
    destruct Hx; contradiction.
Qed.

Lemma lower_anchor_range_witness :
  extractRanges nullBoundQueries "a" =
  (Returned {| rangeStarts := [JNum 1]; rangeEndings := [BinaryInfinityPositive];
               used := nullBoundQueries |},
   {| rangeStarts := [JNum 1]; rangeEndings := [BinaryInfinityPositive];
      used := nullBoundQueries |}).
Proof.
  apply (lower_anchor_range nullBoundQueries "a" (clause 0 "a" GTE (JNum 1))
           [clause 1 "a" LT JNull]).
  - reflexivity.
  - left. reflexivity.
  - repeat constructor.
Defined.

(** What [extractRanges] returns for an [LT] or [LTE] anchor: one range, from
    the bound that the other clauses on the field give to the anchor's value,
    or the edge after it. *)
Theorem upper_anchor_range (queries : list DbQuery) (indexField : string)
    (anchor : DbQuery) (others : list DbQuery) :
  filter (λ q, dbQueryToDottedField q = indexField) queries = anchor :: others →
  comparator (getFilterStatement anchor) = LTE
  ∨ comparator (getFilterStatement anchor) = LT →
  scalarOperands (anchor :: others) →
  extractRanges queries indexField =
  (Returned
     {| rangeStarts := [(lowerBound (value (getFilterStatement anchor)) others).1];
        rangeEndings :=
          [if bool_decide (comparator (getFilterStatement anchor) = LT)
           then value (getFilterStatement anchor)
           else getValueEdgeAfter (value (getFilterStatement anchor))];
        used := anchor :: (lowerBound (value (getFilterStatement anchor)) others).2 |},
   {| rangeStarts := [(lowerBound (value (getFilterStatement anchor)) others).1];
      rangeEndings :=
        [if bool_decide (comparator (getFilterStatement anchor) = LT)
         then value (getFilterStatement anchor)
         else getValueEdgeAfter (value (getFilterStatement anchor))];
      used := anchor :: (lowerBound (value (getFilterStatement anchor)) others).2 |}).
Proof.
  intros Hfilter Hcmp Hall.
  rewrite (extractRangesBody_anchor _ _ _ _ Hfilter)
    by (destruct Hcmp as [-> | ->]; discriminate).
  assert (comparator (getFilterStatement anchor) ≠ GTE
          ∧ comparator (getFilterStatement anchor) ≠ GT) as [Hgte Hgt]
    by (destruct Hcmp as [-> | ->]; split; discriminate).
  assert (lowerBound (value (getFilterStatement anchor)) (anchor :: others)
          = lowerBound (value (getFilterStatement anchor)) others) as Hbound.
  { unfold lowerBound. rewrite !firstWith_skip by assumption. reflexivity. }
  rewrite Extract_bind_run.
  assert (match comparator (getFilterStatement anchor) with
          | EQ | IN => equalityCase (getFilterStatement anchor)
          | LT | LTE => upperAnchorCase (anchor :: others) (getFilterStatement anchor)
          | GT | GTE => lowerAnchorCase (anchor :: others) (getFilterStatement anchor)
          | NE | NIN => throw (UnsupportedComparator
                                 (comparator (getFilterStatement anchor)))
          end = upperAnchorCase (anchor :: others) (getFilterStatement anchor)) as ->.
  { destruct Hcmp as [-> | ->]; reflexivity. }
  rewrite upperAnchorCase_run, Hbound; [reflexivity| |exact Hall|].
  - apply Forall_cons in Hall. tauto.
  - intros x _ Hx [->|Hin]%elem_of_cons; [|inversion Hin].
    destruct Hx; contradiction.
Qed.

Lemma upper_anchor_range_witness :
  extractRanges [clause 0 "a" LTE (JNum 9); clause 1 "a" GT (JNum 2)] "a" =
  (Returned {| rangeStarts := [getValueEdgeAfter (JNum 2)];
               rangeEndings := [getValueEdgeAfter (JNum 9)];
               used := [clause 0 "a" LTE (JNum 9); clause 1 "a" GT (JNum 2)] |},
   {| rangeStarts := [getValueEdgeAfter (JNum 2)];
      rangeEndings := [getValueEdgeAfter (JNum 9)];
      used := [clause 0 "a" LTE (JNum 9); clause 1 "a" GT (JNum 2)] |}).
Proof.
  apply (upper_anchor_range [clause 0 "a" LTE (JNum 9); clause 1 "a" GT (JNum 2)]
           "a" (clause 0 "a" LTE (JNum 9)) [clause 1 "a" GT (JNum 2)]).
  - reflexivity.
  - left. reflexivity.
  - repeat constructor.
Defined.

(** *** Two clauses, one range *)

(** [gte] and [lt] on one field make one
    range, and both clauses are used. *)
Example age_plan :
  getIndexRanges ageQueries ageIndex =
  Returned {| usedQueries := ageQueries;
              ranges := [boundedRange ([JNum 18], [JNum 65])] |}.
Proof. vm_compute. reflexivity. Qed.

(** C2: with [{a: {gte: 1}}] and [{a: {lt: null}}] the [lt] clause is found
    and marked used, but its value [null] is taken by [??] for a clause that
    was not found: the ending of the range is the upper rail
    [BinaryInfinityPositive], where the clause's own value was due. *)
Theorem null_bound_is_dropped :
  getIndexRanges nullBoundQueries aIndex =
  Returned {| usedQueries := nullBoundQueries;
              ranges := [boundedRange ([JNum 1], [BinaryInfinityPositive])] |}.
Proof. vm_compute. reflexivity. Qed.

(** ** The range executor *)

(** *** Deduplication *)

Lemma deduplicateSeq_returns {A} (keyFn : A → Outcome JsValue) registered source :
  Forall (λ e, ∃ k, keyFn e = Returned k) source →
  ∃ kept, deduplicateSeq keyFn registered source = Returned kept.
Proof.
  intros H. revert registered.
  induction H as [|x rest [k Hk] _ IH]; intros registered; simpl; [eauto|].
  rewrite Hk. simpl. case_bool_decide; [apply IH|].
  destruct (IH (k :: registered)) as [kept ->]. simpl. eauto.
Qed.

Lemma deduplicateSeq_keeps {A} (keyFn : A → Outcome JsValue) source :
  ∀ registered kept,
    deduplicateSeq keyFn registered source = Returned kept →
    sublist kept source
    ∧ NoDup (keyFn <$> kept)
    ∧ (∀ e, e ∈ kept → ∃ k, keyFn e = Returned k ∧ k ∉ registered)
    ∧ ∀ i e k, source !! i = Some e → keyFn e = Returned k → k ∉ registered →
        (∀ j e', (j < i)%nat → source !! j = Some e' → keyFn e' ≠ keyFn e) →
        e ∈ kept.
Proof.
  induction source as [|x rest IH]; intros registered kept; simpl.
  - intros [= <-]. split; [constructor|]. split; [constructor|].
    split; [intros e He; inversion He|]. intros i e k Hi. inversion Hi.
  - destruct (keyFn x) as [kx|err] eqn:Ex; simpl; [|discriminate].
    case_bool_decide as Hreg.
    + intros Hd. destruct (IH _ _ Hd) as (Hsub & Hnd & Hfresh & Hfirst).
      split; [apply sublist_cons, Hsub|]. split; [exact Hnd|].
      split; [exact Hfresh|].
      intros [|i] e k Hi Hk Hnot Hearlier; simpl in Hi.
      * injection Hi as <-. rewrite Ex in Hk. injection Hk as <-. contradiction.
      * apply (Hfirst i e k Hi Hk Hnot). intros j e' Hj He'.
        apply (Hearlier (S j) e'); [lia|exact He'].
    + destruct (deduplicateSeq keyFn (kx :: registered) rest) as [kept'|err] eqn:Ed;
        simpl; [|discriminate].
      intros [= <-]. destruct (IH _ _ Ed) as (Hsub & Hnd & Hfresh & Hfirst).
      split; [apply sublist_skip, Hsub|]. split; [|split].
      * rewrite fmap_cons. apply NoDup_cons. split; [|exact Hnd].
        intros Hin. apply list_elem_of_fmap in Hin as (e & He & Hin).
        destruct (Hfresh e Hin) as (k & Hk & Hnot).
        rewrite Ex, Hk in He. injection He as ->. apply Hnot. left.
      * intros e He. apply elem_of_cons in He as [->|He].
        -- exists kx. auto.
        -- destruct (Hfresh e He) as (k & Hk & Hnot). exists k.
           split; [exact Hk|]. intros Hin. apply Hnot. right. exact Hin.
      * intros [|i] e k Hi Hk Hnot Hearlier; simpl in Hi.
        -- injection Hi as <-. left.
        -- right. apply (Hfirst i e k Hi Hk).
           ++ intros Hin. apply elem_of_cons in Hin as [->|Hin]; [|contradiction].
              apply (Hearlier 0%nat x); [lia|reflexivity|]. congruence.
           ++ intros j e' Hj He'. apply (Hearlier (S j) e'); [lia|exact He'].
Qed.

Lemma deduplicateSeq_keys {A} (keyFn : A → Outcome JsValue) source :
  ∀ registered kept,
    deduplicateSeq keyFn registered source = Returned kept →
    Forall (λ e, ∃ k, keyFn e = Returned k) source.
Proof.
  induction source as [|x rest IH]; intros registered kept; simpl; [constructor|].
  destruct (keyFn x) as [kx|err] eqn:Ex; simpl; [|discriminate].
  intros Hd. constructor; [eauto|]. revert Hd. case_bool_decide.
  - apply IH.
  - destruct (deduplicateSeq keyFn (kx :: registered) rest) eqn:Ed;
      simpl; [|discriminate].
    intros _. eapply IH, Ed.
Qed.

Lemma deduplicate_keepsFirst {A} (keyFn : A → Outcome JsValue) source kept :
  deduplicate keyFn source = Returned kept → keepsFirst keyFn source kept.
Proof.
  intros Hd. destruct (deduplicateSeq_keeps keyFn source [] kept Hd)
    as (Hsub & Hnd & Hfresh & Hfirst).
  split; [exact Hsub|]. split; [exact Hnd|].
  intros i e Hi Hearlier.
  pose proof (deduplicateSeq_keys keyFn source [] kept Hd) as Hkeys.
  rewrite Forall_lookup in Hkeys. destruct (Hkeys i e Hi) as [k Hk].
  apply (Hfirst i e k Hi Hk); [|exact Hearlier].
  intros Hin. inversion Hin.
Qed.

(** *** Identifiers and the product of the limit *)

Lemma identified_getIdentifier entry :
  identified entry → ∃ id, getIdentifier entry = Returned id.
Proof.
  intros (front & id & Hkey & Htype). exists id. unfold getIdentifier.
  rewrite Hkey, last_snoc. simpl. destruct Htype as [-> | ->]; reflexivity.
Qed.

Lemma identified_intro entry id :
  last (key entry) = Some id → typeof id = TNumber ∨ typeof id = TString →
  identified entry.
Proof.
  intros Hlast Htype. apply last_Some in Hlast as [front Hkey].
  exists front, id. auto.
Qed.

Lemma identified_last entry entry' :
  identified entry → identified entry' →
  getIdentifier entry = getIdentifier entry' ↔ last (key entry) = last (key entry').
Proof.
  intros (front & id & Hkey & Htype) (front' & id' & Hkey' & Htype').
  unfold getIdentifier. rewrite Hkey, Hkey', !last_snoc. simpl.
  assert (∀ v, typeof v = TNumber ∨ typeof v = TString →
               match typeof v with
               | TNumber | TString => Returned v
               | _ => Thrown (BadIdentifier v)
               end = Returned v) as Hret
    by (intros v [-> | ->]; reflexivity).
  rewrite !Hret by assumption. split; congruence.
Qed.

Lemma NoDup_fmap_coarser {A B C} (f : A → B) (g : A → C) (l : list A) :
  (∀ x y, x ∈ l → y ∈ l → g x = g y → f x = f y) →
  NoDup (f <$> l) → NoDup (g <$> l).
Proof.
  induction l as [|x l IH]; intros Hfg; simpl; [constructor|].
  rewrite !NoDup_cons. intros [Hx Hl]. split.
  - intros Hin. apply list_elem_of_fmap in Hin as (y & Hgy & Hy). apply Hx.
    apply list_elem_of_fmap. exists y. split; [|exact Hy].
    apply Hfg; [left|right; exact Hy|exact Hgy].
  - apply IH; [|exact Hl]. intros a b Ha Hb. apply Hfg; right; assumption.
Qed.

Lemma keepsFirst_last source kept :
  Forall identified source →
  keepsFirst getIdentifier source kept → firstOfEachIdentifier source kept.
Proof.
  intros Hids (Hsub & Hnd & Hfirst). rewrite Forall_forall in Hids.
  assert (∀ e, e ∈ kept → identified e) as Hkept
    by (intros e He; apply Hids; eapply elem_of_sublist; eassumption).
  split; [exact Hsub|]. split.
  - revert Hnd. apply NoDup_fmap_coarser. intros x y Hx Hy Hlast.
    apply identified_last; auto.
  - intros i entry Hi Hearlier. apply (Hfirst i entry Hi).
    intros j earlier Hj Hlookup Hsame. apply (Hearlier j earlier Hj Hlookup).
    apply identified_last; [| |exact Hsame]; apply Hids;
      eapply list_elem_of_lookup_2; eassumption.
Qed.

(** The product of doubles: exact up to 2^53, rounded to the nearest double
    beyond, ties to even, and infinite beyond the largest double. *)
Example multiply_rounds :
  multiply 10 3 = Finite 30
  ∧ multiply 9007199254740991 3 = Finite 27021597764222972
  ∧ roundToDouble (2 ^ 53 + 1) = Finite (2 ^ 53)
  ∧ roundToDouble (2 ^ 53 + 3) = Finite (2 ^ 53 + 4)
  ∧ multiply (2 ^ 1000) (2 ^ 100) = PositiveInfinity.
Proof. repeat split; vm_compute; reflexivity. Qed.

Lemma roundToDouble_safe n : Z.abs n ≤ 2 ^ 53 → roundToDouble n = Finite n.
Proof.
  intros Hn. destruct (decide (Z.abs n < 2 ^ 53)) as [Hlt|Hge].
  - unfold roundToDouble. rewrite bool_decide_eq_true_2 by exact Hlt. reflexivity.
  - assert (n = 2 ^ 53 ∨ n = - 2 ^ 53) as [-> | ->] by lia;
      vm_compute; reflexivity.
Qed.

(** *** Scans of a context *)

Section RangeScan.
Context (context : IFilterContext).

Lemma scanRanges_bounded limit1 offset1 bounds found calls :
  scanRanges context limit1 offset1 (boundedRange <$> bounds) found calls =
  let requests :=
    (λ b, scanRequest context limit1 offset1
            (keyPrefix (indexMetadata context) :: b.1)
            (keyPrefix (indexMetadata context) :: b.2)) <$> bounds in
  (Returned (found ++ mjoin (getRange (indexes context) <$> requests)),
   calls ++ requests).
Proof.
  revert found calls. induction bounds as [|b bounds IH]; intros found calls; simpl.
  - rewrite !app_nil_r. reflexivity.
  - rewrite IH. simpl. rewrite <- !app_assoc. reflexivity.
Qed.

(** C6: [performRangeScan] over ranges with both boundaries returns, having
    made one scan per range.  If [maxKeysPerItem > 1], the limit of every scan
    is the product of the requested limit and [maxKeysPerItem] as doubles
    multiply, which is their exact product when that does not exceed 2^53, and
    the entries are the concatenated scan results deduplicated by
    [getIdentifier]: when the key of every scanned entry ends with a number or
    a string, the entries kept are, in their order, those that no earlier
    entry shares the last component of its key with.  If
    [maxKeysPerItem <= 1], the limit of every scan is the requested limit and
    the entries are the concatenated scan results. *)
Theorem multi_key_limit_and_deduplication
    (bounds : list (list JsValue * list JsValue)) (used : QuerySet) :
  ∃ result calls,
    performRangeScan context (boundedRange <$> bounds) used = (Returned result, calls)
    ∧ length calls = length bounds
    ∧ (1 < maxKeysPerItem (indexMetadata context) →
         let inflated :=
           (λ l, multiply l (maxKeysPerItem (indexMetadata context)))
             <$> limit context in
         let found := mjoin (getRange (indexes context) <$> calls) in
         Forall (λ call, optLimit call = inflated) calls
         ∧ usedLimit result = inflated
         ∧ (∀ l, limit context = Some l →
                 Z.abs (l * maxKeysPerItem (indexMetadata context)) ≤ 2 ^ 53 →
                 inflated
                 = Some (Finite (l * maxKeysPerItem (indexMetadata context))))
         ∧ entries result = deduplicate getIdentifier found
         ∧ (Forall identified found →
            ∃ kept,
              entries result = Returned kept
              ∧ firstOfEachIdentifier found kept))
    ∧ (maxKeysPerItem (indexMetadata context) ≤ 1 →
         Forall (λ call, optLimit call = Finite <$> limit context) calls
         ∧ usedLimit result = Finite <$> limit context
         ∧ entries result
           = Returned (mjoin (getRange (indexes context) <$> calls))).
Proof.
  unfold performRangeScan.
  destruct (scanLimitOffset context (length (boundedRange <$> bounds)))
    as [limit1 offset1] eqn:Elo.
  rewrite scanRanges_bounded. simpl.
  eexists _, _. split; [reflexivity|]. simpl.
  split; [rewrite length_fmap; reflexivity|].
  assert (∀ l : option JsNumber,
            Forall (λ call, optLimit call = l)
              ((λ b, scanRequest context l offset1
                       (keyPrefix (indexMetadata context) :: b.1)
                       (keyPrefix (indexMetadata context) :: b.2)) <$> bounds))
    as Hlimits.
  { intros l. apply Forall_fmap, Forall_forall. intros b _. simpl.
    unfold scanRequest. destruct (reverse context); reflexivity. }
  unfold scanLimitOffset in Elo. split.
  - intros Hm. rewrite (bool_decide_eq_true_2 _ Hm) in *.
    assert (limit1 = (λ l, multiply l (maxKeysPerItem (indexMetadata context)))
                       <$> limit context) as ->.
    { destruct (limit context) as [l|] eqn:El; simpl in Elo.
      - case_bool_decide as Hz; simpl in Elo; injection Elo as <- _; [|reflexivity].
        simpl. rewrite Hz. reflexivity.
      - injection Elo as <- _. reflexivity. }
    split; [apply Hlimits|]. split; [reflexivity|]. split; [|split; [reflexivity|]].
    + intros l -> Hsafe. simpl. unfold multiply.
      rewrite roundToDouble_safe by exact Hsafe. reflexivity.
    + intros Hids.
      destruct (deduplicateSeq_returns getIdentifier [] _
                  (Forall_impl _ _ _ Hids identified_getIdentifier))
        as [kept Hkept].
      exists kept. split; [exact Hkept|].
      apply keepsFirst_last; [exact Hids|]. apply deduplicate_keepsFirst, Hkept.
  - intros Hm. rewrite bool_decide_eq_false_2 in * by lia.
    assert (limit1 = Finite <$> limit context) as ->.
    { destruct (truthy (limit context)); injection Elo as <- _; reflexivity. }
    split; [apply Hlimits|]. split; reflexivity.
Qed.

(** The offset of every scan of [performRangeScan]: zero when a limit is asked
    for and there is more than one range, the requested offset (zero when none
    is requested) otherwise; the limit of every scan is the one reported as
    used. *)
Theorem scan_offset_policy
    (bounds : list (list JsValue * list JsValue)) (used : QuerySet) :
  ∃ result calls,
    performRangeScan context (boundedRange <$> bounds) used = (Returned result, calls)
    ∧ usedOffset result
      = (if truthy (limit context) && bool_decide (1 < length bounds)%nat
         then 0 else default 0 (offset context))
    ∧ Forall (λ call, optOffset call = Some (usedOffset result)
                      ∧ optLimit call = usedLimit result) calls.
Proof.
  unfold performRangeScan.
  destruct (scanLimitOffset context (length (boundedRange <$> bounds)))
    as [limit1 offset1] eqn:Elo.
  rewrite scanRanges_bounded. simpl. eexists _, _. split; [reflexivity|]. simpl.
  split.
  - unfold scanLimitOffset in Elo. rewrite length_fmap in Elo.
    destruct (truthy (limit context)); simpl; injection Elo as _ <-; reflexivity.
  - apply Forall_fmap, Forall_forall. intros b _. simpl.
    unfold scanRequest. destruct (reverse context); split; reflexivity.
Qed.

End RangeScan.

Lemma multi_key_limit_and_deduplication_witness :
  ∃ result calls,
    performRangeScan multiKeyContext
      (boundedRange <$> [([JNum 1], [getValueEdgeAfter (JNum 1)])]) []
    = (Returned result, calls)
    ∧ Forall (λ call, optLimit call = Some (Finite 30)) calls
    ∧ ∃ kept,
        entries result = Returned kept
        ∧ firstOfEachIdentifier (mjoin (getRange sampleEngine <$> calls)) kept.
Proof.
  destruct (multi_key_limit_and_deduplication multiKeyContext
              [([JNum 1], [getValueEdgeAfter (JNum 1)])] [])
    as (result & calls & Hrun & _ & Hmulti & _).
  destruct Hmulti as (Hlimits & _ & Hsafe & _ & Hkept); [reflexivity|].
  exists result, calls. split; [exact Hrun|]. split.
  - rewrite (Hsafe 10 eq_refl) in Hlimits; [exact Hlimits|]. vm_compute. discriminate.
  - apply Hkept. vm_compute in Hrun. injection Hrun as _ <-.
    simpl.
    repeat (apply Forall_cons; split;
            [eapply identified_intro; [vm_compute; reflexivity|right; reflexivity]|]).
    apply Forall_nil_2.
Defined.

(** C5: [{a: {in: [1, 2]}}] makes two ranges; asked for an offset of 5 and no
    limit, [performRangeScan] hands the offset 5 to both scans and reports it
    as used. *)
Theorem offset_kept_without_limit (engine : Engine) :
  getIndexRanges twoValueQueries aIndex =
  Returned {| usedQueries := twoValueQueries; ranges := twoValueRanges |}
  ∧ ∃ result calls,
      performRangeScan (offsetContext engine) twoValueRanges twoValueQueries
      = (Returned result, calls)
      ∧ usedOffset result = 5
      ∧ optOffset <$> calls = [Some 5; Some 5].
Proof.
  split; [vm_compute; reflexivity|].
  unfold performRangeScan.
  change (scanLimitOffset (offsetContext engine) (length twoValueRanges))
    with (@None JsNumber, 5).
  change twoValueRanges with
    (boundedRange <$> [([JNum 1], [getValueEdgeAfter (JNum 1)]);
                       ([JNum 2], [getValueEdgeAfter (JNum 2)])]).
  cbv beta iota. rewrite scanRanges_bounded. simpl. eexists _, _.
  split; [reflexivity|]. split; reflexivity.
Qed.

(** ** The full scan *)

(** [performFullScan] makes two scans of the partition of [indexName], the
    part after the undefined marker first and the part from [null] up to it
    second, and returns their results deduplicated by identifier: a forward
    scan puts the first part first, a reverse scan runs both scans backward and
    puts the second part first. *)
Theorem full_scan_two_parts (engine : Engine) (indexName : JsValue)
    (reverseArg : option bool) :
  let afterUndefined := [indexName; getValueEdgeAfter undefinedSymbol] in
  let partitionEnd := [getValueEdgeAfter indexName] in
  let partitionStart := [indexName; JNull] in
  performFullScan engine indexName reverseArg =
  if default false reverseArg
  then
    let first := {| optStart := partitionEnd; optEnd := afterUndefined;
                    optLimit := None; optOffset := None;
                    optReverse := true; optSnapshot := false |} in
    let second := {| optStart := afterUndefined; optEnd := partitionStart;
                     optLimit := None; optOffset := None;
                     optReverse := true; optSnapshot := false |} in
    (deduplicate getIdentifier (getRange engine second ++ getRange engine first),
     [first; second])
  else
    let first := plainRange afterUndefined partitionEnd in
    let second := plainRange partitionStart afterUndefined in
    (deduplicate getIdentifier (getRange engine first ++ getRange engine second),
     [first; second]).
Proof. destruct reverseArg as [[|]|]; reflexivity. Qed.

Lemma identified_run entry :
  identified entry →
  ∃ id, last (key entry) = Some id ∧ getIdentifier entry = Returned id.
Proof.
  intros (front & id & Hkey & Htype). exists id. unfold getIdentifier.
  rewrite Hkey, last_snoc. simpl. split; [reflexivity|].
  destruct Htype as [-> | ->]; reflexivity.
Qed.

Lemma deduplicateSeq_distinct registered source :
  Forall identified source →
  NoDup ((λ entry, last (key entry)) <$> source) →
  (∀ entry id, entry ∈ source → last (key entry) = Some id → id ∉ registered) →
  deduplicateSeq getIdentifier registered source = Returned source.
Proof.
  intros Hids. revert registered.
  induction Hids as [|current rest Hcurrent _ IH]; intros registered Hnd Hfresh;
    [reflexivity|].
  simpl. destruct (identified_run _ Hcurrent) as (id & Hlast & ->). simpl.
  apply NoDup_cons in Hnd as [Hnot Hnd].
  rewrite bool_decide_eq_false_2 by (apply (Hfresh current); [left|exact Hlast]).
  rewrite IH; [reflexivity|exact Hnd|].
  intros entry id' Hin Hlast' Hreg. apply elem_of_cons in Hreg as [->|Hreg].
  - apply Hnot. rewrite Hlast, <- Hlast'.
    apply (list_elem_of_fmap_2 (λ entry, last (key entry))). exact Hin.
  - revert Hreg. apply (Hfresh entry); [right; exact Hin|exact Hlast'].
Qed.

(** When the engine scans the two parts of the partition backward as it scans
    them forward, only in the opposite order, and the scanned keys end with
    identifiers that are all different, a forward [performFullScan] returns
    the part above the undefined marker followed by the part below it, and a
    reverse one returns the same entries in the opposite order. *)
Theorem full_scan_reverse_order (engine : Engine) (indexName : JsValue) :
  let afterUndefined := [indexName; getValueEdgeAfter undefinedSymbol] in
  let partitionEnd := [getValueEdgeAfter indexName] in
  let partitionStart := [indexName; JNull] in
  let backward start ending :=
    {| optStart := ending; optEnd := start; optLimit := None; optOffset := None;
       optReverse := true; optSnapshot := false |} in
  let upper := getRange engine (plainRange afterUndefined partitionEnd) in
  let lower := getRange engine (plainRange partitionStart afterUndefined) in
  getRange engine (backward afterUndefined partitionEnd) = list.reverse upper →
  getRange engine (backward partitionStart afterUndefined) = list.reverse lower →
  Forall identified (upper ++ lower) →
  NoDup ((λ entry, last (key entry)) <$> (upper ++ lower)) →
  (performFullScan engine indexName None).1 = Returned (upper ++ lower)
  ∧ (performFullScan engine indexName (Some false)).1 = Returned (upper ++ lower)
  ∧ (performFullScan engine indexName (Some true)).1
    = Returned (list.reverse (upper ++ lower)).
Proof.
  intros afterUndefined partitionEnd partitionStart backward upper lower
    Hupper Hlower Hids Hnd.
  assert (deduplicate getIdentifier (upper ++ lower) = Returned (upper ++ lower))
    as Hforward.
  { apply deduplicateSeq_distinct; [exact Hids|exact Hnd|].
    intros entry id _ _ Hin. inversion Hin. }
  rewrite !full_scan_two_parts. simpl.
  split; [exact Hforward|]. split; [exact Hforward|].
  fold afterUndefined partitionEnd partitionStart.
  unfold backward in Hupper, Hlower. rewrite Hupper, Hlower, <- reverse_app.
  apply deduplicateSeq_distinct.
  - apply Forall_reverse. exact Hids.
  - rewrite fmap_reverse, reverse_Permutation. exact Hnd.
  - intros entry id _ _ Hin. inversion Hin.
Qed.

Lemma full_scan_reverse_order_witness :
  (performFullScan orderedEngine (JStr "idx") None).1
  = Returned
      [ {| key := [JStr "idx"; getValueEdgeAfter undefinedSymbol; JNum 3];
           entryValue := "first" |};
        {| key := [JStr "idx"; getValueEdgeAfter undefinedSymbol; JNum 4];
           entryValue := "second" |};
        {| key := [JStr "idx"; JNull; JNum 1]; entryValue := "first" |};
        {| key := [JStr "idx"; JNull; JNum 2]; entryValue := "second" |} ]
  ∧ (performFullScan orderedEngine (JStr "idx") (Some true)).1
    = Returned
        [ {| key := [JStr "idx"; JNull; JNum 2]; entryValue := "second" |};
          {| key := [JStr "idx"; JNull; JNum 1]; entryValue := "first" |};
          {| key := [JStr "idx"; getValueEdgeAfter undefinedSymbol; JNum 4];
             entryValue := "second" |};
          {| key := [JStr "idx"; getValueEdgeAfter undefinedSymbol; JNum 3];
             entryValue := "first" |} ].
Proof.
  destruct (full_scan_reverse_order orderedEngine (JStr "idx"))
    as (Hforward & _ & Hbackward).
  - vm_compute. reflexivity.
  - vm_compute. reflexivity.
  - repeat (apply Forall_cons; split;
            [eapply identified_intro; [vm_compute; reflexivity|left; reflexivity]|]).
    apply Forall_nil_2.
  - apply (bool_decide_unpack _). vm_compute. exact I.
  - split; [exact Hforward|exact Hbackward].
Defined.

(** C7: [filterUsingIndex] on a context that asks for a reverse scan of the
    index [idx], with no clause and hence no range: the two scans are made
    forward, their results are concatenated in the forward order, and their
    boundaries carry [undefined] where the key prefix of the index is due,
    because the full scan is called with the context alone. *)
Theorem full_scan_ignores_context
    (narrow : IFilterContext → ScanResult → QuerySet → Outcome (QuerySet * ScanResult))
    (engine : Engine) :
  filterUsingIndex narrow (reverseContext engine) =
  let afterUndefined :=
    plainRange [JUndefined; getValueEdgeAfter undefinedSymbol]
               [getValueEdgeAfter JUndefined] in
  let upToUndefined :=
    plainRange [JUndefined; JNull]
               [JUndefined; getValueEdgeAfter undefinedSymbol] in
  (Returned
     ([], FullScanResult
            (deduplicate getIdentifier
               (getRange engine afterUndefined ++ getRange engine upToUndefined))),
   [afterUndefined; upToUndefined]).
Proof. reflexivity. Qed.

(** ** Counting *)

Lemma bounded_ranges (l : list IIndexRange) :
  Forall (λ r, is_Some (rangeEnd r)) l → ∃ bounds, l = boundedRange <$> bounds.
Proof.
  induction 1 as [|[start e] l [ending He] _ [bounds ->]].
  - exists []. reflexivity.
  - simpl in He. subst e. exists ((start, ending) :: bounds). reflexivity.
Qed.

Lemma getIndexRanges_plan dbQueries indexFields plan :
  getIndexRanges dbQueries indexFields = Returned plan →
  NoDup (usedQueries plan)
  ∧ usedQueries plan ⊆ dbQueries
  ∧ (ranges plan = [] → usedQueries plan = [])
  ∧ ∃ bounds, ranges plan = boundedRange <$> bounds.
Proof.
  destruct (getQueriesThatCanUseIndex_returns dbQueries) as (queries & Hq & _).
  rewrite (getIndexRanges_eq _ _ _ Hq).
  destruct (collectRanges queries (keys indexFields) emptyCollected)
    as [c|e] eqn:Hc; simpl; [|discriminate].
  intros [= <-].
  destruct (collectRanges_used _ _ _ Hc) as [Hnd Hin].
  pose proof (collectRanges_sameLengths _ _ _ Hc) as Hsame.
  assert (usedQueries (composeRanges c) = collectedUsed c) as Hused.
  { unfold composeRanges. case_bool_decide; reflexivity. }
  rewrite Hused. split; [exact Hnd|]. split; [|split].
  - intros x Hx. eapply getQueriesThatCanUseIndex_subset; [exact Hq|].
    apply Hin, Hx.
  - intros Hnil. destruct (decide (collectedStarts c = [])) as [Hs|Hs].
    + rewrite (collectRanges_nothing _ _ _ Hc Hs). reflexivity.
    + exfalso. apply (f_equal length) in Hnil.
      rewrite composeRanges_length, bool_decide_eq_false_2 in Hnil by exact Hs.
      simpl in Hnil.
      assert (Forall (λ s, s ≠ []) (collectedStarts c)) as Hne.
      { revert Hc. apply (collectRanges_invariant
                            (λ c, Forall (λ s : list JsValue, s ≠ []) (collectedStarts c))).
        - intros acc f r Hacc _ _ Hr. simpl. apply Forall_app. split; [exact Hacc|].
          constructor; [exact Hr|constructor].
        - constructor. }
      clear -Hnil Hne. induction Hne as [|s l Hs' _ IH]; simpl in Hnil; [lia|].
      destruct s; [contradiction|]. simpl in Hnil. apply IH. nia.
  - apply bounded_ranges, Forall_lookup. intros i r Hr.
    destruct (composeRanges_paired _ _ _ Hsame Hr) as (ending & _ & _ & ->). eauto.
Qed.

Section Counting.
Context (context : IFilterContext).

Lemma countRanges_bounded bounds count :
  countRanges context (boundedRange <$> bounds) count =
  Returned
    (count + sumZ ((λ b, getKeysCount (indexes context)
                           (plainRange (keyPrefix (indexMetadata context) :: b.1)
                                       (keyPrefix (indexMetadata context) :: b.2)))
                     <$> bounds)).
Proof.
  revert count. induction bounds as [|b bounds IH]; intros count.
  - simpl. f_equal. unfold sumZ. simpl. lia.
  - rewrite !fmap_cons. simpl. rewrite IH. f_equal.
    change (sumZ (?x :: ?l)) with (x + sumZ l). lia.
Qed.

(** C8: [countUsingIndex] throws whenever [maxKeysPerItem > 1], and, once the
    clauses are planned, whenever some clause of the query is not among the
    used ones.  For a query of distinct clauses that are all used and
    [maxKeysPerItem <= 1] it returns the key count of the whole partition of
    [keyPrefix] if the plan has no range, and otherwise the sum over the ranges
    of the plan of the key counts between the two boundaries, each with
    [keyPrefix] put in front. *)
Theorem count_using_index :
  (1 < maxKeysPerItem (indexMetadata context) →
   ∃ e, countUsingIndex context = Thrown e)
  ∧ ∀ plan,
      getIndexRanges (dbQueries context) (indexFields context) = Returned plan →
      ((∃ x, x ∈ dbQueries context ∧ x ∉ usedQueries plan) →
       countUsingIndex context = Thrown CannotCountUnresolved)
      ∧ (NoDup (dbQueries context) →
         (∀ x, x ∈ dbQueries context → x ∈ usedQueries plan) →
         maxKeysPerItem (indexMetadata context) ≤ 1 →
         (ranges plan = [] →
          countUsingIndex context =
          Returned (getKeysCount (indexes context)
                      (plainRange [keyPrefix (indexMetadata context)]
                         [getValueEdgeAfter (keyPrefix (indexMetadata context))])))
         ∧ (ranges plan ≠ [] →
            ∃ bounds,
              ranges plan = boundedRange <$> bounds
              ∧ countUsingIndex context =
                Returned
                  (sumZ ((λ b, getKeysCount (indexes context)
                                 (plainRange
                                    (keyPrefix (indexMetadata context) :: b.1)
                                    (keyPrefix (indexMetadata context) :: b.2)))
                           <$> bounds)))).
Proof.
  split.
  - intros Hm. unfold countUsingIndex.
    destruct (getIndexRanges _ _) as [plan|e]; simpl; [|eauto].
    destruct (negb _); [eauto|].
    rewrite bool_decide_eq_true_2 by exact Hm. eauto.
  - intros plan Hplan. unfold countUsingIndex. rewrite Hplan. simpl.
    destruct (getIndexRanges_plan _ _ _ Hplan) as (Hnd & Hsub & _ & bounds & Hb).
    split.
    + intros (x & Hx & Hnot).
      assert (length (usedQueries plan) ≠ length (dbQueries context)) as Hne.
      { assert (x :: usedQueries plan ⊆+ dbQueries context) as Hle.
        { apply NoDup_submseteq.
          - apply NoDup_cons. auto.
          - intros y Hy. apply elem_of_cons in Hy as [->|Hy]; auto. }
        apply submseteq_length in Hle. simpl in Hle. lia. }
      rewrite bool_decide_eq_false_2 by exact Hne. reflexivity.
    + intros Hdistinct Hall Hm.
      assert (length (usedQueries plan) = length (dbQueries context)) as Heq.
      { apply Nat.le_antisymm; apply submseteq_length, NoDup_submseteq; auto. }
      rewrite bool_decide_eq_true_2 by exact Heq. simpl.
      rewrite bool_decide_eq_false_2 by lia.
      split.
      * intros ->. reflexivity.
      * intros Hne. exists bounds. split; [exact Hb|].
        rewrite bool_decide_eq_false_2
          by (destruct (ranges plan); [contradiction|discriminate]).
        rewrite Hb, countRanges_bounded. reflexivity.
Qed.

End Counting.

Lemma count_using_index_witness :
  (∃ e, countUsingIndex multiKeyContext = Thrown e)
  ∧ countUsingIndex countContext = Returned 2.
Proof.
  split.
  - apply (count_using_index multiKeyContext). reflexivity.
  - destruct (count_using_index countContext) as [_ Hplanned].
    destruct (Hplanned {| usedQueries := ageQueries;
                          ranges := [boundedRange ([JNum 18], [JNum 65])] |})
      as [_ Hcount].
    + vm_compute. reflexivity.
    + destruct Hcount as [_ Hsum].
      * repeat constructor; vm_compute; intros Hin;
          repeat (apply elem_of_cons in Hin as [Hin|Hin]; [discriminate|]);
          inversion Hin.
      * intros x Hx. exact Hx.
      * vm_compute. discriminate.
      * destruct Hsum as (bounds & Hb & ->); [discriminate|].
        destruct bounds as [|[s e] [|b bounds]]; try discriminate.
        reflexivity.
Defined.

(** ** The classifier as a comparator *)

(** [sortByFilterSpecificity] compares two clauses by the positions of their
    comparators in [canUseIndex], a comparator outside it coming last: it
    answers -1, 0 or 1 as the first clause comes before, with or after the
    second, and throws exactly when the comparators differ and neither is in
    [canUseIndex]. *)
Theorem specificity_comparator (a b : DbQuery) :
  let aComparator := comparator (getFilterStatement a) in
  let bComparator := comparator (getFilterStatement b) in
  (aComparator = bComparator ∨ usable a ∨ usable b →
   sortByFilterSpecificity a b =
   Returned match (specificity aComparator ?= specificity bComparator)%nat with
            | Lt => -1
            | Eq => 0
            | Gt => 1
            end)
  ∧ (aComparator ≠ bComparator → ¬ usable a → ¬ usable b →
     sortByFilterSpecificity a b =
     Thrown (UnexpectedComparatorPair aComparator bComparator)).
Proof.
  unfold usable, sortByFilterSpecificity.
  destruct (comparator (getFilterStatement a)), (comparator (getFilterStatement b));
    (split;
     [ intros [H|[H|H]]; try reflexivity; try discriminate H;
       apply (bool_decide_eq_true_2 _) in H; discriminate H
     | intros Hne Ha Hb; try reflexivity; try (contradiction Hne; reflexivity);
       exfalso;
       first [ solve [apply Ha; repeat constructor]
             | solve [apply Hb; repeat constructor] ] ]).
Qed.

(** *** Clauses of one comparator keep their order *)

Lemma sortByFilterSpecificity_same a b z :
  sortByFilterSpecificity a b = Returned z → 0 < z →
  comparator (getFilterStatement a) ≠ comparator (getFilterStatement b).
Proof.
  unfold sortByFilterSpecificity. intros H Hz Heq.
  rewrite (bool_decide_eq_true_2 _ Heq) in H. injection H as <-. lia.
Qed.

Lemma insertSorted_withComparator c x sorted l :
  insertSorted sortByFilterSpecificity x sorted = Returned l →
  filter (λ q, comparator (getFilterStatement q) = c) l
  = filter (λ q, comparator (getFilterStatement q) = c) (x :: sorted).
Proof.
  revert l. induction sorted as [|y rest IH]; intros l; simpl.
  - intros [= <-]. reflexivity.
  - destruct (sortByFilterSpecificity x y) as [z|] eqn:Ez; simpl; [|discriminate].
    case_bool_decide as Hz.
    + intros [= <-]. reflexivity.
    + destruct (insertSorted sortByFilterSpecificity x rest) as [l'|];
        simpl; [|discriminate].
      intros [= <-].
      assert (comparator (getFilterStatement x) ≠ comparator (getFilterStatement y))
        as Hxy by (eapply sortByFilterSpecificity_same; [exact Ez|lia]).
      specialize (IH l' eq_refl).
      destruct (decide (comparator (getFilterStatement y) = c)) as [Hy|Hy].
      * rewrite (filter_cons_True _ y) by exact Hy. rewrite IH.
        rewrite !(filter_cons_False _ x) by congruence.
        rewrite (filter_cons_True _ y) by exact Hy. reflexivity.
      * rewrite (filter_cons_False _ y) by exact Hy. rewrite IH.
        destruct (decide (comparator (getFilterStatement x) = c)) as [Hx|Hx].
        -- rewrite !(filter_cons_True _ x) by exact Hx.
           rewrite (filter_cons_False _ y) by exact Hy. reflexivity.
        -- rewrite !(filter_cons_False _ x) by exact Hx.
           rewrite (filter_cons_False _ y) by exact Hy. reflexivity.
Qed.

Lemma arraySort_withComparator c arr l :
  arraySort sortByFilterSpecificity arr = Returned l →
  filter (λ q, comparator (getFilterStatement q) = c) l
  = filter (λ q, comparator (getFilterStatement q) = c) arr.
Proof.
  revert l. induction arr as [|x rest IH]; intros l; simpl.
  - intros [= <-]. reflexivity.
  - destruct (arraySort sortByFilterSpecificity rest) as [sorted|];
      simpl; [|discriminate].
    intros Hl. rewrite (insertSorted_withComparator _ _ _ _ Hl).
    destruct (decide (comparator (getFilterStatement x) = c)) as [Hx|Hx].
    + rewrite !(filter_cons_True _ x) by exact Hx. f_equal. apply IH. reflexivity.
    + rewrite !(filter_cons_False _ x) by exact Hx. apply IH. reflexivity.
Qed.

(** [getQueriesThatCanUseIndex] is stable: the clauses of one and the same
    comparator of [canUseIndex] come out in the order they are given in. *)
Theorem classification_is_stable (all : list DbQuery) :
  ∃ queries,
    getQueriesThatCanUseIndex all = Returned queries
    ∧ ∀ c, c ∈ canUseIndex →
        filter (λ q, comparator (getFilterStatement q) = c) queries
        = filter (λ q, comparator (getFilterStatement q) = c) all.
Proof.
  destruct (getQueriesThatCanUseIndex_returns all) as (queries & Hq & _).
  exists queries. split; [exact Hq|]. intros c Hc.
  rewrite (arraySort_withComparator c _ _ Hq).
  rewrite list_filter_filter. apply list_filter_iff.
  intros q. split; [tauto|]. intros Hq'. split; [exact Hq'|].
  rewrite Hq'. exact Hc.
Qed.

(** ** The clauses a plan marks used *)

Lemma stable_member_usedAdd x q : stable (λ st, x ∈ used st) (usedAdd q).
Proof. intros st H. simpl. apply elem_of_setAdd. left. exact H. Qed.

Lemma stable_member_pushStart x v : stable (λ st, x ∈ used st) (pushStart v).
Proof. intros st H. exact H. Qed.

Lemma stable_member_pushEnding x v : stable (λ st, x ∈ used st) (pushEnding v).
Proof. intros st H. exact H. Qed.

Lemma stable_member_findRangeEdge x queries cmp edge :
  stable (λ st, x ∈ used st) (findRangeEdge queries cmp edge).
Proof.
  induction queries as [|dbQuery rest IH]; simpl;
    stable_walk_with ltac:(apply stable_member_usedAdd).
Qed.

Lemma stable_member_pushValues x statement arr hasNull :
  stable (λ st, x ∈ used st) (pushValues statement arr hasNull).
Proof.
  revert hasNull. induction arr as [|item rest IH]; intros hasNull; simpl;
    stable_walk_with
      ltac:(first [ apply stable_member_pushStart
                  | apply stable_member_pushEnding ]).
Qed.

(** A call of [extractRanges] on a field that some clause addresses, from the
    point where the first such clause is marked used. *)
Lemma extractRanges_from_anchor queries indexField anchor others :
  filter (λ q, dbQueryToDottedField q = indexField) queries = anchor :: others →
  extractRanges queries indexField =
  (if bool_decide (comparator (getFilterStatement anchor) = IN)
      && negb (isArray (value (getFilterStatement anchor)))
   then throw InArgumentNotArray
   else
     match comparator (getFilterStatement anchor) with
     | EQ | IN => equalityCase (getFilterStatement anchor)
     | LT | LTE => upperAnchorCase (anchor :: others) (getFilterStatement anchor)
     | GT | GTE => lowerAnchorCase (anchor :: others) (getFilterStatement anchor)
     | NE | NIN => throw (UnsupportedComparator (comparator (getFilterStatement anchor)))
     end;; getState)
    {| rangeStarts := []; rangeEndings := []; used := [anchor] |}.
Proof.
  intros Hfilter. unfold extractRanges, extractRangesBody. rewrite Hfilter.
  rewrite Extract_bind_run. reflexivity.
Qed.

Lemma extractRanges_no_clause queries indexField :
  filter (λ q, dbQueryToDottedField q = indexField) queries = [] →
  extractRanges queries indexField = (Returned emptyExtract, emptyExtract).
Proof.
  intros Hfilter. unfold extractRanges, extractRangesBody. rewrite Hfilter.
  reflexivity.
Qed.

Lemma extractRanges_anchor_used queries indexField anchor others :
  filter (λ q, dbQueryToDottedField q = indexField) queries = anchor :: others →
  anchor ∈ used (extractRanges queries indexField).2.
Proof.
  intros Hfilter. rewrite (extractRanges_from_anchor _ _ _ _ Hfilter).
  match goal with
  | |- _ ∈ used (?m ?st0).2 =>
      apply (λ H : stable (λ s, anchor ∈ used s) m, H st0)
  end; [|simpl; left].
  unfold equalityCase, upperAnchorCase, lowerAnchorCase.
  destruct (comparator (getFilterStatement anchor));
    stable_walk_with
      ltac:(first [ apply stable_member_findRangeEdge
                  | apply stable_member_pushValues
                  | apply stable_member_usedAdd
                  | apply stable_member_pushStart
                  | apply stable_member_pushEnding ]).
Qed.

(** The loop of the composer takes the fields of the index in turn and stops
    at the first one without a range: the fields it has taken are each
    addressed by a used clause, and every used clause addresses one of
    them. *)
Lemma collectRanges_prefix queries fields acc c :
  collectRanges queries fields acc = Returned c →
  ∃ k, (k ≤ length fields)%nat
     ∧ length (collectedStarts c) = (length (collectedStarts acc) + k)%nat
     ∧ (∀ x, x ∈ collectedUsed acc → x ∈ collectedUsed c)
     ∧ (∀ x, x ∈ collectedUsed c →
             x ∈ collectedUsed acc
             ∨ (x ∈ queries ∧ dbQueryToDottedField x ∈ take k fields))
     ∧ (∀ field, field ∈ take k fields →
                 ∃ x, x ∈ collectedUsed c ∧ dbQueryToDottedField x = field).
Proof.
  revert acc. induction fields as [|field rest IH]; intros acc; simpl.
  - intros [= <-]. exists 0%nat. simpl.
    repeat split; [lia|lia|auto|auto|]. intros f Hf. inversion Hf.
  - destruct (extractRanges queries field).1 as [r|e] eqn:Er; simpl; [|discriminate].
    case_bool_decide as Hlen.
    + intros [= <-]. exists 0%nat. simpl.
      repeat split; [lia|lia|auto|auto|]. intros f Hf. inversion Hf.
    + intros Hc. destruct (IH _ Hc) as (k & Hk & Hstarts & Hmono & Hused & Hfields).
      pose proof (extractRanges_returned _ _ _ Er) as Hr.
      destruct (extractRanges_usedWithin queries field) as [_ Hsub].
      exists (S k). simpl in *. rewrite length_app in Hstarts. simpl in Hstarts.
      split; [lia|]. split; [lia|]. split; [|split].
      * intros x Hx. apply Hmono, elem_of_foldl_setAdd. left. exact Hx.
      * intros x Hx. destruct (Hused x Hx) as [Hx'|[Hq Hf]].
        -- apply elem_of_foldl_setAdd in Hx' as [Hx'|Hx']; [left; exact Hx'|].
           right. rewrite Hr in Hx'.
           apply Hsub, list_elem_of_filter in Hx' as [-> Hq]. split; [exact Hq|left].
        -- right. split; [exact Hq|right; exact Hf].
      * intros f Hf. apply elem_of_cons in Hf as [->|Hf]; [|apply Hfields, Hf].
        destruct (filter (λ q, dbQueryToDottedField q = field) queries)
          as [|anchor others] eqn:Efilter.
        { rewrite (extractRanges_no_clause _ _ Efilter) in Er.
          injection Er as <-. contradiction Hlen. reflexivity. }
        exists anchor. split.
        -- apply Hmono, elem_of_foldl_setAdd. right. rewrite Hr.
           eapply extractRanges_anchor_used, Efilter.
        -- assert (anchor ∈ filter (λ q, dbQueryToDottedField q = field) queries)
             as Hin by (rewrite Efilter; left).
           apply list_elem_of_filter in Hin as [Hfield _]. exact Hfield.
Qed.

(** The used clauses of a plan are distinct clauses of the query whose
    comparator is in [canUseIndex]; they address the first [k] fields of the
    index, for some [k], and each of these fields is addressed by one of them;
    there are ranges only if [k] is not zero. *)
Theorem plan_used_clauses (dbQueries : list DbQuery) (indexFields : IndexFields)
    (plan : Plan) :
  getIndexRanges dbQueries indexFields = Returned plan →
  NoDup (usedQueries plan)
  ∧ ∃ k, (k ≤ length indexFields)%nat
       ∧ (∀ q, q ∈ usedQueries plan →
               q ∈ dbQueries ∧ usable q
               ∧ dbQueryToDottedField q ∈ take k (keys indexFields))
       ∧ (∀ field, field ∈ take k (keys indexFields) →
                   ∃ q, q ∈ usedQueries plan ∧ dbQueryToDottedField q = field)
       ∧ (ranges plan ≠ [] → (0 < k)%nat).
Proof.
  destruct (getQueriesThatCanUseIndex_returns dbQueries) as (queries & Hq & Hperm).
  rewrite (getIndexRanges_eq _ _ _ Hq).
  destruct (collectRanges queries (keys indexFields) emptyCollected)
    as [c|e] eqn:Hc; simpl; [|discriminate].
  intros [= <-].
  assert (usedQueries (composeRanges c) = collectedUsed c) as ->.
  { unfold composeRanges. case_bool_decide; reflexivity. }
  split; [apply (collectRanges_used _ _ _ Hc)|].
  destruct (collectRanges_prefix _ _ _ _ Hc) as (k & Hk & Hstarts & _ & Hused & Hfields).
  exists k. unfold keys in Hk. rewrite length_fmap in Hk.
  split; [exact Hk|]. split; [|split].
  - intros q Hin. destruct (Hused q Hin) as [Hnil|[Hin' Hfield]]; [inversion Hnil|].
    rewrite Hperm in Hin'. apply list_elem_of_filter in Hin' as [Hu Hd]. auto.
  - exact Hfields.
  - intros Hranges. destruct k; [|lia]. contradiction Hranges.
    rewrite composeRanges_nothing; [reflexivity|].
    simpl in Hstarts. destruct (collectedStarts c); [reflexivity|discriminate].
Qed.

Lemma plan_used_clauses_witness :
  NoDup [clause 0 "a" EQ (JStr "x")]
  ∧ ∃ k, (k ≤ 3)%nat
       ∧ (∀ q, q ∈ [clause 0 "a" EQ (JStr "x")] →
               q ∈ gapQueries ∧ usable q
               ∧ dbQueryToDottedField q ∈ take k (keys gapIndex))
       ∧ (∀ field, field ∈ take k (keys gapIndex) →
                   ∃ q, q ∈ [clause 0 "a" EQ (JStr "x")]
                        ∧ dbQueryToDottedField q = field)
       ∧ ([boundedRange ([JStr "x"], [getValueEdgeAfter (JStr "x")])] ≠ [] →
          (0 < k)%nat).
Proof.
  apply (plan_used_clauses gapQueries gapIndex
           {| usedQueries := [clause 0 "a" EQ (JStr "x")];
              ranges := [boundedRange ([JStr "x"], [getValueEdgeAfter (JStr "x")])] |}).
  vm_compute. reflexivity.
Defined.

(** ** The clauses a plan depends on *)

Lemma extractRanges_local queries queries' indexField :
  filter (λ q, dbQueryToDottedField q = indexField) queries
  = filter (λ q, dbQueryToDottedField q = indexField) queries' →
  extractRanges queries indexField = extractRanges queries' indexField.
Proof.
  intros H. unfold extractRanges, extractRangesBody. cbv zeta. rewrite H.
  reflexivity.
Qed.

Lemma collectRanges_local queries queries' fields acc :
  (∀ field, field ∈ fields →
     filter (λ q, dbQueryToDottedField q = field) queries
     = filter (λ q, dbQueryToDottedField q = field) queries') →
  collectRanges queries fields acc = collectRanges queries' fields acc.
Proof.
  revert acc. induction fields as [|field rest IH]; intros acc Hsame; [reflexivity|].
  simpl. rewrite (extractRanges_local queries queries' field) by (apply Hsame; left).
  destruct (extractRanges queries' field).1 as [r|e]; simpl; [|reflexivity].
  case_bool_decide; [reflexivity|]. apply IH.
  intros f Hf. apply Hsame. right. exact Hf.
Qed.

Lemma bySpecificity_transitive : Transitive bySpecificity.
Proof. unfold bySpecificity. intros a b c. lia. Qed.

Lemma insertSorted_first x sorted :
  usable x → Forall usable sorted → Forall (bySpecificity x) sorted →
  insertSorted sortByFilterSpecificity x sorted = Returned (x :: sorted).
Proof.
  intros Hx Hall Hle. destruct sorted as [|y rest]; [reflexivity|]. simpl.
  apply Forall_cons in Hall as [Hy _]. apply Forall_cons in Hle as [Hxy _].
  destruct (sortByFilterSpecificity_sign x y Hx Hy) as (z & -> & Hz & _). simpl.
  rewrite bool_decide_eq_true_2 by (apply Hz, Hxy). reflexivity.
Qed.

(** Sorting commutes with dropping clauses. *)
Lemma insertSorted_filter (P : DbQuery → Prop) `{!∀ q, Decision (P q)} x sorted l :
  usable x → Forall usable sorted → StronglySorted bySpecificity sorted →
  insertSorted sortByFilterSpecificity x sorted = Returned l →
  (P x → insertSorted sortByFilterSpecificity x (filter P sorted)
         = Returned (filter P l))
  ∧ (¬ P x → filter P l = filter P sorted).
Proof.
  intros Hx Hall Hsorted. revert l.
  induction Hsorted as [|y rest Hrest IH Hy_le]; intros l; simpl.
  - intros [= <-]. split; intros HP.
    + rewrite filter_cons_True by exact HP. reflexivity.
    + rewrite filter_cons_False by exact HP. reflexivity.
  - apply Forall_cons in Hall as [Hy Hall]. specialize (IH Hall).
    destruct (sortByFilterSpecificity_sign x y Hx Hy) as (z & Ez & Hle & _).
    rewrite Ez. simpl. case_bool_decide as Hz.
    + intros [= <-]. split; intros HP.
      * rewrite (filter_cons_True _ x) by exact HP.
        apply insertSorted_first; [exact Hx| |].
        -- apply Forall_forall. intros w Hw. apply list_elem_of_filter in Hw as [_ Hw].
           rewrite Forall_forall in Hall.
           apply elem_of_cons in Hw as [->|Hw]; auto.
        -- apply Forall_forall. intros w Hw. apply list_elem_of_filter in Hw as [_ Hw].
           apply elem_of_cons in Hw as [->|Hw]; [apply Hle, Hz|].
           rewrite Forall_forall in Hy_le.
           apply (bySpecificity_transitive x y w); [apply Hle, Hz|auto].
      * rewrite (filter_cons_False _ x) by exact HP. reflexivity.
    + destruct (insertSorted sortByFilterSpecificity x rest) as [l'|];
        simpl; [|discriminate].
      intros [= <-]. destruct (IH l' eq_refl) as [IHin IHout]. split; intros HP.
      * destruct (decide (P y)) as [HPy|HPy].
        -- rewrite !(filter_cons_True _ y) by exact HPy. simpl. rewrite Ez. simpl.
           rewrite bool_decide_eq_false_2 by exact Hz.
           rewrite (IHin HP). reflexivity.
        -- rewrite !(filter_cons_False _ y) by exact HPy. apply IHin, HP.
      * destruct (decide (P y)) as [HPy|HPy].
        -- rewrite !(filter_cons_True _ y) by exact HPy. f_equal. apply IHout, HP.
        -- rewrite !(filter_cons_False _ y) by exact HPy. apply IHout, HP.
Qed.

Lemma arraySort_filter (P : DbQuery → Prop) `{!∀ q, Decision (P q)} arr l :
  Forall usable arr →
  arraySort sortByFilterSpecificity arr = Returned l →
  arraySort sortByFilterSpecificity (filter P arr) = Returned (filter P l).
Proof.
  intros Hall. revert l. induction Hall as [|x rest Hx Hrest IH]; intros l; simpl.
  - intros [= <-]. reflexivity.
  - destruct (arraySort sortByFilterSpecificity rest) as [sorted|] eqn:Es;
      simpl; [|discriminate].
    intros Hl. specialize (IH sorted eq_refl).
    destruct (arraySort_sorted rest sorted Hrest Es) as [Hsorted Husable].
    apply Sorted_StronglySorted in Hsorted; [|apply bySpecificity_transitive].
    destruct (insertSorted_filter P x sorted l Hx Husable Hsorted Hl) as [Hin Hout].
    destruct (decide (P x)) as [HP|HP].
    + rewrite filter_cons_True by exact HP. simpl. rewrite IH. simpl. apply Hin, HP.
    + rewrite filter_cons_False by exact HP. rewrite IH, (Hout HP). reflexivity.
Qed.

(** A plan depends only on the clauses that can use an index and address a
    field of the index: the other clauses of a query can be left out, or
    added, without any change to the ranges, to the used clauses or to the
    exception thrown. *)
Theorem plan_ignores_other_clauses (dbQueries : list DbQuery)
    (indexFields : IndexFields) :
  getIndexRanges dbQueries indexFields
  = getIndexRanges
      (filter (λ q, usable q ∧ dbQueryToDottedField q ∈ keys indexFields) dbQueries)
      indexFields.
Proof.
  destruct (getQueriesThatCanUseIndex_returns dbQueries) as (queries & Hq & _).
  set (onIndex := λ q, dbQueryToDottedField q ∈ keys indexFields).
  assert (getQueriesThatCanUseIndex
            (filter (λ q, usable q ∧ onIndex q) dbQueries)
          = Returned (filter onIndex queries)) as Hq'.
  { unfold getQueriesThatCanUseIndex in *.
    assert (filter (λ q, comparator (getFilterStatement q) ∈ canUseIndex)
              (filter (λ q, usable q ∧ onIndex q) dbQueries)
            = filter onIndex (filter usable dbQueries)) as ->.
    { rewrite !list_filter_filter. apply list_filter_iff. intros q.
      unfold usable. tauto. }
    apply arraySort_filter; [|exact Hq].
    apply Forall_forall. intros x Hx. apply list_elem_of_filter in Hx. tauto. }
  rewrite (getIndexRanges_eq _ _ _ Hq), (getIndexRanges_eq _ _ _ Hq').
  f_equal. apply collectRanges_local. intros field Hfield.
  rewrite list_filter_filter. apply list_filter_iff. intros q.
  split; [|tauto]. intros Hf. split; [exact Hf|]. unfold onIndex. rewrite Hf.
  exact Hfield.
Qed.

(** ** Fields that stay unconstrained *)

Lemma stable_nonempty_pushStart v : stable (λ st, rangeStarts st ≠ []) (pushStart v).
Proof. intros st _. simpl. intros H. apply app_eq_nil in H as [_ [=]]. Qed.

Lemma stable_nonempty_pushEnding v : stable (λ st, rangeStarts st ≠ []) (pushEnding v).
Proof. intros st H. exact H. Qed.

Lemma stable_nonempty_pushValues statement arr hasNull :
  stable (λ st, rangeStarts st ≠ []) (pushValues statement arr hasNull).
Proof.
  revert hasNull. induction arr as [|item rest IH]; intros hasNull; simpl;
    stable_walk_with
      ltac:(first [ apply stable_nonempty_pushStart
                  | apply stable_nonempty_pushEnding ]).
Qed.

Lemma pushes_throw {A} e : pushes (@throw A e).
Proof. intros st a st' [=]. Qed.

Lemma pushes_pushStart v : pushes (pushStart v).
Proof.
  intros st a st' [= _ <-]. simpl. intros H. apply app_eq_nil in H as [_ [=]].
Qed.

Lemma pushes_if {A} (b : bool) (m1 m2 : Extract A) :
  pushes m1 → pushes m2 → pushes (if b then m1 else m2).
Proof. destruct b; auto. Qed.

Lemma pushes_bind_r {A B} (m : Extract A) (f : A → Extract B) :
  (∀ a, pushes (f a)) → pushes (m ≫= f).
Proof.
  intros Hf st b st'. rewrite Extract_bind_run.
  destruct (m st) as [[a|e] st1]; [apply Hf|intros [=]].
Qed.

Lemma pushes_bind_l {A B} (m : Extract A) (f : A → Extract B) :
  pushes m → (∀ a, stable (λ st, rangeStarts st ≠ []) (f a)) → pushes (m ≫= f).
Proof.
  intros Hm Hf st b st'. rewrite Extract_bind_run.
  destruct (m st) as [[a|e] st1] eqn:Em; [|intros [=]].
  intros Hrun. specialize (Hf a st1 (Hm _ _ _ Em)). rewrite Hrun in Hf. exact Hf.
Qed.

Lemma pushes_pushValues statement item rest hasNull :
  pushes (pushValues statement (item :: rest) hasNull).
Proof.
  simpl. apply pushes_bind_r. intros v.
  apply pushes_bind_l; [apply pushes_pushStart|]. intros _.
  apply stable_bind; [apply stable_nonempty_pushEnding|]. intros _.
  apply stable_nonempty_pushValues.
Qed.

Lemma pushes_upperAnchorCase fieldQueries statement :
  pushes (upperAnchorCase fieldQueries statement).
Proof.
  unfold upperAnchorCase. apply pushes_if; [apply pushes_throw|].
  do 3 (apply pushes_bind_r; intros ?).
  apply pushes_bind_l; [apply pushes_pushStart|]. intros _.
  apply stable_nonempty_pushEnding.
Qed.

Lemma pushes_lowerAnchorCase fieldQueries statement :
  pushes (lowerAnchorCase fieldQueries statement).
Proof.
  unfold lowerAnchorCase. apply pushes_if; [apply pushes_throw|].
  do 3 (apply pushes_bind_r; intros ?).
  apply pushes_bind_l; [apply pushes_pushStart|]. intros _.
  apply stable_nonempty_pushEnding.
Qed.

(** [extractRanges] returns without a range for a field in two cases only:
    no clause addresses the field, or the first clause that does is an [EQ] or
    [IN] clause whose operand is the empty array. *)
Theorem field_left_unconstrained (queries : list DbQuery) (indexField : string) :
  (∃ r, (extractRanges queries indexField).1 = Returned r ∧ rangeStarts r = [])
  ↔ match filter (λ q, dbQueryToDottedField q = indexField) queries with
    | [] => True
    | anchor :: _ => emptyOperand anchor
    end.
Proof.
  destruct (filter (λ q, dbQueryToDottedField q = indexField) queries)
    as [|anchor others] eqn:Efilter.
  { split; [auto|]. intros _. exists emptyExtract.
    rewrite (extractRanges_no_clause _ _ Efilter). auto. }
  split.
  - intros (r & Hr & Hnil). pose proof (extractRanges_returned _ _ _ Hr) as Hst.
    rewrite Hst in Hnil. clear Hst. revert Hr Hnil.
    rewrite (extractRanges_from_anchor _ _ _ _ Efilter).
    destruct (decide (emptyOperand anchor)) as [|Hne]; [auto|].
    intros Hr Hnil. exfalso.
    match type of Hr with
    | (?m ?st0).1 = _ =>
        assert (pushes m) as Hpushes; [|destruct (m st0) as [o st'] eqn:Em]
    end.
    + apply pushes_if; [apply pushes_throw|].
      apply pushes_bind_l; [|intros _; apply stable_getState].
      unfold emptyOperand in Hne.
      destruct (comparator (getFilterStatement anchor));
        try apply pushes_throw;
        try apply pushes_upperAnchorCase;
        try apply pushes_lowerAnchorCase;
        (unfold equalityCase;
         destruct (value (getFilterStatement anchor)) as [| | | | | | | |[|item rest]];
         try (apply pushes_bind_l;
              [ apply pushes_pushValues
              | intros ?;
                stable_walk_with
                  ltac:(first [ apply stable_nonempty_pushStart
                              | apply stable_nonempty_pushEnding ]) ]);
         contradiction Hne; auto).
    + simpl in Hr, Hnil. subst o. apply (Hpushes _ _ _ Em), Hnil.
  - intros [Hcmp Hvalue].
    rewrite (extractRanges_from_anchor _ _ _ _ Efilter), Hvalue. simpl.
    rewrite andb_false_r.
    assert (match comparator (getFilterStatement anchor) with
            | EQ | IN => equalityCase (getFilterStatement anchor)
            | LT | LTE =>
                upperAnchorCase (anchor :: others) (getFilterStatement anchor)
            | GT | GTE =>
                lowerAnchorCase (anchor :: others) (getFilterStatement anchor)
            | NE | NIN =>
                throw (UnsupportedComparator (comparator (getFilterStatement anchor)))
            end = equalityCase (getFilterStatement anchor)) as ->.
    { destruct Hcmp as [-> | ->]; reflexivity. }
    rewrite Extract_bind_run, equalityCase_scalars.
    2: { unfold operandValues. rewrite Hvalue. constructor. }
    unfold operandValues. rewrite Hvalue. simpl. eexists. split; reflexivity.
Qed.

(** When no clause that can use an index addresses the first field of the
    index, the plan is empty: no range and no used clause, whatever clauses
    address the other fields. *)
Theorem unconstrained_first_field (dbQueries : list DbQuery) (field : string)
    (order : Z) (rest : IndexFields) :
  (∀ q, q ∈ dbQueries → usable q → dbQueryToDottedField q ≠ field) →
  getIndexRanges dbQueries ((field, order) :: rest)
  = Returned {| usedQueries := []; ranges := [] |}.
Proof.
  intros Hnone.
  destruct (getQueriesThatCanUseIndex_returns dbQueries) as (queries & Hq & Hperm).
  rewrite (getIndexRanges_eq _ _ _ Hq). simpl.
  rewrite extractRanges_no_clause; [reflexivity|].
  destruct (filter (λ q, dbQueryToDottedField q = field) queries)
    as [|q others] eqn:Efilter; [reflexivity|].
  assert (q ∈ filter (λ q, dbQueryToDottedField q = field) queries) as Hin
    by (rewrite Efilter; left).
  apply list_elem_of_filter in Hin as [Hfield Hin].
  rewrite Hperm in Hin. apply list_elem_of_filter in Hin as [Hu Hd].
  contradiction (Hnone q Hd Hu).
Qed.

Lemma unconstrained_first_field_witness :
  getIndexRanges [clause 0 "title" EQ (JStr "foo")] [("category", 1)]
  = Returned {| usedQueries := []; ranges := [] |}.
Proof.
  apply (unconstrained_first_field [clause 0 "title" EQ (JStr "foo")] "category" 1 []).
  intros q Hq _. apply list_elem_of_singleton in Hq as ->. discriminate.
Defined.

(** ** Operands that make the extractor throw *)

(** The first clause on a field decides how [extractRanges] fails: a range
    comparator with an array operand, or with an operand that is an object,
    and a comparator outside [canUseIndex] each throw before anything is
    pushed and before any other clause is looked at. *)
Theorem anchor_operand_errors (queries : list DbQuery) (indexField : string)
    (anchor : DbQuery) (others : list DbQuery) :
  filter (λ q, dbQueryToDottedField q = indexField) queries = anchor :: others →
  (comparator (getFilterStatement anchor) ∈ [LT; LTE; GT; GTE] →
   isArray (value (getFilterStatement anchor)) = true →
   extractRanges queries indexField =
   (Thrown (ValueMustNotBeArray (comparator (getFilterStatement anchor))),
    anchorOnly anchor))
  ∧ (comparator (getFilterStatement anchor) ∈ [LT; LTE; GT; GTE] →
     isArray (value (getFilterStatement anchor)) = false →
     isNonNullObject (value (getFilterStatement anchor)) = true →
     extractRanges queries indexField =
     (Thrown (BadFilterValue (comparator (getFilterStatement anchor))),
      anchorOnly anchor))
  ∧ (comparator (getFilterStatement anchor) ∈ [NE; NIN] →
     extractRanges queries indexField =
     (Thrown (UnsupportedComparator (comparator (getFilterStatement anchor))),
      anchorOnly anchor)).
Proof.
  intros Hfilter. rewrite (extractRanges_from_anchor _ _ _ _ Hfilter).
  unfold upperAnchorCase, lowerAnchorCase, anchorOnly.
  split; [|split].
  - intros Hc Harr. rewrite Harr.
    destruct (comparator (getFilterStatement anchor));
      try (apply (bool_decide_eq_true_2 _) in Hc; discriminate Hc); reflexivity.
  - intros Hc Harr Hobject. rewrite Harr.
    unfold liftOutcome, toIndexFieldValue. rewrite Hobject.
    destruct (comparator (getFilterStatement anchor));
      try (apply (bool_decide_eq_true_2 _) in Hc; discriminate Hc); reflexivity.
  - intros Hc.
    destruct (comparator (getFilterStatement anchor));
      try (apply (bool_decide_eq_true_2 _) in Hc; discriminate Hc); reflexivity.
Qed.

Lemma anchor_operand_errors_witness :
  extractRanges [clause 0 "a" GT (JArray [JNum 1]); clause 1 "a" LT (JNum 5)] "a"
  = (Thrown (ValueMustNotBeArray GT), anchorOnly (clause 0 "a" GT (JArray [JNum 1])))
  ∧ extractRanges [clause 0 "a" LTE (JRegExp "x"); clause 1 "a" GT (JNum 5)] "a"
    = (Thrown (BadFilterValue LTE), anchorOnly (clause 0 "a" LTE (JRegExp "x")))
  ∧ extractRanges [clause 0 "a" NE (JNum 1); clause 1 "a" EQ (JNum 5)] "a"
    = (Thrown (UnsupportedComparator NE), anchorOnly (clause 0 "a" NE (JNum 1))).
Proof.
  split; [|split].
  - apply (anchor_operand_errors _ "a" (clause 0 "a" GT (JArray [JNum 1]))
             [clause 1 "a" LT (JNum 5)]); [reflexivity| |reflexivity].
    simpl. repeat constructor.
  - apply (anchor_operand_errors _ "a" (clause 0 "a" LTE (JRegExp "x"))
             [clause 1 "a" GT (JNum 5)]); [reflexivity| |reflexivity|reflexivity].
    simpl. repeat constructor.
  - apply (anchor_operand_errors _ "a" (clause 0 "a" NE (JNum 1))
             [clause 1 "a" EQ (JNum 5)]); [reflexivity|].
    simpl. repeat constructor.
Defined.

Lemma pushValues_bad statement pre bad post hasNull st :
  Forall scalar pre → isNonNullObject bad = true →
  pushValues statement (pre ++ bad :: post) hasNull st =
  (Thrown (BadFilterValue (comparator statement)),
   {| rangeStarts := rangeStarts st ++ pre;
      rangeEndings := rangeEndings st ++ (getValueEdgeAfter <$> pre);
      used := used st |}).
Proof.
  intros Hpre Hbad. revert hasNull st.
  induction Hpre as [|v pre Hv _ IH]; intros hasNull st.
  - simpl. rewrite Extract_bind_run. unfold liftOutcome, toIndexFieldValue.
    rewrite Hbad, !app_nil_r. destruct st; reflexivity.
  - simpl. rewrite Extract_bind_run. unfold liftOutcome, toIndexFieldValue.
    rewrite Hv. repeat (rewrite Extract_bind_run; simpl). rewrite IH. simpl.
    rewrite <- !app_assoc. reflexivity.
Qed.

(** An [EQ] or [IN] anchor whose operand holds an object: [extractRanges]
    throws at the first such value, having pushed a start and an ending for
    each value before it, and no undefined marker even when one of those is
    [null]. *)
Theorem eq_in_bad_value (queries : list DbQuery) (indexField : string)
    (anchor : DbQuery) (others : list DbQuery) (pre post : list JsValue)
    (bad : JsValue) :
  filter (λ q, dbQueryToDottedField q = indexField) queries = anchor :: others →
  comparator (getFilterStatement anchor) = EQ
  ∨ comparator (getFilterStatement anchor) = IN
    ∧ isArray (value (getFilterStatement anchor)) = true →
  operandValues (getFilterStatement anchor) = pre ++ bad :: post →
  Forall scalar pre →
  isNonNullObject bad = true →
  extractRanges queries indexField =
  (Thrown (BadFilterValue (comparator (getFilterStatement anchor))),
   {| rangeStarts := pre;
      rangeEndings := getValueEdgeAfter <$> pre;
      used := [anchor] |}).
Proof.
  intros Hfilter Hcmp Hvalues Hpre Hbad.
  rewrite (extractRanges_from_anchor _ _ _ _ Hfilter).
  assert (bool_decide (comparator (getFilterStatement anchor) = IN)
          && negb (isArray (value (getFilterStatement anchor))) = false) as ->.
  { destruct Hcmp as [->|[_ ->]]; [reflexivity|apply andb_false_r]. }
  assert (match comparator (getFilterStatement anchor) with
          | EQ | IN => equalityCase (getFilterStatement anchor)
          | LT | LTE => upperAnchorCase (anchor :: others) (getFilterStatement anchor)
          | GT | GTE => lowerAnchorCase (anchor :: others) (getFilterStatement anchor)
          | NE | NIN =>
              throw (UnsupportedComparator (comparator (getFilterStatement anchor)))
          end = equalityCase (getFilterStatement anchor)) as ->.
  { destruct Hcmp as [->|[-> _]]; reflexivity. }
  unfold equalityCase. fold (operandValues (getFilterStatement anchor)).
  rewrite Hvalues, !Extract_bind_run, pushValues_bad by assumption.
  reflexivity.
Qed.

Lemma eq_in_bad_value_witness :
  extractRanges [clause 0 "a" IN (JArray [JNull; JNum 1; JRegExp "x"; JNum 2])] "a"
  = (Thrown (BadFilterValue IN),
     {| rangeStarts := [JNull; JNum 1];
        rangeEndings := [getValueEdgeAfter JNull; getValueEdgeAfter (JNum 1)];
        used := [clause 0 "a" IN (JArray [JNull; JNum 1; JRegExp "x"; JNum 2])] |}).
Proof.
  apply (eq_in_bad_value _ "a"
           (clause 0 "a" IN (JArray [JNull; JNum 1; JRegExp "x"; JNum 2])) []
           [JNull; JNum 1] [JNum 2] (JRegExp "x")).
  - reflexivity.
  - right. split; reflexivity.
  - reflexivity.
  - repeat constructor.
  - reflexivity.
Defined.

(** ** The complementary clause *)

(** [findRangeEdge] takes the first clause of the list that is not used yet
    and has the comparator asked for.  It marks that clause used and then
    throws if the operand is an array or another object; otherwise it returns
    the operand, or the edge asked for.  Without such a clause it returns
    [undefined] and marks nothing. *)
Theorem complementary_clause (queries : list DbQuery) (cmp : DbComparator)
    (edge : ValueEdges) (st : ExtractState) :
  findRangeEdge queries cmp edge st =
  match head (filter (λ q, comparator (getFilterStatement q) = cmp ∧ q ∉ used st)
                queries) with
  | None => (Returned JUndefined, st)
  | Some q =>
      let v := value (getFilterStatement q) in
      if isArray v then (Thrown (RangeFilterArrayValue cmp), markUsed st q)
      else if isNonNullObject v
           then (Thrown (RangeFilterObjectValue cmp), markUsed st q)
           else (Returned (edgeOf edge v), markUsed st q)
  end.
Proof.
  induction queries as [|q rest IH]; [reflexivity|].
  simpl. rewrite Extract_bind_run. simpl. unfold setHas.
  destruct (decide (q ∈ used st)) as [Hq|Hq].
  - rewrite (bool_decide_eq_true_2 _ Hq), filter_cons_False by tauto. exact IH.
  - rewrite (bool_decide_eq_false_2 _ Hq).
    destruct (decide (comparator (getFilterStatement q) = cmp)) as [Hc|Hc].
    + rewrite (bool_decide_eq_true_2 _ Hc), filter_cons_True by tauto. simpl.
      rewrite Extract_bind_run. simpl.
      assert (setAdd (used st) q = used st ++ [q]) as ->.
      { unfold setAdd, setHas. rewrite (bool_decide_eq_false_2 _ Hq). reflexivity. }
      fold (markUsed st q).
      destruct (isArray _); [reflexivity|].
      destruct (isNonNullObject _); [reflexivity|].
      destruct edge; reflexivity.
    + rewrite (bool_decide_eq_false_2 _ Hc), filter_cons_False by tauto. exact IH.
Qed.

(** ** The paths of [filterUsingIndex] *)

Lemma scanRequest_prefixed context limit1 offset1 (b : list JsValue * list JsValue) :
  scanRequest context limit1 offset1
    (keyPrefix (indexMetadata context) :: b.1)
    (keyPrefix (indexMetadata context) :: b.2)
  = prefixedRequest context limit1 offset1 b.
Proof. unfold scanRequest, prefixedRequest. destruct (reverse context); reflexivity. Qed.

(** [filterUsingIndex] scans nothing when planning throws.  With a plan that
    has ranges it makes one scan per range, in the order of the plan also for
    a reverse scan, each under the key prefix of the index and with the limit
    and offset that [performRangeScan] settles on; the entries are the scan
    results in that order, deduplicated on a multi-key index.  With a plan
    without ranges it makes the two forward scans of a full scan whose index
    name is [undefined]. *)
Theorem filter_using_index_paths
    (narrow : IFilterContext → ScanResult → QuerySet → Outcome (QuerySet * ScanResult))
    (context : IFilterContext) :
  (∀ e, getIndexRanges (dbQueries context) (indexFields context) = Thrown e →
        filterUsingIndex narrow context = (Thrown e, []))
  ∧ ∀ plan,
      getIndexRanges (dbQueries context) (indexFields context) = Returned plan →
      (ranges plan ≠ [] →
       ∃ bounds,
         ranges plan = boundedRange <$> bounds
         ∧ let limit1 := (scanLimitOffset context (length bounds)).1 in
           let offset1 := (scanLimitOffset context (length bounds)).2 in
           let requests := prefixedRequest context limit1 offset1 <$> bounds in
           let found := mjoin (getRange (indexes context) <$> requests) in
           filterUsingIndex narrow context =
           (settle narrow context plan
              (RangeScanResult
                 {| entries := if bool_decide (1 < maxKeysPerItem (indexMetadata context))
                               then deduplicate getIdentifier found
                               else Returned found;
                    usedLimit := limit1;
                    usedOffset := offset1;
                    resultUsedQueries := usedQueries plan |}),
            requests))
      ∧ (ranges plan = [] →
         let afterUndefined :=
           plainRange [JUndefined; getValueEdgeAfter undefinedSymbol]
                      [getValueEdgeAfter JUndefined] in
         let upToUndefined :=
           plainRange [JUndefined; JNull]
                      [JUndefined; getValueEdgeAfter undefinedSymbol] in
         filterUsingIndex narrow context =
         (settle narrow context plan
            (FullScanResult
               (deduplicate getIdentifier
                  (getRange (indexes context) afterUndefined
                   ++ getRange (indexes context) upToUndefined))),
          [afterUndefined; upToUndefined])).
Proof.
  split.
  - intros e He. unfold filterUsingIndex. rewrite He. reflexivity.
  - intros plan Hplan. unfold filterUsingIndex, selectScan, settle. rewrite Hplan.
    split.
    + intros Hne.
      destruct (getIndexRanges_plan _ _ _ Hplan) as (_ & _ & _ & bounds & Hb).
      exists bounds. split; [exact Hb|]. cbv zeta.
      rewrite bool_decide_eq_true_2
        by (destruct (ranges plan); [contradiction|simpl; lia]).
      unfold performRangeScan. rewrite Hb, length_fmap.
      destruct (scanLimitOffset context (length bounds)) as [limit1 offset1].
      rewrite scanRanges_bounded. simpl.
      assert ((λ b, scanRequest context limit1 offset1
                      (keyPrefix (indexMetadata context) :: b.1)
                      (keyPrefix (indexMetadata context) :: b.2)) <$> bounds
              = prefixedRequest context limit1 offset1 <$> bounds) as ->.
      { apply list_fmap_ext. intros i b _. apply scanRequest_prefixed. }
      destruct (bool_decide (length (usedQueries plan) = length (dbQueries context)));
        reflexivity.
    + intros Hnil. rewrite Hnil. simpl.
      destruct (bool_decide (length (usedQueries plan) = length (dbQueries context)));
        reflexivity.
Qed.

(** ** Narrowing with the clauses left over *)

Lemma setPositions_absent fieldNames position m field :
  field ∉ fieldNames → setPositions fieldNames position m !! field = m !! field.
Proof.
  revert position m. induction fieldNames as [|name rest IH]; intros position m Hnot;
    simpl; [reflexivity|].
  apply not_elem_of_cons in Hnot as [Hne Hnot].
  rewrite IH by exact Hnot. apply lookup_insert_ne. congruence.
Qed.

Lemma setPositions_lookup fieldNames position m i field :
  NoDup fieldNames → fieldNames !! i = Some field →
  setPositions fieldNames position m !! field
  = Some (firstFieldOffset + (position + i))%nat.
Proof.
  intros Hnd. revert position m i.
  induction Hnd as [|name rest Hnot _ IH]; intros position m i Hi; [inversion Hi|].
  simpl. destruct i as [|i]; simpl in Hi.
  - injection Hi as ->. rewrite setPositions_absent by exact Hnot.
    rewrite lookup_insert_eq. f_equal. unfold firstFieldOffset. lia.
  - rewrite (IH _ _ i Hi). f_equal. unfold firstFieldOffset. lia.
Qed.

(** The position of a field in the keys of an index is one more than its
    position among the fields of the index. *)
Lemma indexFieldPositions_lookup fieldNames field pos :
  NoDup fieldNames →
  setPositions fieldNames 0 ∅ !! field = Some pos
  ↔ ∃ i, fieldNames !! i = Some field ∧ pos = S i.
Proof.
  intros Hnd. split.
  - intros Hpos. destruct (decide (field ∈ fieldNames)) as [Hin|Hnot].
    + apply list_elem_of_lookup in Hin as [i Hi]. exists i. split; [exact Hi|].
      rewrite (setPositions_lookup _ _ _ _ _ Hnd Hi) in Hpos.
      injection Hpos as <-. reflexivity.
    + rewrite setPositions_absent in Hpos by exact Hnot. inversion Hpos.
  - intros (i & Hi & ->). rewrite (setPositions_lookup _ _ _ _ _ Hnd Hi).
    reflexivity.
Qed.

Lemma collectFilters_spec positions dbQueries used0 filters0 :
  (∀ q, q ∈ (collectFilters positions dbQueries used0 filters0).1
        ↔ q ∈ used0
          ∨ (q ∈ dbQueries ∧ is_Some (positions !! dbQueryToDottedField q)))
  ∧ (NoDup used0 → NoDup (collectFilters positions dbQueries used0 filters0).1)
  ∧ ∃ added,
      (collectFilters positions dbQueries used0 filters0).2 = filters0 ++ added
      ∧ ∀ statement pos,
          (statement, pos) ∈ added
          ↔ ∃ q, q ∈ dbQueries ∧ ¬ q ∈ used0
                 ∧ positions !! dbQueryToDottedField q = Some pos
                 ∧ statement = getFilterStatement q.
Proof.
  revert used0 filters0.
  induction dbQueries as [|query rest IH]; intros used0 filters0; simpl.
  - split; [|split; [auto|]].
    + intros q. split; [auto|]. intros [H|[H _]]; [exact H|inversion H].
    + exists []. rewrite app_nil_r. split; [reflexivity|].
      intros statement pos. split; [intros H; inversion H|].
      intros (q & H & _). inversion H.
  - unfold setHas. destruct (decide (query ∈ used0)) as [Hused|Hused].
    { rewrite (bool_decide_eq_true_2 _ Hused).
      destruct (IH used0 filters0) as (Hmem & Hnd & added & Hadded & Hfilters).
      split; [|split; [exact Hnd|]].
      - intros q. rewrite Hmem, elem_of_cons. split; [tauto|].
        intros [H|[[->|H] Hp]]; auto.
      - exists added. split; [exact Hadded|]. intros statement pos.
        rewrite Hfilters. split.
        + intros (q & Hq & Hrest). exists q. split; [right; exact Hq|exact Hrest].
        + intros (q & Hq & Hnot & Hrest).
          apply elem_of_cons in Hq as [->|Hq]; [contradiction|]. eauto. }
    rewrite (bool_decide_eq_false_2 _ Hused).
    destruct (positions !! dbQueryToDottedField query) as [position|] eqn:Epos.
    + destruct (IH (setAdd used0 query)
                   (filters0 ++ [(getFilterStatement query, position)]))
        as (Hmem & Hnd & added & Hadded & Hfilters).
      split; [|split].
      * intros q. rewrite Hmem, elem_of_setAdd, elem_of_cons. split.
        -- intros [[H| ->]|[H Hp]]; auto.
        -- intros [H|[[->|H] Hp]]; auto.
      * intros H. apply Hnd, setAdd_NoDup, H.
      * exists ((getFilterStatement query, position) :: added).
        split; [rewrite Hadded, <- app_assoc; reflexivity|].
        intros statement pos. rewrite elem_of_cons, Hfilters. split.
        -- intros [[= -> ->]|(q & Hq & Hnot & Hrest)].
           ++ exists query. split; [left|]. auto.
           ++ exists q. split; [right; exact Hq|]. split; [|exact Hrest].
              intros Hin. apply Hnot, elem_of_setAdd. left. exact Hin.
        -- intros (q & Hq & Hnot & Hp & ->).
           apply elem_of_cons in Hq as [->|Hq].
           ++ left. rewrite Epos in Hp. injection Hp as <-. reflexivity.
           ++ destruct (decide (q = query)) as [->|Hne].
              ** left. rewrite Epos in Hp. injection Hp as <-. reflexivity.
              ** right. exists q. split; [exact Hq|]. split; [|auto].
                 intros Hin. apply elem_of_setAdd in Hin as [Hin|Heq]; auto.
    + destruct (IH used0 filters0) as (Hmem & Hnd & added & Hadded & Hfilters).
      split; [|split; [exact Hnd|]].
      * intros q. rewrite Hmem, elem_of_cons. split; [tauto|].
        intros [H|[[->|H] Hp]]; auto.
        rewrite Epos in Hp. destruct Hp as [? [=]].
      * exists added. split; [exact Hadded|]. intros statement pos.
        rewrite Hfilters. split.
        -- intros (q & Hq & Hrest). exists q. split; [right; exact Hq|exact Hrest].
        -- intros (q & Hq & Hnot & Hp & Hs).
           apply elem_of_cons in Hq as [->|Hq]; [congruence|]. eauto.
Qed.

Lemma passesFilters_spec shouldFilter filtersToApply key :
  passesFilters shouldFilter filtersToApply key = true
  ↔ ∀ statement pos, (statement, pos) ∈ filtersToApply →
                     shouldFilter statement (keyValue key pos) = true.
Proof.
  induction filtersToApply as [|[statement pos] rest IH]; simpl.
  - split; [|reflexivity]. intros _ s p H. inversion H.
  - destruct (shouldFilter statement (keyValue key pos)) eqn:E; simpl.
    + rewrite IH. split.
      * intros H s p Hin. apply elem_of_cons in Hin as [[= -> ->]|Hin]; auto.
      * intros H s p Hin. apply H. right. exact Hin.
    + split; [discriminate|]. intros H. rewrite <- E. apply H. left.
Qed.

Lemma narrowEntries_kept shouldFilter indexName filtersToApply result st :
  (narrowEntries shouldFilter indexName filtersToApply result st).1
  = filter (λ entry, passesFilters shouldFilter filtersToApply (key entry) = true)
           result.
Proof.
  revert st. induction result as [|entry rest IH]; intros st; simpl; [reflexivity|].
  specialize (IH (countItem indexName st)).
  destruct (narrowEntries shouldFilter indexName filtersToApply rest
              (countItem indexName st)) as [kept st2].
  simpl in *. rewrite IH.
  destruct (passesFilters shouldFilter filtersToApply (key entry)) eqn:E.
  - rewrite filter_cons_True by exact E. reflexivity.
  - rewrite filter_cons_False by (rewrite E; discriminate). reflexivity.
Qed.

Lemma filter_always {A} (l : list A) : filter (λ _, true = true) l = l.
Proof.
  induction l as [|x l IH]; [reflexivity|].
  rewrite filter_cons_True by reflexivity. rewrite IH. reflexivity.
Qed.

Lemma omap_indices_names (names : list string) :
  (omap (λ name, (λ n, (n, name)) <$> arrayIndex name) names).*2
  = filter (λ name, arrayIndex name ≠ None) names.
Proof.
  induction names as [|name names IH]; [reflexivity|]. simpl.
  destruct (arrayIndex name) as [n|] eqn:E; simpl.
  - rewrite filter_cons_True by (rewrite E; discriminate). f_equal. exact IH.
  - rewrite filter_cons_False by (rewrite E; auto). exact IH.
Qed.

(** [Object.keys] lists every key once, whatever the order. *)
Lemma objectKeys_Permutation {V} (o : list (string * V)) : objectKeys o ≡ₚ o.*1.
Proof.
  unfold objectKeys. cbv zeta. rewrite merge_sort_Permutation, omap_indices_names.
  rewrite <- (filter_app_complement (λ name, arrayIndex name = None) (o.*1)) at 3.
  apply Permutation_app_comm.
Qed.

(** Without an array index among the keys, the order is the one in which the
    keys were added. *)
Lemma objectKeys_plain {V} (o : list (string * V)) :
  Forall (λ name, arrayIndex name = None) o.*1 → objectKeys o = o.*1.
Proof.
  intros Hplain. unfold objectKeys. cbv zeta.
  assert (omap (λ name, (λ n, (n, name)) <$> arrayIndex name) o.*1 = []) as ->.
  { induction Hplain as [|name names Hname _ IH]; [reflexivity|].
    simpl. rewrite Hname. exact IH. }
  simpl. induction Hplain as [|name names Hname _ IH]; [reflexivity|].
  rewrite filter_cons_True by exact Hname. rewrite IH. reflexivity.
Qed.

(** [narrowResultsIfPossible] marks used, beside the clauses that were, every
    clause of the query that addresses a field of the index, and keeps, in
    their order, the entries that each such clause not used before accepts:
    the filter of the clause is asked about the component of the key that
    stands one place after the place of the field in [Object.keys] of the
    index fields, with [undefined] for the undefined marker and for a key that
    is too short.  That place is the place of the field in the index when no
    field name is an array index. *)
Theorem narrowing (shouldFilter : IDbFilterStatement → JsValue → bool)
    (result : list IIndexEntry) (indexName : JsValue) (indexFields : IndexFields)
    (dbQueries : list DbQuery) (usedQueries : QuerySet) :
  NoDup (keys indexFields) →
  let narrowed := narrowResultsIfPossible shouldFilter result indexName
                    indexFields dbQueries usedQueries in
  (∀ q, q ∈ narrowedUsed narrowed
        ↔ q ∈ usedQueries
          ∨ (q ∈ dbQueries ∧ dbQueryToDottedField q ∈ keys indexFields))
  ∧ (NoDup usedQueries → NoDup (narrowedUsed narrowed))
  ∧ (∃ keep,
       narrowedEntries narrowed = filter (λ entry, keep entry = true) result
       ∧ ∀ entry,
           keep entry = true
           ↔ ∀ q i, q ∈ dbQueries → q ∉ usedQueries →
                    objectKeys indexFields !! i = Some (dbQueryToDottedField q) →
                    shouldFilter (getFilterStatement q) (keyValue (key entry) (S i))
                    = true)
  ∧ (Forall (λ name, arrayIndex name = None) (keys indexFields) →
     objectKeys indexFields = keys indexFields).
Proof.
  intros Hnd0 narrowed. subst narrowed. unfold narrowResultsIfPossible.
  assert (NoDup (objectKeys indexFields)) as Hnd
    by (rewrite objectKeys_Permutation; exact Hnd0).
  assert (∀ name, name ∈ objectKeys indexFields ↔ name ∈ keys indexFields) as Hsame
    by (intros name; rewrite objectKeys_Permutation; reflexivity).
  destruct (collectFilters_spec (setPositions (objectKeys indexFields) 0 ∅)
              dbQueries usedQueries [])
    as (Hmem & Hdistinct & added & Hadded & Hfilters).
  destruct (collectFilters (setPositions (objectKeys indexFields) 0 ∅) dbQueries
              usedQueries []) as [used' filtersToApply].
  simpl in Hmem, Hdistinct, Hadded. subst filtersToApply.
  assert (∀ entry,
            passesFilters shouldFilter added (key entry) = true
            ↔ ∀ q i, q ∈ dbQueries → q ∉ usedQueries →
                     objectKeys indexFields !! i = Some (dbQueryToDottedField q) →
                     shouldFilter (getFilterStatement q) (keyValue (key entry) (S i))
                     = true) as Hkeep.
  { intros entry. rewrite passesFilters_spec. split.
    - intros H q i Hq Hnot Hi. apply H, Hfilters. exists q.
      split; [exact Hq|]. split; [exact Hnot|]. split; [|reflexivity].
      apply indexFieldPositions_lookup; [exact Hnd|]. eauto.
    - intros H statement pos Hin.
      apply Hfilters in Hin as (q & Hq & Hnot & Hpos & ->).
      apply indexFieldPositions_lookup in Hpos as (i & Hi & ->); [|exact Hnd].
      apply H; assumption. }
  assert (∀ q, q ∈ used'
               ↔ q ∈ usedQueries
                 ∨ (q ∈ dbQueries ∧ dbQueryToDottedField q ∈ keys indexFields))
    as Hused.
  { intros q. rewrite Hmem, <- Hsame.
    split; (intros [H|[Hq Hp]]; [left; exact H|right]); (split; [exact Hq|]).
    - destruct Hp as [pos Hpos].
      apply indexFieldPositions_lookup in Hpos as (i & Hi & _); [|exact Hnd].
      eapply list_elem_of_lookup_2, Hi.
    - apply list_elem_of_lookup in Hp as [i Hi]. exists (S i).
      apply indexFieldPositions_lookup; [exact Hnd|]. eauto. }
  simpl. case_bool_decide as Hlen.
  - simpl. split; [exact Hused|]. split; [exact Hdistinct|].
    split; [|apply objectKeys_plain].
    exists (λ entry, passesFilters shouldFilter added (key entry)).
    split; [|exact Hkeep].
    destruct added; [|discriminate]. simpl. rewrite filter_always. reflexivity.
  - pose proof (narrowEntries_kept shouldFilter indexName added result
                  {| items := 0; shown := false; messages := [] |}) as Hkept.
    destruct (narrowEntries shouldFilter indexName added result _) as [kept st].
    simpl in *. split; [exact Hused|]. split; [exact Hdistinct|].
    split; [|apply objectKeys_plain].
    exists (λ entry, passesFilters shouldFilter added (key entry)).
    split; [exact Hkept|exact Hkeep].
Qed.

Lemma narrowing_witness :
  let narrowed := narrowResultsIfPossible acceptEqual oneBEntries (JStr "idx")
                    oneBIndex oneQueries [] in
  (∀ q, q ∈ narrowedUsed narrowed
        ↔ q ∈ @nil DbQuery
          ∨ (q ∈ oneQueries ∧ dbQueryToDottedField q ∈ keys oneBIndex))
  ∧ (NoDup (@nil DbQuery) → NoDup (narrowedUsed narrowed))
  ∧ (∃ keep,
       narrowedEntries narrowed = filter (λ entry, keep entry = true) oneBEntries
       ∧ ∀ entry,
           keep entry = true
           ↔ ∀ q i, q ∈ oneQueries → q ∉ @nil DbQuery →
                    objectKeys oneBIndex !! i = Some (dbQueryToDottedField q) →
                    acceptEqual (getFilterStatement q) (keyValue (key entry) (S i))
                    = true)
  ∧ (Forall (λ name, arrayIndex name = None) (keys oneBIndex) →
     objectKeys oneBIndex = keys oneBIndex).
Proof.
  apply (narrowing acceptEqual oneBEntries (JStr "idx") oneBIndex oneQueries []).
  apply (bool_decide_unpack _). vm_compute. exact I.
Defined.

(** The clause on [bar] is marked used and keeps the one entry whose third key
    component is its operand. *)
Example narrowing_foo_bar :
  narrowResultsIfPossible acceptEqual fooBarEntries (JStr "idx") fooBarIndex
    barQueries []
  = {| narrowedUsed := barQueries;
       narrowedEntries :=
         [ {| key := [JStr "idx"; JNum 1; JStr "test"; JStr "n1"];
              entryValue := "n1" |} ];
       narrowedMessages := [] |}.
Proof. vm_compute. reflexivity. Qed.

(** For the index fields [{b: 1, "1": 1}], [Object.keys] gives ["1", "b"]: the
    clause on the field [1] is asked about the second component of the key,
    and keeps the entry that holds its operand there. *)
Example narrowing_array_index :
  objectKeys oneBIndex = ["1"; "b"]
  ∧ narrowResultsIfPossible acceptEqual oneBEntries (JStr "idx") oneBIndex
      oneQueries []
    = {| narrowedUsed := oneQueries;
         narrowedEntries :=
           [ {| key := [JStr "idx"; JStr "x"; JStr "y"; JStr "n2"];
                entryValue := "n2" |} ];
         narrowedMessages := [] |}.
Proof. split; vm_compute; reflexivity. Qed.

Lemma collectFilters_none positions dbQueries used0 filters0 :
  (∀ q, q ∈ dbQueries →
        q ∈ used0 ∨ positions !! dbQueryToDottedField q = None) →
  collectFilters positions dbQueries used0 filters0 = (used0, filters0).
Proof.
  induction dbQueries as [|query rest IH]; intros Hnone; simpl; [reflexivity|].
  assert (collectFilters positions rest used0 filters0 = (used0, filters0)) as Hrest
    by (apply IH; intros q Hq; apply Hnone; right; exact Hq).
  destruct (Hnone query) as [Hused|Hpos]; [left| |].
  - unfold setHas. rewrite (bool_decide_eq_true_2 _ Hused). exact Hrest.
  - rewrite Hpos. destruct (setHas used0 query); exact Hrest.
Qed.

(** When every clause of the query is used already or addresses a field that
    is not in the index, [narrowResultsIfPossible] hands back the entries and
    the used clauses as it got them, and writes no message. *)
Theorem nothing_to_narrow (shouldFilter : IDbFilterStatement → JsValue → bool)
    (result : list IIndexEntry) (indexName : JsValue) (indexFields : IndexFields)
    (dbQueries : list DbQuery) (usedQueries : QuerySet) :
  (∀ q, q ∈ dbQueries →
        q ∈ usedQueries ∨ dbQueryToDottedField q ∉ keys indexFields) →
  narrowResultsIfPossible shouldFilter result indexName indexFields dbQueries
    usedQueries
  = {| narrowedUsed := usedQueries;
       narrowedEntries := result;
       narrowedMessages := [] |}.
Proof.
  intros Hnone. unfold narrowResultsIfPossible.
  rewrite collectFilters_none; [reflexivity|].
  intros q Hq. destruct (Hnone q Hq) as [Hused|Hfield]; [left; exact Hused|right].
  rewrite setPositions_absent by (rewrite objectKeys_Permutation; exact Hfield).
  apply lookup_empty.
Qed.

Lemma nothing_to_narrow_witness :
  narrowResultsIfPossible acceptEqual fooBarEntries (JStr "idx") fooBarIndex
    [clause 0 "foo" EQ (JNum 1); clause 1 "baz" EQ (JNum 2)]
    [clause 0 "foo" EQ (JNum 1)]
  = {| narrowedUsed := [clause 0 "foo" EQ (JNum 1)];
       narrowedEntries := fooBarEntries;
       narrowedMessages := [] |}.
Proof.
  apply (nothing_to_narrow acceptEqual fooBarEntries (JStr "idx") fooBarIndex
           [clause 0 "foo" EQ (JNum 1); clause 1 "baz" EQ (JNum 2)]
           [clause 0 "foo" EQ (JNum 1)]).
  intros q Hq. apply elem_of_cons in Hq as [->|Hq]; [left; left|].
  apply list_elem_of_singleton in Hq as ->. right.
  apply (bool_decide_unpack _). vm_compute. exact I.
Defined.

(** *** The message about a huge dataset *)

Lemma setPositions_is_Some fieldNames position m field :
  field ∈ fieldNames → is_Some (setPositions fieldNames position m !! field).
Proof.
  revert position m. induction fieldNames as [|name rest IH]; intros position m Hin;
    [inversion Hin|].
  simpl. destruct (decide (field ∈ rest)) as [Hrest|Hrest]; [apply IH, Hrest|].
  apply elem_of_cons in Hin as [->|Hin]; [|contradiction].
  rewrite setPositions_absent by exact Hrest. rewrite lookup_insert_eq. eauto.
Qed.

Lemma narrowEntries_shown shouldFilter indexName filtersToApply result st :
  shown st = true →
  (narrowEntries shouldFilter indexName filtersToApply result st).2 = st.
Proof.
  intros Hshown. induction result as [|entry rest IH]; simpl; [reflexivity|].
  assert (countItem indexName st = st) as ->
    by (unfold countItem; rewrite Hshown; reflexivity).
  destruct (narrowEntries shouldFilter indexName filtersToApply rest st)
    as [kept st2]. exact IH.
Qed.

Lemma narrowEntries_messages shouldFilter indexName filtersToApply result st :
  shown st = false → items st ≤ 5001 →
  messages (narrowEntries shouldFilter indexName filtersToApply result st).2
  = messages st
    ++ (if bool_decide (5001 < items st + Z.of_nat (length result))
        then [indexName] else []).
Proof.
  revert st. induction result as [|entry rest IH]; intros st Hshown Hitems.
  - simpl. rewrite bool_decide_eq_false_2 by lia. rewrite app_nil_r. reflexivity.
  - cbn [narrowEntries].
    destruct (narrowEntries shouldFilter indexName filtersToApply rest
                (countItem indexName st)) as [kept st2] eqn:Erest.
    cbn [snd].
    assert (st2 = (narrowEntries shouldFilter indexName filtersToApply rest
                     (countItem indexName st)).2) as -> by (rewrite Erest; reflexivity).
    clear Erest kept. unfold countItem. rewrite Hshown.
    rewrite length_cons, Nat2Z.inj_succ.
    case_bool_decide as Hhuge.
    + rewrite narrowEntries_shown by reflexivity. cbn [messages].
      rewrite bool_decide_eq_true_2 by lia. reflexivity.
    + rewrite IH by (cbn [shown items]; first [reflexivity|lia]). cbn [messages items].
      rewrite (bool_decide_ext (5001 < items st + 1 + Z.of_nat (length rest))
                 (5001 < items st + Z.succ (Z.of_nat (length rest)))) by lia.
      reflexivity.
Qed.

(** Once some clause is turned into a filter, [narrowResultsIfPossible] writes
    its message at most once, and it writes it exactly when more than 5001
    entries are drained: the counter is compared before it is incremented. *)
Theorem narrowing_message (shouldFilter : IDbFilterStatement → JsValue → bool)
    (result : list IIndexEntry) (indexName : JsValue) (indexFields : IndexFields)
    (dbQueries : list DbQuery) (usedQueries : QuerySet) :
  (∃ q, q ∈ dbQueries ∧ narrowable indexFields usedQueries q) →
  narrowedMessages
    (narrowResultsIfPossible shouldFilter result indexName indexFields dbQueries
       usedQueries)
  = if bool_decide (5001 < Z.of_nat (length result)) then [indexName] else [].
Proof.
  intros (q & Hq & Hfield & Hnot). unfold narrowResultsIfPossible.
  destruct (collectFilters_spec (setPositions (objectKeys indexFields) 0 ∅)
              dbQueries usedQueries [])
    as (_ & _ & added & Hadded & Hfilters).
  destruct (collectFilters (setPositions (objectKeys indexFields) 0 ∅) dbQueries
              usedQueries []) as [used' filtersToApply].
  simpl in Hadded. subst filtersToApply.
  assert (dbQueryToDottedField q ∈ objectKeys indexFields) as Hfield'
    by (rewrite objectKeys_Permutation; exact Hfield).
  destruct (setPositions_is_Some (objectKeys indexFields) 0 ∅ _ Hfield')
    as [pos Hpos].
  assert ((getFilterStatement q, pos) ∈ added) as Hin
    by (apply Hfilters; exists q; auto).
  rewrite bool_decide_eq_false_2 by (destruct added; [inversion Hin|discriminate]).
  pose proof (narrowEntries_messages shouldFilter indexName added result
                {| items := 0; shown := false; messages := [] |}) as Hmessages.
  destruct (narrowEntries shouldFilter indexName added result _) as [kept st].
  simpl in *. apply Hmessages; [reflexivity|lia].
Qed.

Lemma narrowing_message_witness :
  narrowedMessages
    (narrowResultsIfPossible acceptEqual fooBarEntries (JStr "idx") fooBarIndex
       barQueries [])
  = if bool_decide (5001 < Z.of_nat (length fooBarEntries)) then [JStr "idx"] else [].
Proof.
  apply (narrowing_message acceptEqual fooBarEntries (JStr "idx") fooBarIndex
           barQueries []).
  exists (clause 0 "bar" EQ (JStr "test")). split; [left|]. split.
  - apply (bool_decide_unpack _). vm_compute. exact I.
  - intros H. inversion H.
Defined.

(** The message is written for 5002 entries and not for 5001. *)
Example narrowing_message_threshold :
  let entry := {| key := [JStr "idx"; JNum 1; JStr "test"; JStr "n1"];
                  entryValue := "n1" |} in
  let messagesFor count :=
    narrowedMessages
      (narrowResultsIfPossible acceptEqual (replicate (Z.to_nat count) entry)
         (JStr "idx") fooBarIndex barQueries []) in
  messagesFor 5001 = [] ∧ messagesFor 5002 = [JStr "idx"].
Proof. split; vm_compute; reflexivity. Qed.

(** ** Identifiers and key suffixes *)

(** [getIdentifier] returns a value exactly when that value is the last
    component of the key and is a number or a string; it throws for every
    other key, the empty key among them. *)
Theorem identifier_is_last_component (entry : IIndexEntry) (id : JsValue) :
  getIdentifier entry = Returned id
  ↔ (∃ front, key entry = front ++ [id])
    ∧ (typeof id = TNumber ∨ typeof id = TString).
Proof.
  unfold getIdentifier. split.
  - destruct (last (key entry)) as [x|] eqn:Elast; simpl.
    + apply last_Some in Elast as [front Hkey].
      destruct (typeof x) eqn:Etype; intros [= <-]; split; eauto.
    + discriminate.
  - intros [[front Hkey] Htype]. rewrite Hkey, last_snoc. simpl.
    destruct Htype as [-> | ->]; reflexivity.
Qed.

Lemma arraySlice_drop {A} (front back : list A) (start : Z) :
  0 ≤ start → Z.of_nat (length front) = start →
  arraySlice (front ++ back) start = back.
Proof.
  intros Hstart Hlen. unfold arraySlice.
  rewrite bool_decide_eq_false_2 by lia.
  rewrite length_app, Z.min_l by lia.
  rewrite <- Hlen, Nat2Z.id. apply drop_app_length.
Qed.

(** [compareByKeySuffix prefixLength] compares two entries by what follows
    the first [prefixLength - 1] components of their keys, whatever these
    components are. *)
Theorem compares_key_suffixes (compareKey : list JsValue → list JsValue → Z)
    (prefixLength : Z) (a b : IIndexEntry)
    (aPrefix aSuffix bPrefix bSuffix : list JsValue) :
  1 ≤ prefixLength →
  key a = aPrefix ++ aSuffix → Z.of_nat (length aPrefix) = prefixLength - 1 →
  key b = bPrefix ++ bSuffix → Z.of_nat (length bPrefix) = prefixLength - 1 →
  compareByKeySuffix compareKey prefixLength a b = compareKey aSuffix bSuffix.
Proof.
  intros Hpos Ha Hla Hb Hlb. unfold compareByKeySuffix. cbv zeta.
  rewrite Ha, Hb, !arraySlice_drop by lia. reflexivity.
Qed.

Lemma compares_key_suffixes_witness :
  compareByKeySuffix (λ x y, Z.of_nat (length x) - Z.of_nat (length y)) 2
    {| key := [JStr "idx"; JNum 1; JStr "n1"]; entryValue := "n1" |}
    {| key := [JStr "other"; JStr "n2"]; entryValue := "n2" |}
  = 1.
Proof.
  apply (compares_key_suffixes
           (λ x y, Z.of_nat (length x) - Z.of_nat (length y)) 2
           {| key := [JStr "idx"; JNum 1; JStr "n1"]; entryValue := "n1" |}
           {| key := [JStr "other"; JStr "n2"]; entryValue := "n2" |}
           [JStr "idx"] [JNum 1; JStr "n1"] [JStr "other"] [JStr "n2"]);
    first [reflexivity|lia].
Defined.

(** ** The clause that anchors a field *)

Lemma StronglySorted_filter {A} (R : relation A) (P : A → Prop)
    `{!∀ x, Decision (P x)} (l : list A) :
  StronglySorted R l → StronglySorted R (filter P l).
Proof.
  induction 1 as [|x l Hl IH Hx]; [constructor|].
  destruct (decide (P x)) as [HP|HP].
  - rewrite filter_cons_True by exact HP. constructor; [exact IH|].
    apply Forall_forall. intros y Hy. apply list_elem_of_filter in Hy as [_ Hy].
    rewrite Forall_forall in Hx. auto.
  - rewrite filter_cons_False by exact HP. exact IH.
Qed.

Lemma classified_strongly_sorted dbQueries queries :
  getQueriesThatCanUseIndex dbQueries = Returned queries →
  StronglySorted bySpecificity queries
  ∧ ∀ q, q ∈ queries ↔ q ∈ dbQueries ∧ usable q.
Proof.
  intros Hq. destruct (getQueriesThatCanUseIndex_returns dbQueries)
    as (queries' & Hq' & Hperm).
  rewrite Hq in Hq'. injection Hq' as <-. split.
  - apply Sorted_StronglySorted; [apply bySpecificity_transitive|].
    eapply (arraySort_sorted (filter usable dbQueries)); [|exact Hq].
    apply Forall_forall. intros y Hy. apply list_elem_of_filter in Hy. tauto.
  - intros q. rewrite Hperm, list_elem_of_filter. tauto.
Qed.

(** The clause that [extractRanges] picks for a field, out of the classified
    clauses of a query, is the first clause of the query, in the order it is
    written in, among the clauses on that field with the best placed
    comparator of [canUseIndex]. *)
Theorem anchor_choice (dbQueries queries : list DbQuery) (indexField : string)
    (anchor : DbQuery) (others : list DbQuery) :
  getQueriesThatCanUseIndex dbQueries = Returned queries →
  filter (λ q, dbQueryToDottedField q = indexField) queries = anchor :: others →
  (∀ q, q ∈ dbQueries → usable q → dbQueryToDottedField q = indexField →
        bySpecificity anchor q)
  ∧ head (filter (λ q, dbQueryToDottedField q = indexField
                       ∧ comparator (getFilterStatement q)
                         = comparator (getFilterStatement anchor)) dbQueries)
    = Some anchor.
Proof.
  intros Hq Hfilter.
  destruct (classified_strongly_sorted _ _ Hq) as [Hsorted Hmem].
  assert (anchor ∈ filter (λ q, dbQueryToDottedField q = indexField) queries)
    as Hanchor by (rewrite Hfilter; left).
  apply list_elem_of_filter in Hanchor as [Hfield Hanchor].
  apply Hmem in Hanchor as [_ Husable].
  split.
  - intros q Hin Hu Hf.
    assert (q ∈ anchor :: others) as Hq'.
    { rewrite <- Hfilter. apply list_elem_of_filter. split; [exact Hf|].
      apply Hmem. auto. }
    apply (StronglySorted_filter _ (λ q, dbQueryToDottedField q = indexField))
      in Hsorted.
    rewrite Hfilter in Hsorted. apply StronglySorted_cons in Hsorted as [Hle _].
    apply elem_of_cons in Hq' as [->|Hq'].
    + unfold bySpecificity. lia.
    + rewrite Forall_forall in Hle. auto.
  - pose proof (arraySort_withComparator
                  (comparator (getFilterStatement anchor)) _ _ Hq) as Hstable.
    assert (filter (λ q, dbQueryToDottedField q = indexField
                         ∧ comparator (getFilterStatement q)
                           = comparator (getFilterStatement anchor)) dbQueries
            = filter (λ q, comparator (getFilterStatement q)
                           = comparator (getFilterStatement anchor))
                (filter (λ q, dbQueryToDottedField q = indexField) queries)) as ->.
    { transitivity
        (filter (λ q, dbQueryToDottedField q = indexField)
           (filter (λ q, comparator (getFilterStatement q)
                         = comparator (getFilterStatement anchor)) queries)).
      - rewrite Hstable, !list_filter_filter.
        apply list_filter_iff. intros q.
        assert (comparator (getFilterStatement q)
                = comparator (getFilterStatement anchor) →
                comparator (getFilterStatement q) ∈ canUseIndex) as Hin
          by (intros ->; exact Husable).
        tauto.
      - rewrite !list_filter_filter. apply list_filter_iff. intros q. tauto. }
    rewrite Hfilter, filter_cons_True by reflexivity. reflexivity.
Qed.

Lemma anchor_choice_witness :
  (∀ q, q ∈ [clause 0 "a" LT (JNum 9); clause 1 "b" EQ (JNum 0);
             clause 2 "a" GTE (JNum 1); clause 3 "a" GTE (JNum 2)] →
        usable q → dbQueryToDottedField q = "a" →
        bySpecificity (clause 2 "a" GTE (JNum 1)) q)
  ∧ head (filter (λ q, dbQueryToDottedField q = "a"
                       ∧ comparator (getFilterStatement q)
                         = comparator (getFilterStatement (clause 2 "a" GTE (JNum 1))))
            [clause 0 "a" LT (JNum 9); clause 1 "b" EQ (JNum 0);
             clause 2 "a" GTE (JNum 1); clause 3 "a" GTE (JNum 2)])
    = Some (clause 2 "a" GTE (JNum 1)).
Proof.
  apply (anchor_choice
           [clause 0 "a" LT (JNum 9); clause 1 "b" EQ (JNum 0);
            clause 2 "a" GTE (JNum 1); clause 3 "a" GTE (JNum 2)]
           [clause 1 "b" EQ (JNum 0); clause 2 "a" GTE (JNum 1);
            clause 3 "a" GTE (JNum 2); clause 0 "a" LT (JNum 9)]
           "a" (clause 2 "a" GTE (JNum 1))
           [clause 3 "a" GTE (JNum 2); clause 0 "a" LT (JNum 9)]).
  - vm_compute. reflexivity.
  - vm_compute. reflexivity.
Defined.

(** ** Queries that can be planned *)

Lemma wellFormed_range_scalar q :
  usable q → wellFormed q →
  (2 ≤ specificity (comparator (getFilterStatement q)))%nat →
  scalar (value (getFilterStatement q)).
Proof.
  unfold usable, wellFormed. intros Hu Hwf Hspec.
  destruct (comparator (getFilterStatement q)); simpl in Hspec; try lia; exact Hwf.
Qed.

Lemma extractRanges_wellFormed queries indexField :
  Forall usable queries → Forall wellFormed queries →
  StronglySorted bySpecificity queries →
  ∃ r, (extractRanges queries indexField).1 = Returned r.
Proof.
  intros Husable Hwf Hsorted.
  destruct (filter (λ q, dbQueryToDottedField q = indexField) queries)
    as [|anchor others] eqn:Efilter.
  { rewrite (extractRanges_no_clause _ _ Efilter). eauto. }
  rewrite (extractRanges_from_anchor _ _ _ _ Efilter).
  apply (StronglySorted_filter _ (λ q, dbQueryToDottedField q = indexField))
    in Hsorted.
  rewrite Efilter in Hsorted. apply StronglySorted_cons in Hsorted as [Hle _].
  assert (∀ q, q ∈ anchor :: others → usable q ∧ wellFormed q) as Hall.
  { intros q Hq. rewrite <- Efilter in Hq. apply list_elem_of_filter in Hq as [_ Hq].
    rewrite Forall_forall in Husable, Hwf. auto. }
  destruct (Hall anchor) as [Hu Hw]; [left|].
  assert ((2 ≤ specificity (comparator (getFilterStatement anchor)))%nat →
          scalarOperands (anchor :: others)) as Hscalars.
  { intros Hspec. apply Forall_forall. intros q Hq.
    destruct (Hall q Hq) as [Hqu Hqw]. apply wellFormed_range_scalar; auto.
    apply elem_of_cons in Hq as [->|Hq]; [exact Hspec|].
    rewrite Forall_forall in Hle. specialize (Hle q Hq).
    unfold bySpecificity in Hle. lia. }
  assert (∀ c1 c2 q, comparator (getFilterStatement anchor) ≠ c1 →
                     comparator (getFilterStatement anchor) ≠ c2 →
                     q ∈ anchor :: others →
                     comparator (getFilterStatement q) = c1
                     ∨ comparator (getFilterStatement q) = c2 →
                     q ∉ [anchor]) as Hfresh.
  { intros c1 c2 q H1 H2 _ Hc Hin. apply list_elem_of_singleton in Hin as ->.
    destruct Hc; congruence. }
  unfold usable in Hu. unfold wellFormed in Hw.
  destruct (comparator (getFilterStatement anchor)) eqn:Ec;
    try (apply (bool_decide_eq_true_2 _) in Hu; discriminate Hu).
  - simpl. rewrite Extract_bind_run, equalityCase_scalars by exact Hw. eauto.
  - simpl. rewrite Extract_bind_run.
    rewrite lowerAnchorCase_run;
      [eauto|exact Hw|apply Hscalars; simpl; lia|].
    intros q Hq Hc. simpl. eapply (Hfresh LTE LT); eauto; discriminate.
  - simpl. rewrite Extract_bind_run.
    rewrite lowerAnchorCase_run;
      [eauto|exact Hw|apply Hscalars; simpl; lia|].
    intros q Hq Hc. simpl. eapply (Hfresh LTE LT); eauto; discriminate.
  - simpl. rewrite Extract_bind_run.
    rewrite upperAnchorCase_run;
      [eauto|exact Hw|apply Hscalars; simpl; lia|].
    intros q Hq Hc. simpl. eapply (Hfresh GTE GT); eauto; discriminate.
  - simpl. rewrite Extract_bind_run.
    rewrite upperAnchorCase_run;
      [eauto|exact Hw|apply Hscalars; simpl; lia|].
    intros q Hq Hc. simpl. eapply (Hfresh GTE GT); eauto; discriminate.
  - destruct Hw as [Harr Hw]. rewrite Harr. simpl.
    rewrite Extract_bind_run, equalityCase_scalars by exact Hw. eauto.
Qed.

Lemma collectRanges_returns queries fields acc :
  (∀ field, ∃ r, (extractRanges queries field).1 = Returned r) →
  ∃ c, collectRanges queries fields acc = Returned c.
Proof.
  intros Hall. revert acc. induction fields as [|field rest IH]; intros acc; simpl.
  - eauto.
  - destruct (Hall field) as [r ->]. simpl. case_bool_decide; eauto.
Qed.

(** [getIndexRanges] returns a plan, and throws nothing, whenever the clauses
    of the query whose comparator is in [canUseIndex] have operands that the
    extractor accepts: a scalar or an array of scalars for [EQ], an array of
    scalars for [IN], a scalar for [GTE], [LTE], [GT] and [LT]. *)
Theorem planning_succeeds (dbQueries : list DbQuery) (indexFields : IndexFields) :
  (∀ q, q ∈ dbQueries → usable q → wellFormed q) →
  ∃ plan, getIndexRanges dbQueries indexFields = Returned plan.
Proof.
  intros Hwf.
  destruct (getQueriesThatCanUseIndex_returns dbQueries) as (queries & Hq & _).
  destruct (classified_strongly_sorted _ _ Hq) as [Hsorted Hmem].
  rewrite (getIndexRanges_eq _ _ _ Hq).
  destruct (collectRanges_returns queries (keys indexFields) emptyCollected)
    as [c ->]; [|simpl; eauto].
  intros field. apply extractRanges_wellFormed; [| |exact Hsorted];
    apply Forall_forall; intros q Hin; apply Hmem in Hin as [Hin Hu]; auto.
Qed.

Lemma planning_succeeds_witness :
  ∃ plan, getIndexRanges ageQueries ageIndex = Returned plan.
Proof.
  apply (planning_succeeds ageQueries ageIndex).
  intros q Hq _.
  apply elem_of_cons in Hq as [->|Hq]; [reflexivity|].
  apply list_elem_of_singleton in Hq as ->. reflexivity.
Defined.
